(** * lcm-tui: the context ledger, the summary graph reader and dissolve

    A shallow embedding of the parts of lcm-tui that rewrite or reconstruct
    the LCM context ledger:

    - the relational store ([summaries], [summary_parents],
      [summary_messages], [context_items]) as lists of rows, with the SQL
      statements the Go code issues written as functions on those lists;
    - [runDissolveCommand] (dissolve.go) in a small state-and-error monad
      that threads the database connection, standard output and the list
      of database calls;
    - the graph reader [loadSummaryGraph] (Go maps as [gmap], sets as
      [gset]) and the display traversal [buildSummaryRows] (main.go).

    Integers.  SQLite INTEGER columns and Go's [int]/[int64] are 64-bit.
    Arithmetic done by Go is written with [wrap64]; arithmetic done inside
    an SQL statement is exact on [Z] (SQLite is exact as long as the result
    fits in 64 bits, and theorems that need it bound the ordinals). *)

From Stdlib Require Import ZArith Ascii String List Sorting.Permutation Lia.
From Stdlib Require OrderedTypeEx.
From stdpp Require Import base decidable option list sorting gmap strings fin_maps fin_sets.

Open Scope Z_scope.

#[local] Set Warnings "-clear-no-such-hyp".

(** ** Go integers *)

Definition wrap64 (z : Z) : Z := (z + 2 ^ 63) mod 2 ^ 64 - 2 ^ 63.

Definition int64_range (z : Z) : Prop := - 2 ^ 63 <= z < 2 ^ 63.

(** ** The store *)

Record summary := mkSummary {
  s_summary_id : string;
  s_conversation_id : Z;
  s_kind : string;
  s_content : string;
  s_token_count : Z;
  s_created_at : string;
  s_file_ids : string;
  s_depth : Z
}.

Record summary_parent := mkSummaryParent {
  sp_summary_id : string;
  sp_parent_summary_id : string;
  sp_ordinal : Z
}.

Record summary_message := mkSummaryMessage {
  sm_summary_id : string;
  sm_message_id : Z;
  sm_ordinal : Z
}.

(** [message_id] and [summary_id] are nullable columns. *)
Record context_item := mkContextItem {
  ci_conversation_id : Z;
  ci_ordinal : Z;
  ci_item_type : string;
  ci_message_id : option Z;
  ci_summary_id : option string;
  ci_created_at : string
}.

Record conversation := mkConversation {
  c_conversation_id : Z;
  c_session_id : string;
  c_updated_at : string
}.

Record store := mkStore {
  conversations : list conversation;
  summaries : list summary;
  summary_parents : list summary_parent;
  summary_messages : list summary_message;
  context_items : list context_item
}.

#[global] Instance summary_eq_dec : EqDecision summary.
Proof. solve_decision. Defined.
#[global] Instance summary_parent_eq_dec : EqDecision summary_parent.
Proof. solve_decision. Defined.
#[global] Instance summary_message_eq_dec : EqDecision summary_message.
Proof. solve_decision. Defined.
#[global] Instance context_item_eq_dec : EqDecision context_item.
Proof. solve_decision. Defined.
#[global] Instance conversation_eq_dec : EqDecision conversation.
Proof. solve_decision. Defined.
#[global] Instance store_eq_dec : EqDecision store.
Proof. solve_decision. Defined.

Definition set_context_items (s : store) (t : list context_item) : store :=
  {| conversations := conversations s;
     summaries := summaries s; summary_parents := summary_parents s;
     summary_messages := summary_messages s; context_items := t |}.

Definition set_summaries (s : store) (t : list summary) : store :=
  {| conversations := conversations s;
     summaries := t; summary_parents := summary_parents s;
     summary_messages := summary_messages s; context_items := context_items s |}.

Definition set_summary_parents (s : store) (t : list summary_parent) : store :=
  {| conversations := conversations s;
     summaries := summaries s; summary_parents := t;
     summary_messages := summary_messages s; context_items := context_items s |}.

Definition set_summary_messages (s : store) (t : list summary_message) : store :=
  {| conversations := conversations s;
     summaries := summaries s; summary_parents := summary_parents s;
     summary_messages := t; context_items := context_items s |}.

Definition with_ordinal (r : context_item) (n : Z) : context_item :=
  {| ci_conversation_id := ci_conversation_id r; ci_ordinal := n;
     ci_item_type := ci_item_type r; ci_message_id := ci_message_id r;
     ci_summary_id := ci_summary_id r; ci_created_at := ci_created_at r |}.

(** ** SQL statements on [context_items]

    Modelled from the spec: the table declaration is not part of this
    repository.  The spec's storage interface gives [context_items] a
    uniqueness constraint on (conversation_id, ordinal), which dissolve.go
    calls the PRIMARY KEY; SQLite checks it at every row it writes. *)

Definition ci_key (r : context_item) : Z * Z := (ci_conversation_id r, ci_ordinal r).

Definition keys (t : list context_item) : list (Z * Z) := ci_key <$> t.

Inductive dbError := ErrConstraint (conversation_id ordinal : Z).

#[global] Instance dbError_eq_dec : EqDecision dbError.
Proof. solve_decision. Defined.

Section Statements.
Context (P : context_item → Prop) `{!∀ r, Decision (P r)}.

(** DELETE FROM context_items WHERE P: the remaining rows and the number
    of rows affected. *)
Definition sql_delete (t : list context_item) : list context_item * Z :=
  (filter (λ r, ¬ P r) t, Z.of_nat (length (filter P t))).

(** SELECT COUNT( * ) FROM context_items WHERE P. *)
Definition sql_count (t : list context_item) : Z :=
  Z.of_nat (length (filter P t)).

Context (f : context_item → context_item).

(** What one row looks like after UPDATE ... SET ... WHERE P. *)
Definition updated (r : context_item) : context_item :=
  if decide (P r) then f r else r.

(** UPDATE context_items SET ... WHERE P, one row at a time in table
    order: [done] holds the rows already visited, [todo] the rows still
    to visit.  A rewritten row whose key is held by any other row of the
    table at that moment aborts the statement. *)
Fixpoint update_from (done todo : list context_item) : dbError + list context_item :=
  match todo with
  | [] => inr done
  | r :: rest =>
      if decide (P r) then
        if decide (ci_key (f r) ∈ keys (done ++ rest))
        then inl (ErrConstraint (ci_conversation_id (f r)) (ci_ordinal (f r)))
        else update_from (done ++ [f r]) rest
      else update_from (done ++ [r]) rest
  end.

Definition sql_update (t : list context_item) : dbError + list context_item :=
  update_from [] t.

(** The table states the statement passes through, one per row written,
    with no constraint check. *)
Fixpoint update_states (done todo : list context_item) : list (list context_item) :=
  match todo with
  | [] => []
  | r :: rest =>
      if decide (P r)
      then (done ++ f r :: rest) :: update_states (done ++ [f r]) rest
      else update_states (done ++ [r]) rest
  end.
End Statements.

(** INSERT INTO context_items VALUES r. *)
Definition sql_insert (r : context_item) (t : list context_item) : dbError + list context_item :=
  if decide (ci_key r ∈ keys t)
  then inl (ErrConstraint (ci_conversation_id r) (ci_ordinal r))
  else inr (t ++ [r]).

(** ** dissolve.go *)

Record dissolveOptions := mkDissolveOptions {
  summaryID : string;
  apply : bool;
  purge : bool
}.

Record dissolveTarget := mkDissolveTarget {
  dt_summaryID : string;
  dt_conversationID : Z;
  dt_kind : string;
  dt_depth : Z;
  dt_tokenCount : Z;
  dt_ordinal : Z
}.

Record dissolveParent := mkDissolveParent {
  dp_summaryID : string;
  dp_ordinal : Z;
  dp_kind : string;
  dp_depth : Z;
  dp_tokenCount : Z;
  dp_content : string
}.

#[global] Instance dissolveTarget_eq_dec : EqDecision dissolveTarget.
Proof. solve_decision. Defined.
#[global] Instance dissolveParent_eq_dec : EqDecision dissolveParent.
Proof. solve_decision. Defined.

(** The errors [runDissolveCommand] returns, one constructor per
    [fmt.Errorf] call site, carrying the values the message prints. *)
Inductive cmdError :=
| ErrNotInActiveContext (summaryID : string) (conversationID : Z)
| ErrNotCondensed (summaryID kind : string) (depth : Z)
| ErrNoParents (summaryID : string)
| ErrBeginTx
| ErrDeleteContextItem (e : dbError)
| ErrDeleteCount (deleted : Z)
| ErrShiftTemp (e : dbError)
| ErrShiftFinal (e : dbError)
| ErrInsertParent (summaryID : string) (ordinal : Z) (e : dbError)
| ErrDeleteSummaryParents (summaryID : string) (e : dbError)
| ErrDeleteSummary (summaryID : string) (e : dbError)
| ErrCommit.

#[global] Instance cmdError_eq_dec : EqDecision cmdError.
Proof. solve_decision. Defined.

(** The lines written to standard output, one constructor per
    [fmt.Printf]/[fmt.Println] call site with the values it formats.
    [OutParent] stands for the parent line, whose preview is computed
    from the parent's content. *)
Inductive outLine :=
| OutHeader (target : dissolveTarget)
| OutRestore (parents : nat)
| OutParent (p : dissolveParent)
| OutTokenImpact (condensed restored delta : Z)
| OutOrdinalShift (totalItems ordinal shift : Z)
| OutDryRun
| OutApplying
| OutDeleted (ordinal : Z)
| OutShifted (totalItems shift : Z)
| OutInserted (parents : nat) (first last : Z)
| OutPurged (summaryID : string)
| OutDone (newCount : Z).

#[global] Instance outLine_eq_dec : EqDecision outLine.
Proof. solve_decision. Defined.

(** Calls made on the database handle. *)
Inductive dbCall := CallQuery | CallBeginTx | CallExec | CallCommit | CallRollback.

#[global] Instance dbCall_eq_dec : EqDecision dbCall.
Proof. solve_decision. Defined.

(** The database connection as the command sees it: [w_db] is the
    committed store, the one any other reader sees; [w_tx] is the working
    copy of the open transaction, if there is one. *)
Record world := mkWorld {
  w_db : store;
  w_tx : option store;
  w_stdout : list outLine;
  w_calls : list dbCall
}.

Definition initial_world (st : store) : world :=
  {| w_db := st; w_tx := None; w_stdout := []; w_calls := [] |}.

(** Commands: state passing over [world], with Go's early
    [return err]. *)
Definition cmd (A : Type) : Type := world → (cmdError + A) * world.

#[global] Instance cmd_ret : MRet cmd := λ A a w, (inr a, w).

#[global] Instance cmd_bind : MBind cmd := λ A B k m w,
  match m w with
  | (inl e, w') => (inl e, w')
  | (inr a, w') => k a w'
  end.

Definition fail {A} (e : cmdError) : cmd A := λ w, (inl e, w).

Definition called (c : dbCall) (w : world) : world :=
  {| w_db := w_db w; w_tx := w_tx w; w_stdout := w_stdout w; w_calls := w_calls w ++ [c] |}.

Definition printLine (l : outLine) : cmd unit := λ w,
  (inr tt, {| w_db := w_db w; w_tx := w_tx w; w_stdout := w_stdout w ++ [l];
              w_calls := w_calls w |}).

(** db.Query / db.QueryRow: reads the committed store. *)
Definition query {A} (q : store → A) : cmd A := λ w,
  (inr (q (w_db w)), called CallQuery w).

(** db.BeginTx *)
Definition beginTx : cmd unit := λ w,
  (inr tt, {| w_db := w_db w; w_tx := Some (w_db w); w_stdout := w_stdout w;
              w_calls := w_calls w ++ [CallBeginTx] |}).

(** tx.ExecContext: runs a statement on the working copy; [wrap] is the
    [fmt.Errorf] around a database error.  The result is the number of
    rows affected. *)
Definition exec (stmt : store → dbError + store * Z) (wrap : dbError → cmdError) : cmd Z := λ w,
  match w_tx w with
  | None => (inl ErrBeginTx, called CallExec w)
  | Some t =>
      match stmt t with
      | inl e => (inl (wrap e), called CallExec w)
      | inr (t', n) =>
          (inr n, {| w_db := w_db w; w_tx := Some t'; w_stdout := w_stdout w;
                     w_calls := w_calls w ++ [CallExec] |})
      end
  end.

(** tx.Commit *)
Definition commit : cmd unit := λ w,
  match w_tx w with
  | None => (inl ErrCommit, called CallCommit w)
  | Some t =>
      (inr tt, {| w_db := t; w_tx := None; w_stdout := w_stdout w;
                  w_calls := w_calls w ++ [CallCommit] |})
  end.

(** tx.Rollback *)
Definition rollbackTx (w : world) : world :=
  {| w_db := w_db w; w_tx := None; w_stdout := w_stdout w;
     w_calls := w_calls w ++ [CallRollback] |}.

(** The deferred function of [runDissolveCommand]: the flag [rollback]
    is still true exactly when the function returns before
    [rollback = false], that is when [body] returns an error. *)
Definition deferRollback {A} (body : cmd A) : cmd A := λ w,
  match body w with
  | (inl e, w') => (inl e, rollbackTx w')
  | (inr a, w') => (inr a, w')
  end.

(** [for i, x := range l] *)
Fixpoint forRange {A} (i : nat) (l : list A) (body : nat → A → cmd unit) : cmd unit :=
  match l with
  | [] => mret tt
  | x :: l' => body i x ;; forRange (S i) l' body
  end.

Definition target_rows (st : store) (conversationID : Z) (sid : string)
  : list (summary * context_item) :=
  s ← summaries st;
  ci ← context_items st;
  if decide (ci_summary_id ci = Some (s_summary_id s)
             ∧ ci_conversation_id ci = s_conversation_id s
             ∧ s_summary_id s = sid
             ∧ s_conversation_id s = conversationID)
  then [(s, ci)] else [].

(** [QueryRowContext(...).Scan] keeps the first row of the join and
    reports [sql.ErrNoRows] when there is none. *)
Definition loadDissolveTarget (conversationID : Z) (sid : string) : cmd dissolveTarget :=
  rows ← query (λ st, target_rows st conversationID sid);
  match rows with
  | [] => fail (ErrNotInActiveContext sid conversationID)
  | (s, ci) :: _ =>
      let target := {| dt_summaryID := s_summary_id s;
                       dt_conversationID := s_conversation_id s;
                       dt_kind := s_kind s;
                       dt_depth := s_depth s;
                       dt_tokenCount := s_token_count s;
                       dt_ordinal := ci_ordinal ci |} in
      if decide (dt_kind target ≠ "condensed"%string)
      then fail (ErrNotCondensed sid (dt_kind target) (dt_depth target))
      else mret target
  end.

Definition parent_rows (st : store) (sid : string) : list dissolveParent :=
  sp ← summary_parents st;
  s ← summaries st;
  if decide (s_summary_id s = sp_parent_summary_id sp ∧ sp_summary_id sp = sid)
  then [ {| dp_summaryID := sp_parent_summary_id sp;
            dp_ordinal := sp_ordinal sp;
            dp_kind := s_kind s;
            dp_depth := s_depth s;
            dp_tokenCount := s_token_count s;
            dp_content := s_content s |} ]
  else [].

Definition parent_le (p q : dissolveParent) : Prop := dp_ordinal p <= dp_ordinal q.

#[global] Instance parent_le_dec p q : Decision (parent_le p q).
Proof. unfold parent_le. apply _. Defined.

(** ORDER BY sp.ordinal ASC *)
Definition loadDissolveParents (sid : string) : cmd (list dissolveParent) :=
  query (λ st, merge_sort parent_le (parent_rows st sid)).

(** A statement on [context_items] as a statement on the store. *)
Definition on_context_items (stmt : list context_item → dbError + list context_item * Z)
  (st : store) : dbError + store * Z :=
  match stmt (context_items st) with
  | inl e => inl e
  | inr (t, n) => inr (set_context_items st t, n)
  end.

Definition is_target_item (conversationID ordinal : Z) (sid : string) (r : context_item) : Prop :=
  ci_conversation_id r = conversationID ∧ ci_ordinal r = ordinal ∧ ci_summary_id r = Some sid.

Definition after_ordinal (conversationID ordinal : Z) (r : context_item) : Prop :=
  ci_conversation_id r = conversationID ∧ ci_ordinal r > ordinal.

Definition from_ordinal (conversationID ordinal : Z) (r : context_item) : Prop :=
  ci_conversation_id r = conversationID ∧ ci_ordinal r >= ordinal.

Definition in_conversation (conversationID : Z) (r : context_item) : Prop :=
  ci_conversation_id r = conversationID.

#[global] Instance is_target_item_dec c o s r : Decision (is_target_item c o s r).
Proof. unfold is_target_item. apply _. Defined.
#[global] Instance after_ordinal_dec c o r : Decision (after_ordinal c o r).
Proof. unfold after_ordinal. apply _. Defined.
#[global] Instance from_ordinal_dec c o r : Decision (from_ordinal c o r).
Proof. unfold from_ordinal. apply _. Defined.
#[global] Instance in_conversation_dec c r : Decision (in_conversation c r).
Proof. unfold in_conversation. apply _. Defined.

Definition tempOffset : Z := 10000000.

(** DELETE FROM context_items
    WHERE conversation_id = ? AND ordinal = ? AND summary_id = ? *)
Definition deleteTargetItem (conversationID ordinal : Z) (sid : string) : store → dbError + store * Z :=
  on_context_items (λ t, inr (sql_delete (is_target_item conversationID ordinal sid) t)).

(** UPDATE context_items SET ordinal = ordinal + tempOffset
    WHERE conversation_id = ? AND ordinal > ? *)
Definition shiftToTemp (conversationID ordinal : Z) (t : list context_item)
  : dbError + list context_item :=
  sql_update (after_ordinal conversationID ordinal)
             (λ r, with_ordinal r (ci_ordinal r + tempOffset)) t.

(** UPDATE context_items SET ordinal = ordinal - tempOffset + shift
    WHERE conversation_id = ? AND ordinal >= tempOffset *)
Definition shiftToFinal (conversationID shift : Z) (t : list context_item)
  : dbError + list context_item :=
  sql_update (from_ordinal conversationID tempOffset)
             (λ r, with_ordinal r (ci_ordinal r - tempOffset + shift)) t.

(** The renumbering the two statements are meant to amount to: [shift]
    added to the ordinal of every item of the conversation above
    [ordinal]. *)
Definition shifted (conversationID ordinal shift : Z) (r : context_item) : context_item :=
  if decide (after_ordinal conversationID ordinal r)
  then with_ordinal r (ci_ordinal r + shift) else r.

(** What the two statements, one after the other, do to a row and to its
    ordinal. *)
Definition renumbered (conversationID ordinal shift : Z) (r : context_item) : context_item :=
  updated (from_ordinal conversationID tempOffset)
          (λ r, with_ordinal r (ci_ordinal r - tempOffset + shift))
          (updated (after_ordinal conversationID ordinal)
                   (λ r, with_ordinal r (ci_ordinal r + tempOffset)) r).

Definition renumberedOrdinal (ordinal shift y : Z) : Z :=
  let y' := if decide (y > ordinal) then y + tempOffset else y in
  if decide (y' >= tempOffset) then y' - tempOffset + shift else y'.

(** Every table state the two statements pass through. *)
Definition twoPhaseStates (conversationID ordinal shift : Z) (t : list context_item)
  : list (list context_item) :=
  update_states (after_ordinal conversationID ordinal)
                (λ r, with_ordinal r (ci_ordinal r + tempOffset)) [] t
  ++ match shiftToTemp conversationID ordinal t with
     | inl _ => []
     | inr t1 =>
         update_states (from_ordinal conversationID tempOffset)
                       (λ r, with_ordinal r (ci_ordinal r - tempOffset + shift)) [] t1
     end.

Definition counted (P : context_item → Prop) `{!∀ r, Decision (P r)}
  (stmt : list context_item → dbError + list context_item)
  (t : list context_item) : dbError + list context_item * Z :=
  match stmt t with
  | inl e => inl e
  | inr t' => inr (t', sql_count P t)
  end.

(** INSERT INTO context_items
      (conversation_id, ordinal, item_type, summary_id, created_at)
    VALUES (?, ?, 'summary', ?, datetime('now')) *)
Definition parentItem (conversationID newOrdinal : Z) (sid now : string) : context_item :=
  {| ci_conversation_id := conversationID; ci_ordinal := newOrdinal;
     ci_item_type := "summary"; ci_message_id := None;
     ci_summary_id := Some sid; ci_created_at := now |}.

Definition insertParentItem (r : context_item) : store → dbError + store * Z :=
  on_context_items (λ t,
    match sql_insert r t with
    | inl e => inl e
    | inr t' => inr (t', 1)
    end).

(** DELETE FROM summary_parents WHERE summary_id = ? *)
Definition deleteSummaryParents (sid : string) (st : store) : dbError + store * Z :=
  inr (set_summary_parents st (filter (λ e, sp_summary_id e ≠ sid) (summary_parents st)),
       Z.of_nat (length (filter (λ e, sp_summary_id e = sid) (summary_parents st)))).

(** DELETE FROM summaries WHERE summary_id = ? *)
Definition deleteSummary (sid : string) (st : store) : dbError + store * Z :=
  inr (set_summaries st (filter (λ s, s_summary_id s ≠ sid) (summaries st)),
       Z.of_nat (length (filter (λ s, s_summary_id s = sid) (summaries st)))).

Definition totalTokens (parents : list dissolveParent) : Z :=
  foldl (λ acc p, wrap64 (acc + dp_tokenCount p)) 0 parents.

(** The part of [runDissolveCommand] that runs inside the transaction,
    from the first [tx.ExecContext] to [tx.Commit].  [now i] is what
    [datetime('now')] gives at the [i]-th insert. *)
Definition applyDissolve (opts : dissolveOptions) (conversationID : Z)
  (target : dissolveTarget) (parents : list dissolveParent)
  (totalItems shift : Z) (now : nat → string) : cmd unit :=
  deleted ← exec (deleteTargetItem conversationID (dt_ordinal target) (dt_summaryID target))
                 ErrDeleteContextItem;
  if decide (deleted ≠ 1) then fail (ErrDeleteCount deleted) else
  printLine (OutDeleted (dt_ordinal target));;
  (if decide (shift > 0) then
     exec (on_context_items
             (counted (after_ordinal conversationID (dt_ordinal target))
                      (shiftToTemp conversationID (dt_ordinal target))))
          ErrShiftTemp;;
     exec (on_context_items
             (counted (from_ordinal conversationID tempOffset)
                      (shiftToFinal conversationID shift)))
          ErrShiftFinal;;
     printLine (OutShifted totalItems shift)
   else mret tt);;
  forRange 0 parents (λ i p,
    let newOrdinal := wrap64 (dt_ordinal target + Z.of_nat i) in
    exec (insertParentItem (parentItem conversationID newOrdinal (dp_summaryID p) (now i)))
         (ErrInsertParent (dp_summaryID p) newOrdinal);;
    mret tt);;
  printLine (OutInserted (length parents) (dt_ordinal target)
               (wrap64 (dt_ordinal target + (Z.of_nat (length parents) - 1))));;
  (if purge opts then
     exec (deleteSummaryParents (dt_summaryID target))
          (ErrDeleteSummaryParents (dt_summaryID target));;
     exec (deleteSummary (dt_summaryID target))
          (ErrDeleteSummary (dt_summaryID target));;
     printLine (OutPurged (dt_summaryID target))
   else mret tt);;
  commit.

(** The transaction of [runDissolveCommand]: [db.BeginTx] and everything
    the deferred rollback covers. *)
Definition dissolveTx (opts : dissolveOptions) (conversationID : Z)
  (target : dissolveTarget) (parents : list dissolveParent)
  (totalItems shift : Z) (now : nat → string) : cmd unit :=
  beginTx;;
  deferRollback (applyDissolve opts conversationID target parents totalItems shift now).

(** The plan printed before the [--apply] test. *)
Definition printPlan (target : dissolveTarget) (parents : list dissolveParent) : cmd unit :=
  printLine (OutHeader target);;
  printLine (OutRestore (length parents));;
  forRange 0 parents (λ _ p, printLine (OutParent p));;
  printLine (OutTokenImpact (dt_tokenCount target) (totalTokens parents)
               (wrap64 (totalTokens parents - dt_tokenCount target))).

(** [runDissolveCommand], after argument parsing and opening the
    database.  [len(parents) - 1] cannot wrap: a slice length is between
    0 and 2^63 - 1. *)
Definition runDissolveCommand (opts : dissolveOptions) (conversationID : Z)
  (now : nat → string) : cmd unit :=
  target ← loadDissolveTarget conversationID (summaryID opts);
  parents ← loadDissolveParents (summaryID opts);
  if decide (length parents = 0%nat) then fail (ErrNoParents (summaryID opts)) else
  printPlan target parents;;
  totalItems ← query (λ st, sql_count (after_ordinal conversationID (dt_ordinal target))
                               (context_items st));
  let shift := Z.of_nat (length parents) - 1 in
  printLine (OutOrdinalShift totalItems (dt_ordinal target) shift);;
  if negb (apply opts) then printLine OutDryRun
  else
    printLine OutApplying;;
    dissolveTx opts conversationID target parents totalItems shift now;;
    newCount ← query (λ st, sql_count (in_conversation conversationID) (context_items st));
    printLine (OutDone newCount).

(** Running the command on a store. *)
Definition dissolve (opts : dissolveOptions) (conversationID : Z) (now : nat → string)
  (st : store) : (cmdError + unit) * world :=
  runDissolveCommand opts conversationID now (initial_world st).

(** ** The graph reader *)

Record summaryNode := mkSummaryNode {
  n_id : string;
  n_kind : string;
  n_content : string;
  n_createdAt : string;
  n_tokenCount : Z;
  n_children : list string;
  n_expanded : bool
}.

Record summaryGraph := mkSummaryGraph {
  g_conversationID : Z;
  g_roots : list string;
  g_nodes : gmap string summaryNode
}.

Record summaryRow := mkSummaryRow {
  r_summaryID : string;
  r_depth : Z
}.

#[global] Instance summaryNode_eq_dec : EqDecision summaryNode.
Proof. solve_decision. Defined.
#[global] Instance summaryRow_eq_dec : EqDecision summaryRow.
Proof. solve_decision. Defined.

Inductive graphError :=
| ErrNoConversation (sessionID : string).

Definition with_children (n : summaryNode) (children : list string) : summaryNode :=
  {| n_id := n_id n; n_kind := n_kind n; n_content := n_content n;
     n_createdAt := n_createdAt n; n_tokenCount := n_tokenCount n;
     n_children := children; n_expanded := n_expanded n |}.

(** Go compares strings byte by byte. *)
Definition str_lt (a b : string) : Prop := String.ltb a b = true.

#[global] Instance str_lt_dec a b : Decision (str_lt a b).
Proof. unfold str_lt. apply _. Defined.

(** SELECT conversation_id FROM conversations WHERE session_id = ?
    ORDER BY updated_at DESC LIMIT 1: among the rows of the session, the
    first one in table order whose [updated_at] is the greatest. *)
Definition lookupConversationID (st : store) (sessionID : string) : graphError + Z :=
  let best := foldl (λ (acc : option conversation) c,
                 if decide (c_session_id c = sessionID) then
                   match acc with
                   | None => Some c
                   | Some b => if decide (str_lt (c_updated_at b) (c_updated_at c))
                               then Some c else Some b
                   end
                 else acc) None (conversations st) in
  match best with
  | None => inl (ErrNoConversation sessionID)
  | Some c => inr (c_conversation_id c)
  end.

Section GraphReader.
(** [sanitizeForTerminal] rewrites the content for display; the graph
    structure does not depend on what it returns. *)
Variable sanitizeForTerminal : string → string.

(** The node scanned from one row of [summaries]. *)
Definition scanNode (s : summary) : summaryNode :=
  {| n_id := s_summary_id s; n_kind := s_kind s;
     n_content := sanitizeForTerminal (s_content s);
     n_createdAt := s_created_at s; n_tokenCount := s_token_count s;
     n_children := []; n_expanded := false |}.

(** The loop of [loadSummaryNodes]: [nodes[node.id] = &node] for each
    row of the conversation. *)
Definition loadSummaryNodes (st : store) (conversationID : Z) : gmap string summaryNode :=
  foldl (λ (nodes : gmap string summaryNode) (s : summary),
           <[ s_summary_id s := scanNode s ]> nodes)
        ∅
        (filter (λ s, s_conversation_id s = conversationID) (summaries st)).

(** SELECT sp.parent_summary_id, sp.summary_id
    FROM summary_parents sp JOIN summaries s ON s.summary_id = sp.summary_id
    WHERE s.conversation_id = ? *)
Definition edge_rows (st : store) (conversationID : Z) : list (string * string) :=
  sp ← summary_parents st;
  s ← summaries st;
  if decide (s_summary_id s = sp_summary_id sp ∧ s_conversation_id s = conversationID)
  then [(sp_parent_summary_id sp, sp_summary_id sp)] else [].

(** One iteration of the row loop of [populateSummaryChildren]; the
    append goes through the pointer stored in [nodes]. *)
Definition addEdge (acc : gmap string summaryNode * gset string) (row : string * string)
  : gmap string summaryNode * gset string :=
  let '(nodes, childSet) := acc in
  let '(parentID, childID) := row in
  match nodes !! parentID, nodes !! childID with
  | Some parentNode, Some _ =>
      (<[ parentID := with_children parentNode (n_children parentNode ++ [childID]) ]> nodes,
       {[ childID ]} ∪ childSet)
  | _, _ => (nodes, childSet)
  end.

Definition populateSummaryChildren (st : store) (conversationID : Z)
  (nodes : gmap string summaryNode) : gmap string summaryNode * gset string :=
  foldl addEdge (nodes, ∅) (edge_rows st conversationID).

(** [for id := range nodes] visits the keys in an order Go leaves
    unspecified; the model visits them in the order of [map_to_list]. *)
Definition findSummaryRoots (nodes : gmap string summaryNode) (childSet : gset string)
  : list string :=
  let ids := (map_to_list nodes).*1 in
  let roots := filter (λ id, id ∉ childSet) ids in
  if decide (length roots = 0%nat) then ids else roots.

(** The [less] function given to [sort.Slice]. *)
Definition summaryLess (nodes : gmap string summaryNode) (a b : string) : Prop :=
  match nodes !! a, nodes !! b with
  | Some leftNode, Some rightNode =>
      if decide (n_createdAt leftNode = n_createdAt rightNode)
      then str_lt (n_id leftNode) (n_id rightNode)
      else str_lt (n_createdAt leftNode) (n_createdAt rightNode)
  | _, _ => str_lt a b
  end.

#[global] Instance summaryLess_dec nodes a b : Decision (summaryLess nodes a b).
Proof.
  unfold summaryLess.
  destruct (nodes !! a), (nodes !! b); try apply _.
  destruct (decide _); apply _.
Defined.

(** [sort.Slice(ids, less)]: [a] stays before [b] unless [less b a]. *)
Definition sortSummaryIDs (ids : list string) (nodes : gmap string summaryNode) : list string :=
  merge_sort (λ a b, ¬ summaryLess nodes b a) ids.

Definition loadSummaryGraph (st : store) (sessionID : string) : graphError + summaryGraph :=
  match lookupConversationID st sessionID with
  | inl e => inl e
  | inr conversationID =>
      let nodes := loadSummaryNodes st conversationID in
      if decide (size nodes = 0%nat)
      then inr {| g_conversationID := conversationID; g_roots := []; g_nodes := ∅ |}
      else
        let '(nodes, childSet) := populateSummaryChildren st conversationID nodes in
        let roots := sortSummaryIDs (findSummaryRoots nodes childSet) nodes in
        let nodes := (λ node, with_children node (sortSummaryIDs (n_children node) nodes))
                       <$> nodes in
        inr {| g_conversationID := conversationID; g_roots := roots; g_nodes := nodes |}
  end.
End GraphReader.

(** ** main.go: the display traversal *)

(** [rows] is the slice captured by the closure and [path] the map passed
    to every call; both are shared, so [walk] takes and returns them.  The
    recursion is on [fuel]; [None] means the fuel ran out. *)
Fixpoint walk (fuel : nat) (graph : summaryGraph) (summaryID : string) (depth : Z)
  (st : list summaryRow * gset string) : option (list summaryRow * gset string) :=
  match fuel with
  | O => None
  | S fuel' =>
      let '(rows, path) := st in
      if decide (summaryID ∈ path) then Some st
      else
        match g_nodes graph !! summaryID with
        | None => Some st
        | Some node =>
            let rows := rows ++ [ {| r_summaryID := summaryID; r_depth := depth |} ] in
            if negb (n_expanded node) then Some (rows, path)
            else
              let path := {[ summaryID ]} ∪ path in
              match
                foldl (λ acc childID, acc ≫= walk fuel' graph childID (wrap64 (depth + 1)))
                      (Some (rows, path)) (n_children node)
              with
              | None => None
              | Some (rows, path) => Some (rows, path ∖ {[ summaryID ]})
              end
        end
  end.

Definition buildSummaryRowsFrom (fuel : nat) (graph : summaryGraph) : option (list summaryRow) :=
  foldl (λ acc rootID,
           rows ← acc;
           st ← walk fuel graph rootID 0 (rows, ∅);
           Some st.1)
        (Some []) (g_roots graph).

(** Every call of [walk] that descends adds a node of the graph to the
    path, so a call chain is at most one longer than the number of
    nodes. *)
Definition buildSummaryRows (graph : summaryGraph) : option (list summaryRow) :=
  buildSummaryRowsFrom (S (size (g_nodes graph))) graph.

(** ** Transplant

    Modelled from the spec: the transplant engine itself is not part of
    the sources (the repository holds only its design note,
    specs/transplant.md).  The definitions below follow the eight steps of
    the spec's transplant algorithm, in the spec's order and words. *)

Inductive transplantError :=
| ErrConflict (summaryID : string)
| ErrIdentifier
| ErrUnresolved (summaryID : string)
| ErrStore (e : dbError).

#[global] Instance transplantError_eq_dec : EqDecision transplantError.
Proof. solve_decision. Defined.

Definition result (A : Type) : Type := transplantError + A.

#[global] Instance result_ret : MRet result := λ A a, inr a.

#[global] Instance result_bind : MBind result := λ A B k m,
  match m with
  | inl e => inl e
  | inr a => k a
  end.

Definition of_db {A} (r : dbError + A) : result A :=
  match r with
  | inl e => inl (ErrStore e)
  | inr a => inr a
  end.

Definition of_option {A} (e : transplantError) (o : option A) : result A :=
  match o with
  | None => inl e
  | Some a => inr a
  end.

Record transplantReport := mkTransplantReport {
  tr_transplanted : nat;
  tr_copied_depths : list Z;
  tr_token_overhead : Z
}.

Definition item_le (a b : context_item) : Prop := ci_ordinal a <= ci_ordinal b.

#[global] Instance item_le_dec a b : Decision (item_le a b).
Proof. unfold item_le. apply _. Defined.

(** Step 1: the source's context items of type summary, in ordinal
    order. *)
Definition topSet (st : store) (source : Z) : list context_item :=
  merge_sort item_le
    (filter (λ r, ci_conversation_id r = source ∧ ci_item_type r = "summary"%string)
            (context_items st)).

Definition topIDs (st : store) (source : Z) : list string :=
  omap ci_summary_id (topSet st source).

Definition parentsOf (st : store) (sid : string) : list string :=
  sp_parent_summary_id <$> filter (λ e, sp_summary_id e = sid) (summary_parents st).

(** Step 2: follow the parent edges backward until no new summary is
    discovered.  Every productive round discovers the parent end of an
    edge not seen before, so the number of edges plus one bounds the
    rounds. *)
Fixpoint closureFrom (fuel : nat) (st : store) (seen frontier : list string) : list string :=
  match fuel with
  | O => seen
  | S fuel' =>
      let found := remove_dups (filter (λ p, p ∉ seen) (frontier ≫= parentsOf st)) in
      match found with
      | [] => seen
      | _ => closureFrom fuel' st (seen ++ found) found
      end
  end.

Definition ancestorClosure (st : store) (top : list string) : list string :=
  closureFrom (S (length (summary_parents st))) st (remove_dups top) (remove_dups top).

Definition summaryOf (st : store) (sid : string) : option summary :=
  head (filter (λ s, s_summary_id s = sid) (summaries st)).

Definition copy_le (a b : summary) : Prop :=
  s_depth a < s_depth b
  ∨ (s_depth a = s_depth b ∧ ¬ str_lt (s_created_at b) (s_created_at a)).

#[global] Instance copy_le_dec a b : Decision (copy_le a b).
Proof. unfold copy_le. apply _. Defined.

(** Step 3: ascending depth, ties by creation time. *)
Definition copyOrder (st : store) (closure : list string) : list summary :=
  merge_sort copy_le (omap (summaryOf st) closure).

(** Step 5, the guard: a summary of the top set whose content an existing
    summary of the target already has. *)
Definition alreadyInTarget (st : store) (target : Z) (sid : string) : Prop :=
  match summaryOf st sid with
  | Some t => Exists (λ s, s_conversation_id s = target ∧ s_content s = s_content t)
                     (summaries st)
  | None => False
  end.

#[global] Instance alreadyInTarget_dec st target sid : Decision (alreadyInTarget st target sid).
Proof. unfold alreadyInTarget. destruct (summaryOf st sid); apply _. Defined.

Definition priorTransplant (st : store) (target : Z) (top : list string) : option string :=
  head (filter (alreadyInTarget st target) top).

Section Transplant.
(** The identifier generator: [newID n] is the [n]-th identifier it
    hands out. *)
Variable newID : nat → string.
(** The timestamp provider. *)
Variable now : string.

(** Mint an identifier, regenerating on any collision with an existing
    one.  For a generator that never repeats itself a fresh identifier
    is among the first [length existing + 1] candidates. *)
Fixpoint mintFrom (fuel n : nat) (existing : list string) : option (string * nat) :=
  match fuel with
  | O => None
  | S fuel' =>
      if decide (newID n ∈ existing) then mintFrom fuel' (S n) existing
      else Some (newID n, S n)
  end.

Definition mint (n : nat) (existing : list string) : result (string * nat) :=
  of_option ErrIdentifier (mintFrom (S (length existing)) n existing).

(** The parent edges of [old], both ends rewritten through the
    identifier map; an end the map cannot resolve is an integrity
    failure. *)
Definition remapEdges (st : store) (idmap : gmap string string) (old new : string)
  : result (list summary_parent) :=
  foldl (λ acc e,
           edges ← acc;
           parent ← of_option (ErrUnresolved (sp_parent_summary_id e))
                              (idmap !! sp_parent_summary_id e);
           mret (edges ++ [ {| sp_summary_id := new; sp_parent_summary_id := parent;
                               sp_ordinal := sp_ordinal e |} ]))
        (inr [])
        (filter (λ e, sp_summary_id e = old) (summary_parents st)).

(** Step 4 for one summary. *)
Definition copySummary (target : Z) (acc : store * gmap string string * nat) (s : summary)
  : result (store * gmap string string * nat) :=
  let '(st, idmap, n) := acc in
  '(new, n) ← mint n (s_summary_id <$> summaries st);
  let row := {| s_summary_id := new; s_conversation_id := target;
                s_kind := s_kind s; s_content := s_content s;
                s_token_count := s_token_count s; s_created_at := s_created_at s;
                s_file_ids := s_file_ids s; s_depth := s_depth s |} in
  let messages := (λ e, {| sm_summary_id := new; sm_message_id := sm_message_id e;
                           sm_ordinal := sm_ordinal e |})
                    <$> filter (λ e, sm_summary_id e = s_summary_id s) (summary_messages st) in
  edges ← remapEdges st idmap (s_summary_id s) new;
  mret ({| conversations := conversations st;
           summaries := summaries st ++ [row];
           summary_parents := summary_parents st ++ edges;
           summary_messages := summary_messages st ++ messages;
           context_items := context_items st |},
        <[ s_summary_id s := new ]> idmap, n).

(** Step 6: the two-phase shift of the target's items by [|T|]. *)
Definition shiftTarget (target shift : Z) (t : list context_item) : result (list context_item) :=
  if decide (shift > 0) then
    t ← of_db (sql_update (in_conversation target)
                          (λ r, with_ordinal r (ci_ordinal r + tempOffset)) t);
    of_db (shiftToFinal target shift t)
  else mret t.

(** Step 7: the new items at ordinals 0..|T|-1, in T's order. *)
Fixpoint insertTop (target : Z) (idmap : gmap string string) (i : Z) (top : list string)
  (t : list context_item) : result (list context_item) :=
  match top with
  | [] => mret t
  | sid :: top' =>
      new ← of_option (ErrUnresolved sid) (idmap !! sid);
      t ← of_db (sql_insert (parentItem target i new now) t);
      insertTop target idmap (i + 1) top' t
  end.

(** The transaction: steps 1 to 8.  An error leaves the store as it
    was. *)
Definition transplant (source target : Z) (st : store) : result (store * transplantReport) :=
  let top := topIDs st source in
  let order := copyOrder st (ancestorClosure st top) in
  match priorTransplant st target top with
  | Some sid => inl (ErrConflict sid)
  | None =>
      '(st1, idmap, _) ← foldl (λ acc s, acc ← acc; copySummary target acc s)
                                (inr (st, ∅, O)) order;
      t ← shiftTarget target (Z.of_nat (length top)) (context_items st1);
      t ← insertTop target idmap 0 top t;
      mret (set_context_items st1 t,
            {| tr_transplanted := length top;
               tr_copied_depths := s_depth <$> order;
               tr_token_overhead :=
                 foldr Z.add 0 (s_token_count <$> omap (summaryOf st) top) |})
  end.

(** The command: a dry run reports and writes nothing; with [--apply]
    the transaction either commits or changes nothing. *)
Definition runTransplant (applyFlag : bool) (source target : Z) (st : store)
  : result transplantReport * store :=
  match transplant source target st with
  | inl e => (inl e, st)
  | inr (st', report) => (inr report, if applyFlag then st' else st)
  end.
End Transplant.

(** ** Notions the statements below are phrased with *)

(** The summary belongs to the conversation. *)
Definition summaryIn (st : store) (conversationID : Z) (sid : string) : Prop :=
  ∃ s, s ∈ summaries st ∧ s_summary_id s = sid ∧ s_conversation_id s = conversationID.

(** The summary is the child end of a parent edge whose two ends both
    belong to the conversation. *)
Definition childIn (st : store) (conversationID : Z) (sid : string) : Prop :=
  ∃ e, e ∈ summary_parents st ∧ sp_summary_id e = sid
       ∧ summaryIn st conversationID (sp_summary_id e)
       ∧ summaryIn st conversationID (sp_parent_summary_id e).

#[global] Instance summaryIn_dec st cid sid : Decision (summaryIn st cid sid).
Proof.
  refine (cast_if (decide (Exists (λ s, s_summary_id s = sid ∧ s_conversation_id s = cid)
                                  (summaries st))));
    unfold summaryIn; rewrite Exists_exists in *; done.
Defined.

(** The rows a conversation owns: its summaries, the edges of its
    summaries, its context items. *)
Definition summariesOf (cid : Z) (st : store) : list summary :=
  filter (λ s, s_conversation_id s = cid) (summaries st).

Definition parentEdgesOf (cid : Z) (st : store) : list summary_parent :=
  filter (λ e, summaryIn st cid (sp_summary_id e)) (summary_parents st).

Definition messageEdgesOf (cid : Z) (st : store) : list summary_message :=
  filter (λ e, summaryIn st cid (sm_summary_id e)) (summary_messages st).

Definition contextOf (cid : Z) (st : store) : list context_item :=
  filter (in_conversation cid) (context_items st).

Definition unchanged (cid : Z) (st st' : store) : Prop :=
  summariesOf cid st' = summariesOf cid st
  ∧ parentEdgesOf cid st' = parentEdgesOf cid st
  ∧ messageEdgesOf cid st' = messageEdgesOf cid st
  ∧ contextOf cid st' = contextOf cid st.

(** [st'] is [st] with rows appended for the target: new summaries under
    identifiers [st] does not hold, and edges of those summaries. *)
Definition extends (target : Z) (st st' : store) : Prop :=
  conversations st' = conversations st
  ∧ context_items st' = context_items st
  ∧ ∃ rows edges messages,
      summaries st' = summaries st ++ rows
      ∧ summary_parents st' = summary_parents st ++ edges
      ∧ summary_messages st' = summary_messages st ++ messages
      ∧ Forall (λ s, s_conversation_id s = target
                     ∧ s_summary_id s ∉ s_summary_id <$> summaries st) rows
      ∧ Forall (λ e, sp_summary_id e ∈ s_summary_id <$> rows) edges
      ∧ Forall (λ e, sm_summary_id e ∈ s_summary_id <$> rows) messages.

(** The ordinals a conversation's context items hold, in table order. *)
Definition ordinalsOf (conversationID : Z) (t : list context_item) : list Z :=
  ci_ordinal <$> filter (in_conversation conversationID) t.

(** The keys of a conversation's context items. *)
Definition keysOf (conversationID : Z) (t : list context_item) : list (Z * Z) :=
  keys (filter (in_conversation conversationID) t).

(** The ordinals of the conversation are exactly 0, 1, ..., n-1, each held
    once. *)
Definition contiguous (conversationID : Z) (t : list context_item) (n : Z) : Prop :=
  ordinalsOf conversationID t ≡ₚ seqZ 0 n.

(** The items that put the parents back: the [i]-th parent at
    [ordinal + i]. *)
Definition parentItems (conversationID ordinal : Z) (now : nat → string) (first : nat)
  (parents : list dissolveParent) : list context_item :=
  imap (λ i p, parentItem conversationID (ordinal + Z.of_nat (first + i))
                          (dp_summaryID p) (now (first + i)%nat)) parents.

(** The parents the command loads for a summary. *)
Definition parentsOfTarget (st : store) (sid : string) : list dissolveParent :=
  merge_sort parent_le (parent_rows st sid).

(** The target occupies a context item of the conversation. *)
Definition inActiveContext (st : store) (conversationID : Z) (sid : string) : Prop :=
  ∃ s ci, s ∈ summaries st ∧ ci ∈ context_items st
          ∧ s_summary_id s = sid ∧ s_conversation_id s = conversationID
          ∧ ci_summary_id ci = Some sid ∧ ci_conversation_id ci = conversationID.

(** The target the command settles on, from the first row of the join. *)
Definition targetOf (s : summary) (ci : context_item) : dissolveTarget :=
  {| dt_summaryID := s_summary_id s; dt_conversationID := s_conversation_id s;
     dt_kind := s_kind s; dt_depth := s_depth s; dt_tokenCount := s_token_count s;
     dt_ordinal := ci_ordinal ci |}.

(** The plan report: target, parents, token impact and ordinal shift. *)
Definition planLines (st : store) (conversationID : Z) (target : dissolveTarget)
  (parents : list dissolveParent) : list outLine :=
  [OutHeader target; OutRestore (length parents)]
  ++ (OutParent <$> parents)
  ++ [OutTokenImpact (dt_tokenCount target) (totalTokens parents)
        (wrap64 (totalTokens parents - dt_tokenCount target));
      OutOrdinalShift
        (sql_count (after_ordinal conversationID (dt_ordinal target)) (context_items st))
        (dt_ordinal target) (Z.of_nat (length parents) - 1)].

(** The world once the plan is printed: three queries made, nothing
    else. *)
Definition planned (st : store) (conversationID : Z) (target : dissolveTarget)
  (parents : list dissolveParent) (last : outLine) : world :=
  {| w_db := st; w_tx := None;
     w_stdout := planLines st conversationID target parents ++ [last];
     w_calls := [CallQuery; CallQuery; CallQuery] |}.

(** Relations between the world before and after a command. *)
Definition db_kept (w w' : world) : Prop := w_db w' = w_db w.

Definition stdout_grows (w w' : world) : Prop := w_stdout w `prefix_of` w_stdout w'.

Definition always {A} (R : world → world → Prop) (m : cmd A) : Prop :=
  ∀ w r w', m w = (r, w') → R w w'.

Definition on_error {A} (R : world → world → Prop) (m : cmd A) : Prop :=
  ∀ w e w', m w = (inl e, w') → R w w'.

(** Nothing was written: the store is the one the command started from,
    no transaction is open, and every database call was a query. *)
Definition untouched (st : store) (w : world) : Prop :=
  w_db w = st ∧ w_tx w = None ∧ Forall (λ c, c = CallQuery) (w_calls w).

(** ** Example stores *)

Definition messageItem (conversationID i : Z) : context_item :=
  {| ci_conversation_id := conversationID; ci_ordinal := i; ci_item_type := "message";
     ci_message_id := Some i; ci_summary_id := None; ci_created_at := "2025-01-01" |}.

Definition summaryItem (conversationID i : Z) (sid : string) : context_item :=
  {| ci_conversation_id := conversationID; ci_ordinal := i; ci_item_type := "summary";
     ci_message_id := None; ci_summary_id := Some sid; ci_created_at := "2025-01-01" |}.

Definition exampleSummary (sid : string) (conversationID : Z) (kind : string) (depth : Z)
  (created : string) : summary :=
  {| s_summary_id := sid; s_conversation_id := conversationID; s_kind := kind;
     s_content := sid; s_token_count := 100; s_created_at := created;
     s_file_ids := ""; s_depth := depth |}.

(** Conversation 1 holds two messages, the condensed summary sum_x (three
    parents, stored out of order), a condensed summary without parents and
    a leaf; conversation 2 holds one message. *)
Definition exampleStore : store :=
  {| conversations := [ {| c_conversation_id := 1; c_session_id := "s1";
                           c_updated_at := "2025-01-02" |};
                        {| c_conversation_id := 2; c_session_id := "s2";
                           c_updated_at := "2025-01-03" |} ];
     summaries := [ exampleSummary "sum_a" 1 "leaf" 0 "2025-01-01T01";
                    exampleSummary "sum_b" 1 "leaf" 0 "2025-01-01T02";
                    exampleSummary "sum_c" 1 "leaf" 0 "2025-01-01T03";
                    exampleSummary "sum_x" 1 "condensed" 1 "2025-01-01T04";
                    exampleSummary "sum_e" 1 "condensed" 1 "2025-01-01T05";
                    exampleSummary "sum_l" 1 "leaf" 0 "2025-01-01T06" ];
     summary_parents := [ {| sp_summary_id := "sum_x"; sp_parent_summary_id := "sum_b";
                             sp_ordinal := 1 |};
                          {| sp_summary_id := "sum_x"; sp_parent_summary_id := "sum_a";
                             sp_ordinal := 0 |};
                          {| sp_summary_id := "sum_x"; sp_parent_summary_id := "sum_c";
                             sp_ordinal := 2 |} ];
     summary_messages := [ {| sm_summary_id := "sum_a"; sm_message_id := 11;
                              sm_ordinal := 0 |} ];
     context_items := [ messageItem 1 0; messageItem 1 1; messageItem 2 0;
                        summaryItem 1 2 "sum_x"; summaryItem 1 3 "sum_e";
                        summaryItem 1 4 "sum_l" ] |}.

Definition exampleNow (i : nat) : string := "2025-02-01".

Definition dissolveX (applyFlag purgeFlag : bool) : dissolveOptions :=
  {| summaryID := "sum_x"; apply := applyFlag; purge := purgeFlag |}.

(** sum_x occupies two ordinals of conversation 1. *)
Definition twiceStore : store :=
  set_context_items exampleStore
    [ messageItem 1 0; summaryItem 1 1 "sum_x"; summaryItem 1 2 "sum_x"; messageItem 1 3 ].

(** sum_x has two parent edges; the summary row of the second parent is
    gone. *)
Definition danglingStore : store :=
  set_summary_parents exampleStore
    [ {| sp_summary_id := "sum_x"; sp_parent_summary_id := "sum_a"; sp_ordinal := 0 |};
      {| sp_summary_id := "sum_x"; sp_parent_summary_id := "sum_gone"; sp_ordinal := 1 |} ].

(** The target loaded from [exampleStore], and the store another writer
    has left by the time the transaction begins: sum_x has moved to
    ordinal 3. *)
Definition exampleTarget : dissolveTarget :=
  {| dt_summaryID := "sum_x"; dt_conversationID := 1; dt_kind := "condensed";
     dt_depth := 1; dt_tokenCount := 100; dt_ordinal := 2 |}.

Definition driftedStore : store :=
  set_context_items exampleStore
    [ messageItem 1 0; messageItem 1 1; messageItem 1 2; summaryItem 1 3 "sum_x" ].

(** A conversation of 10,000,002 items, ordinals 0 to 10,000,001, and what
    is left of it once the item at ordinal 0 is deleted. *)
Definition crowdedConversation : list context_item :=
  messageItem 1 <$> seqZ 0 (tempOffset + 2).

Definition crowded : list context_item := messageItem 1 <$> seqZ 1 (tempOffset + 1).

(** Two summaries, each the child of the other: no summary is free of an
    incoming edge. *)
Definition cyclicStore : store :=
  {| conversations := [ {| c_conversation_id := 7; c_session_id := "s7";
                           c_updated_at := "2025-02-01" |} ];
     summaries := [ exampleSummary "sum_p" 7 "condensed" 1 "2025-02-01T01";
                    exampleSummary "sum_q" 7 "condensed" 1 "2025-02-01T02" ];
     summary_parents := [ {| sp_summary_id := "sum_p"; sp_parent_summary_id := "sum_q";
                             sp_ordinal := 0 |};
                          {| sp_summary_id := "sum_q"; sp_parent_summary_id := "sum_p";
                             sp_ordinal := 0 |} ];
     summary_messages := [];
     context_items := [] |}.

(** An identifier generator for the examples: sum_t, sum_t', sum_t'', ... *)
Fixpoint exampleID (n : nat) : string :=
  match n with
  | O => "sum_t"
  | S n' => exampleID n' +:+ "'"
  end.

(** * The rest of the program *)

(** ** main.go: cursors, list windows and text helpers

    Go's [int] is 64 bits wide; [len] of a string counts its bytes, as
    [String.length] does. *)

Definition clamp (value low high : Z) : Z :=
  if decide (high < low) then low
  else if decide (value < low) then low
  else if decide (value > high) then high
  else value.

(** [min] and [max] of main.go. *)
Definition intMin (a b : Z) : Z := if decide (a < b) then a else b.


(** The index of the first row drawn, for a list of [total] rows drawn
    [visible] at a time. *)
Definition listOffset (cursor total visible : Z) : Z :=
  if decide (total <= visible) then 0
  else
    let offset := wrap64 (cursor - visible ÷ 2) in
    let maxOffset := wrap64 (total - visible) in
    clamp offset 0 maxOffset.

(** The indices [renderAgents], [renderSessions] and [renderSummaries]
    draw: [for idx := offset; idx < min(total, offset+visible); idx++]. *)
Definition drawnRows (cursor total visible : Z) : list Z :=
  let offset := listOffset cursor total visible in
  seqZ offset (intMin total (wrap64 (offset + visible)) - offset).

(** [text[:n]] *)
Definition sliceTo (text : string) (n : Z) : string := substring 0 (Z.to_nat n) text.

Definition truncateString (text : string) (width : Z) : string :=
  if decide (width <= 0) then ""%string
  else if decide (Z.of_nat (String.length text) <= width) then text
  else if decide (width <= 1) then sliceTo text width
  else if decide (width <= 3) then sliceTo text width
  else (sliceTo text (width - 3) +:+ "...")%string.

Definition newline : ascii := "010"%char.

(** [strings.Split(text, "\n")]: the pieces between the newlines, one
    more than there are newlines. *)
Fixpoint splitLines (text : string) : list string :=
  match text with
  | EmptyString => [""%string]
  | String c rest =>
      if decide (c = newline) then ""%string :: splitLines rest
      else
        match splitLines rest with
        | line :: lines => String c line :: lines
        | [] => [String c ""]
        end
  end.

(** [strings.Join(lines, "\n")] *)
Fixpoint joinLines (lines : list string) : string :=
  match lines with
  | [] => ""%string
  | [line] => line
  | line :: rest => (line +:+ String newline (joinLines rest))%string
  end.

(** The string holds no newline. *)
Definition oneLineOnly (line : string) : Prop := newline ∉ list_ascii_of_string line.

Definition indentLines (text prefix : string) : string :=
  joinLines ((λ line, prefix +:+ line)%string <$> splitLines text).

(** ** dissolve.go: the command line *)

Inductive argsError :=
| ErrMissingSummaryIDValue.

(** [strings.HasPrefix(s, prefix)] *)
Definition hasPrefix (s prefix : string) : bool := String.prefix prefix s.

(** The loop of [normalizeDissolveArgs], from the argument at hand on;
    [flags] and [positionals] are the two slices it appends to. *)
Fixpoint normalizeFrom (args flags positionals : list string) : argsError + list string :=
  match args with
  | [] => inr (flags ++ positionals)
  | arg :: rest =>
      if decide (arg = "--apply"%string ∨ arg = "--purge"%string)
      then normalizeFrom rest (flags ++ [arg]) positionals
      else if hasPrefix arg "--summary-id="
      then normalizeFrom rest (flags ++ [arg]) positionals
      else if decide (arg = "--summary-id"%string) then
        match rest with
        | [] => inl ErrMissingSummaryIDValue
        | value :: rest' => normalizeFrom rest' (flags ++ [arg; value]) positionals
        end
      else if hasPrefix arg "--"
      then normalizeFrom rest (flags ++ [arg]) positionals
      else normalizeFrom rest flags (positionals ++ [arg])
  end.

Definition normalizeDissolveArgs (args : list string) : argsError + list string :=
  normalizeFrom args [] [].

(** The arguments the loop files under [flags] and under [positionals],
    each in the order given; [None] when a trailing [--summary-id] has no
    value. *)
Fixpoint splitArgs (args : list string) : option (list string * list string) :=
  match args with
  | [] => Some ([], [])
  | arg :: rest =>
      if decide (arg = "--apply"%string ∨ arg = "--purge"%string)
      then '(flags, positionals) ← splitArgs rest; Some (arg :: flags, positionals)
      else if hasPrefix arg "--summary-id="
      then '(flags, positionals) ← splitArgs rest; Some (arg :: flags, positionals)
      else if decide (arg = "--summary-id"%string) then
        match rest with
        | [] => None
        | value :: rest' =>
            '(flags, positionals) ← splitArgs rest'; Some (arg :: value :: flags, positionals)
        end
      else if hasPrefix arg "--"
      then '(flags, positionals) ← splitArgs rest; Some (arg :: flags, positionals)
      else '(flags, positionals) ← splitArgs rest; Some (flags, arg :: positionals)
  end.

(** How the loop classifies the argument at hand: a flag that stands
    alone, [--summary-id] that takes the next argument with it, or a
    positional argument. *)
Inductive argKind := KindFlag | KindSummaryID | KindPositional.

Definition kindOf (arg : string) : argKind :=
  if decide (arg = "--apply"%string ∨ arg = "--purge"%string) then KindFlag
  else if hasPrefix arg "--summary-id=" then KindFlag
  else if decide (arg = "--summary-id"%string) then KindSummaryID
  else if hasPrefix arg "--" then KindFlag
  else KindPositional.

(** The two groups of arguments, told apart without the loop.

    [summaryIDRun before] is the number of [--summary-id] arguments in a
    row at the end of [before]. *)
Definition summaryIDRun (before : list string) : nat :=
  foldl (λ n a, if decide (a = "--summary-id"%string) then S n else 0%nat) 0%nat before.

(** An argument that comes after [before] is positional when it does not
    start with two dashes and is not the value of a [--summary-id]: the
    [--summary-id] arguments right before it are even in number, each
    second one being the value of the one before it. *)
Definition positionalAfter (before : list string) (arg : string) : bool :=
  negb (hasPrefix arg "--") && Nat.even (summaryIDRun before).

(** The arguments [keep] holds of, in the order given; [keep] is told
    what comes before the argument. *)
Fixpoint pick (keep : list string → string → bool) (before args : list string)
  : list string :=
  match args with
  | [] => []
  | arg :: rest =>
      (if keep before arg then [arg] else []) ++ pick keep (before ++ [arg]) rest
  end.

Definition positionalArgs (args : list string) : list string :=
  pick positionalAfter [] args.

Definition flagArgs (args : list string) : list string :=
  pick (λ before arg, negb (positionalAfter before arg)) [] args.

(** ** Notions for the graph the reader returns *)

(** [a] sorts before [b] among the nodes: created earlier, or at the same
    time under the smaller id. *)
Definition nodeBefore (nodes : gmap string summaryNode) (a b : string) : Prop :=
  ∃ na nb, nodes !! a = Some na ∧ nodes !! b = Some nb
    ∧ (str_lt (n_createdAt na) (n_createdAt nb)
       ∨ (n_createdAt na = n_createdAt nb ∧ str_lt a b)).

(** The child ends of the edge rows [populateSummaryChildren] reads
    under the parent [id], in row order. *)
Definition childEdges (st : store) (conversationID : Z) (id : string) : list string :=
  (filter (λ row, row.1 = id) (edge_rows st conversationID)).*2.

(** The row of a node that was never expanded. *)
Definition topRow (id : string) : summaryRow := {| r_summaryID := id; r_depth := 0 |}.

(** One step of the scan that [lookupConversationID] makes for ORDER BY
    updated_at DESC LIMIT 1: the row kept so far gives way to a row of the
    session updated after it. *)
Definition later (sessionID : string) (acc : option conversation) (c : conversation)
  : option conversation :=
  if decide (c_session_id c = sessionID) then
    match acc with
    | None => Some c
    | Some b => if decide (str_lt (c_updated_at b) (c_updated_at c)) then Some c else Some b
    end
  else acc.

(** ** Notions for the flattened tree *)

(** The row belongs to a node of the graph. *)
Definition rowOfNode (g : summaryGraph) (row : summaryRow) : Prop :=
  is_Some (g_nodes g !! r_summaryID row).

(** [row] is drawn as a child of [parent]: one level deeper, under a
    node that is expanded and lists it among its children. *)
Definition rowUnder (g : summaryGraph) (parent row : summaryRow) : Prop :=
  r_depth row = r_depth parent + 1
  ∧ ∃ node, g_nodes g !! r_summaryID parent = Some node
            ∧ n_expanded node = true
            ∧ r_summaryID row ∈ n_children node.

(** Every row deeper than [floor] has its parent above it: the nearest
    row before it that is less deep. *)
Definition linked (g : summaryGraph) (floor : Z) (rows : list summaryRow) : Prop :=
  ∀ before row after,
    rows = before ++ row :: after → floor < r_depth row →
    ∃ above parent between,
      before = above ++ parent :: between
      ∧ rowUnder g parent row
      ∧ Forall (λ r, r_depth row <= r_depth r) between.

(** What a call of [walk] appends: nothing, for a node on the path or an
    id that is no node, or else the row of the node followed by deeper
    rows. *)
Definition walked (g : summaryGraph) (path : gset string) (id : string) (depth : Z)
  (new : list summaryRow) : Prop :=
  (new = [] ∧ (id ∈ path ∨ g_nodes g !! id = None))
  ∨ ∃ below, new = {| r_summaryID := id; r_depth := depth |} :: below
             ∧ Forall (λ r, depth < r_depth r) below.

(** The graph of [cyclicStore], each of the two summaries the child of
    the other, with both nodes expanded. *)
Definition expandedCycle : summaryGraph :=
  let node id created child :=
    {| n_id := id; n_kind := "condensed"%string; n_content := id; n_createdAt := created;
       n_tokenCount := 100; n_children := [child]; n_expanded := true |} in
  {| g_conversationID := 7;
     g_roots := ["sum_p"; "sum_q"]%string;
     g_nodes := list_to_map
       [ ("sum_p", node "sum_p" "2025-02-01T01" "sum_q");
         ("sum_q", node "sum_q" "2025-02-01T02" "sum_p") ]%string |}.

(** ** Notions for the trace of a dissolve *)

(** What a step adds to standard output and to the calls made on the
    database. *)
Definition traced (out : list outLine) (calls : list dbCall) (w w' : world) : Prop :=
  w_stdout w' = w_stdout w ++ out ∧ w_calls w' = w_calls w ++ calls.

(** Inside an open transaction the step made statements only, and the
    transaction is still open. *)
Definition statements_only (w w' : world) : Prop :=
  is_Some (w_tx w) →
  is_Some (w_tx w') ∧ ∃ n : nat, w_calls w' = w_calls w ++ replicate n CallExec.

(** The number of statements an applied dissolve of [k] parents makes
    between BEGIN and COMMIT: the delete, the two updates when there is
    something to shift, one insert per parent, the two deletes of a
    purge. *)
Definition statementCount (opts : dissolveOptions) (k : nat) : nat :=
  (1 + (if decide (Z.of_nat k - 1 > 0)%Z then 2 else 0) + k
   + (if purge opts then 2 else 0))%nat.


(** ** dissolve.go on a connection whose calls can fail

    A call on the database can also fail for a reason the tables do not
    determine: a locked or unreadable file, a full disk, a lost
    connection.  The command then returns through the [fmt.Errorf] that
    follows the call.  [query], [beginTx], [exec] and [commit] above are
    the calls on a connection where this does not happen; here
    [runDissolveCommand] is written out again over calls that can fail
    in this way, [db.BeginTx] and [tx.Commit] included. *)

(** The calls of [runDissolveCommand] on the database that return a
    driver error through a [fmt.Errorf] of their own, by place in the
    source; [db.BeginTx] and [tx.Commit] have [ErrBeginTx] and
    [ErrCommit]. *)
Inductive callSite :=
| SiteLoadTarget
| SiteLoadParents
| SiteCountItems
| SiteDeleteContextItem
| SiteShiftTemp
| SiteShiftFinal
| SiteInsertParent (summaryID : string) (ordinal : Z)
| SiteDeleteSummaryParents (summaryID : string)
| SiteDeleteSummary (summaryID : string).

(** What the command returns when it fails: an error the tables
    determine, or the error of a call that failed on its own. *)
Inductive failure :=
| Failed (e : cmdError)
| Faulted (site : callSite).

Definition io (A : Type) : Type := world → (failure + A) * world.

#[global] Instance io_ret : MRet io := λ A a w, (inr a, w).

#[global] Instance io_bind : MBind io := λ A B k m w,
  match m w with
  | (inl e, w') => (inl e, w')
  | (inr a, w') => k a w'
  end.

Definition failWith {A} (e : failure) : io A := λ w, (inl e, w).

(** A command that makes no call on the database, or whose calls do not
    fail on their own. *)
Definition lift {A} (c : cmd A) : io A := λ w,
  match c w with
  | (inl e, w') => (inl (Failed e), w')
  | (inr a, w') => (inr a, w')
  end.

(** [for i, x := range l] *)
Fixpoint forRangeIO {A} (i : nat) (l : list A) (body : nat → A → io unit) : io unit :=
  match l with
  | [] => mret tt
  | x :: l' => body i x ;; forRangeIO (S i) l' body
  end.

(** The stage of the run an error comes from: the preconditions and the
    plan, [db.BeginTx], the statements of the transaction, or
    [tx.Commit]. *)
Inductive stage := StagePlan | StageBegin | StageStatements | StageCommit.

Definition stageOf (e : failure) : stage :=
  match e with
  | Failed (ErrNotInActiveContext _ _) | Failed (ErrNotCondensed _ _ _)
  | Failed (ErrNoParents _) => StagePlan
  | Faulted SiteLoadTarget | Faulted SiteLoadParents | Faulted SiteCountItems => StagePlan
  | Failed ErrBeginTx => StageBegin
  | Failed ErrCommit => StageCommit
  | _ => StageStatements
  end.

Section Faults.
(** [faulty n] tells whether the call made after [n] calls on the
    database fails on its own. *)
Variable faulty : nat → bool.

(** A call on the database: when it fails on its own it changes nothing
    and returns [e]. *)
Definition orFault {A} (call : dbCall) (e : failure) (c : cmd A) : io A := λ w,
  if faulty (length (w_calls w)) then (inl e, called call w) else lift c w.

Definition queryIO {A} (site : callSite) (q : store → A) : io A :=
  orFault CallQuery (Faulted site) (query q).

Definition beginTxIO : io unit := orFault CallBeginTx (Failed ErrBeginTx) beginTx.

Definition execIO (site : callSite) (stmt : store → dbError + store * Z)
  (wrap : dbError → cmdError) : io Z :=
  orFault CallExec (Faulted site) (exec stmt wrap).

Definition commitIO : io unit := orFault CallCommit (Failed ErrCommit) commit.

(** The deferred function: [_ = tx.Rollback()] when the body of the
    transaction has returned an error, that of [tx.Commit] included. *)
Definition deferRollbackIO {A} (body : io A) : io A := λ w,
  match body w with
  | (inl e, w') => (inl e, rollbackTx w')
  | (inr a, w') => (inr a, w')
  end.

Definition loadDissolveTargetIO (conversationID : Z) (sid : string) : io dissolveTarget :=
  rows ← queryIO SiteLoadTarget (λ st, target_rows st conversationID sid);
  match rows with
  | [] => failWith (Failed (ErrNotInActiveContext sid conversationID))
  | (s, ci) :: _ =>
      let target := targetOf s ci in
      if decide (dt_kind target ≠ "condensed"%string)
      then failWith (Failed (ErrNotCondensed sid (dt_kind target) (dt_depth target)))
      else mret target
  end.

Definition loadDissolveParentsIO (sid : string) : io (list dissolveParent) :=
  queryIO SiteLoadParents (λ st, merge_sort parent_le (parent_rows st sid)).

(** The transaction from the first [tx.ExecContext] to [tx.Commit]. *)
Definition applyDissolveIO (opts : dissolveOptions) (conversationID : Z)
  (target : dissolveTarget) (parents : list dissolveParent)
  (totalItems shift : Z) (now : nat → string) : io unit :=
  deleted ← execIO SiteDeleteContextItem
                   (deleteTargetItem conversationID (dt_ordinal target) (dt_summaryID target))
                   ErrDeleteContextItem;
  if decide (deleted ≠ 1) then failWith (Failed (ErrDeleteCount deleted)) else
  lift (printLine (OutDeleted (dt_ordinal target)));;
  (if decide (shift > 0) then
     execIO SiteShiftTemp
            (on_context_items
               (counted (after_ordinal conversationID (dt_ordinal target))
                        (shiftToTemp conversationID (dt_ordinal target))))
            ErrShiftTemp;;
     execIO SiteShiftFinal
            (on_context_items
               (counted (from_ordinal conversationID tempOffset)
                        (shiftToFinal conversationID shift)))
            ErrShiftFinal;;
     lift (printLine (OutShifted totalItems shift))
   else mret tt);;
  forRangeIO 0 parents (λ i p,
    let newOrdinal := wrap64 (dt_ordinal target + Z.of_nat i) in
    execIO (SiteInsertParent (dp_summaryID p) newOrdinal)
           (insertParentItem (parentItem conversationID newOrdinal (dp_summaryID p) (now i)))
           (ErrInsertParent (dp_summaryID p) newOrdinal);;
    mret tt);;
  lift (printLine (OutInserted (length parents) (dt_ordinal target)
                     (wrap64 (dt_ordinal target + (Z.of_nat (length parents) - 1)))));;
  (if purge opts then
     execIO (SiteDeleteSummaryParents (dt_summaryID target))
            (deleteSummaryParents (dt_summaryID target))
            (ErrDeleteSummaryParents (dt_summaryID target));;
     execIO (SiteDeleteSummary (dt_summaryID target))
            (deleteSummary (dt_summaryID target))
            (ErrDeleteSummary (dt_summaryID target));;
     lift (printLine (OutPurged (dt_summaryID target)))
   else mret tt);;
  commitIO.

Definition dissolveTxIO (opts : dissolveOptions) (conversationID : Z)
  (target : dissolveTarget) (parents : list dissolveParent)
  (totalItems shift : Z) (now : nat → string) : io unit :=
  beginTxIO;;
  deferRollbackIO (applyDissolveIO opts conversationID target parents totalItems shift now).

(** The count after the commit,
    [_ = db.QueryRowContext(...).Scan(&newCount)]: its error is dropped
    and [newCount] is then still 0. *)
Definition verifyCount (conversationID : Z) : io Z := λ w,
  if faulty (length (w_calls w)) then (inr 0, called CallQuery w)
  else lift (query (λ st, sql_count (in_conversation conversationID) (context_items st))) w.

Definition runDissolveCommandIO (opts : dissolveOptions) (conversationID : Z)
  (now : nat → string) : io unit :=
  target ← loadDissolveTargetIO conversationID (summaryID opts);
  parents ← loadDissolveParentsIO (summaryID opts);
  if decide (length parents = 0%nat) then failWith (Failed (ErrNoParents (summaryID opts))) else
  lift (printPlan target parents);;
  totalItems ← queryIO SiteCountItems
                  (λ st, sql_count (after_ordinal conversationID (dt_ordinal target))
                                   (context_items st));
  let shift := Z.of_nat (length parents) - 1 in
  lift (printLine (OutOrdinalShift totalItems (dt_ordinal target) shift));;
  if negb (apply opts) then lift (printLine OutDryRun)
  else
    lift (printLine OutApplying);;
    dissolveTxIO opts conversationID target parents totalItems shift now;;
    newCount ← verifyCount conversationID;
    lift (printLine (OutDone newCount)).

Definition dissolveIO (opts : dissolveOptions) (conversationID : Z) (now : nat → string)
  (st : store) : (failure + unit) * world :=
  runDissolveCommandIO opts conversationID now (initial_world st).
End Faults.

(** No call fails on its own. *)
Definition noFault (n : nat) : bool := false.

(** The call after [n] calls fails, and no other. *)
Definition faultAt (n : nat) (m : nat) : bool := bool_decide (m = n).

(** The calls of a run that is past the plan: three queries and BEGIN. *)
Definition begun : list dbCall := [CallQuery; CallQuery; CallQuery; CallBeginTx].

(** From inside an open transaction [c] makes [n] statements and leaves
    the transaction open; when it fails, the error is that of a
    statement and it has made no more than [n]. *)
Definition runs {A} (n : nat) (c : io A) : Prop :=
  ∀ w r w', is_Some (w_tx w) → c w = (r, w') →
    is_Some (w_tx w')
    ∧ match r with
      | inr _ => w_calls w' = w_calls w ++ replicate n CallExec
      | inl e => stageOf e = StageStatements
                 ∧ ∃ m, (m ≤ n)%nat ∧ w_calls w' = w_calls w ++ replicate m CallExec
      end.

(** From inside an open transaction [c] makes [n] statements and then
    calls COMMIT; it fails in one of the statements or in COMMIT. *)
Definition commits {A} (n : nat) (c : io A) : Prop :=
  ∀ w r w', is_Some (w_tx w) → c w = (r, w') →
    match r with
    | inr _ => w_calls w' = w_calls w ++ replicate n CallExec ++ [CallCommit]
    | inl e =>
        match stageOf e with
        | StageStatements =>
            ∃ m, (m ≤ n)%nat ∧ w_calls w' = w_calls w ++ replicate m CallExec
        | StageCommit => w_calls w' = w_calls w ++ replicate n CallExec ++ [CallCommit]
        | _ => False
        end
    end.

(** ** Counts for the session list *)

(** The rows of
    conversations c JOIN summaries s ON s.conversation_id = c.conversation_id
    WHERE c.session_id IN (...), each reduced to its [session_id]. *)
Definition summary_session_rows (st : store) (sessionIDs : list string) : list string :=
  c ← conversations st;
  s ← summaries st;
  if decide (s_conversation_id s = c_conversation_id c ∧ c_session_id c ∈ sessionIDs)
  then [c_session_id c] else [].

(** GROUP BY c.session_id with COUNT(s.summary_id), scanned into
    [counts[sessionID] = count]: one entry per session that has a row. *)
Definition countByKey (rows : list string) : gmap string Z :=
  foldl (λ (counts : gmap string Z) sessionID,
           <[ sessionID := default 0 (counts !! sessionID) + 1 ]> counts) ∅ rows.

(** [loadSummaryCounts]; a database that cannot be opened or queried
    gives the empty map, as an empty list of session ids does. *)
Definition loadSummaryCounts (st : store) (sessionIDs : list string) : gmap string Z :=
  if decide (length sessionIDs = 0%nat) then ∅
  else countByKey (summary_session_rows st sessionIDs).

(** [counts[id]] in Go: the zero value when the key is missing. *)
Definition countOf (counts : gmap string Z) (id : string) : Z := default 0 (counts !! id).

(** ** The session list, loaded in batches

    [time.Time] values are only copied; they are modelled as numbers. *)

Record sessionFileEntry := mkSessionFileEntry {
  sf_filename : string;
  sf_path : string;
  sf_updatedAt : Z
}.

Record sessionEntry := mkSessionEntry {
  se_id : string;
  se_filename : string;
  se_path : string;
  se_updatedAt : Z;
  se_messageCount : Z;
  se_summaryCount : Z;
  se_fileCount : Z
}.

(** [m.status], as far as the session loader sets it: the two numbers of
    "Loaded %d of %d sessions", or whatever text it held before. *)
Inductive sessionStatus :=
| StatusText (text : string)
| StatusLoaded (loaded total : Z).


Definition sessionBatchLoadSize : Z := 50.

(** [files[offset:end]]; Go panics unless 0 <= offset <= end <= len. *)
Definition sliceFiles {A} (files : list A) (offset end_ : Z) : option (list A) :=
  if decide (0 <= offset ∧ offset <= end_ ∧ end_ <= Z.of_nat (length files))
  then Some (take (Z.to_nat (end_ - offset)) (drop (Z.to_nat offset) files))
  else None.

Section Sessions.
(** What the batch loader reads from outside: the number of messages in
    a session file ([None] when the file cannot be read), the session id
    a file name stands for
    ([strings.TrimSuffix(filename, filepath.Ext(filename))]), and the
    counts of large files per session id in the database. *)
Variable countMessages : string → option Z.
Variable sessionIDOf : string → string.
Variable loadFileCounts : list string → gmap string Z.
Variable st : store.

(** The entry the loop of [loadSessionBatch] appends for a file. *)
Definition scanSession (file : sessionFileEntry) : sessionEntry :=
  {| se_id := sessionIDOf (sf_filename file);
     se_filename := sf_filename file;
     se_path := sf_path file;
     se_updatedAt := sf_updatedAt file;
     se_messageCount := match countMessages (sf_path file) with
                        | Some n => n
                        | None => -1
                        end;
     se_summaryCount := 0;
     se_fileCount := 0 |}.

Definition withCounts (summaryCounts fileCounts : gmap string Z) (s : sessionEntry)
  : sessionEntry :=
  {| se_id := se_id s; se_filename := se_filename s; se_path := se_path s;
     se_updatedAt := se_updatedAt s; se_messageCount := se_messageCount s;
     se_summaryCount := countOf summaryCounts (se_id s);
     se_fileCount := countOf fileCounts (se_id s) |}.

(** [loadSessionBatch]; its error result is always nil.  [None] is the
    panic of a slice expression out of range. *)
Definition loadSessionBatch (files : list sessionFileEntry) (offset limit : Z)
  : option (list sessionEntry * Z) :=
  let offset := if decide (offset < 0) then 0 else offset in
  if decide (limit <= 0) then Some ([], offset)
  else if decide (offset >= Z.of_nat (length files)) then Some ([], Z.of_nat (length files))
  else
    let end_ := wrap64 (offset + limit) in
    let end_ := if decide (end_ > Z.of_nat (length files)) then Z.of_nat (length files)
                else end_ in
    window ← sliceFiles files offset end_;
    let sessions := scanSession <$> window in
    let sessionIDs := se_id <$> sessions in
    let summaryCounts := loadSummaryCounts st sessionIDs in
    let fileCounts := loadFileCounts sessionIDs in
    Some (withCounts summaryCounts fileCounts <$> sessions, end_).

(** The fields of [model] that the session loader reads and writes. *)
Record pager := mkPager {
  p_sessionFiles : list sessionFileEntry;
  p_sessionFileCursor : Z;
  p_sessions : list sessionEntry;
  p_sessionCursor : Z;
  p_status : sessionStatus
}.

(** [appendSessionBatch]: the state after it and the number of sessions
    it has loaded. *)
Definition appendSessionBatch (limit : Z) (m : pager) : option (pager * Z) :=
  '(batch, nextCursor) ← loadSessionBatch (p_sessionFiles m) (p_sessionFileCursor m) limit;
  Some ({| p_sessionFiles := p_sessionFiles m;
           p_sessionFileCursor := nextCursor;
           p_sessions := p_sessions m ++ batch;
           p_sessionCursor := p_sessionCursor m;
           p_status := p_status m |},
        Z.of_nat (length batch)).

(** [maybeLoadMoreSessions]; [appendSessionBatch] never returns an
    error, so the status is set only after a load. *)
Definition maybeLoadMoreSessions (m : pager) : option (pager * Z) :=
  if decide (wrap64 (Z.of_nat (length (p_sessions m)) - p_sessionCursor m) > 3)
  then Some (m, 0)
  else if decide (p_sessionFileCursor m >= Z.of_nat (length (p_sessionFiles m)))
  then Some (m, 0)
  else
    '(m, loaded) ← appendSessionBatch sessionBatchLoadSize m;
    if decide (loaded > 0)
    then Some ({| p_sessionFiles := p_sessionFiles m;
                  p_sessionFileCursor := p_sessionFileCursor m;
                  p_sessions := p_sessions m;
                  p_sessionCursor := p_sessionCursor m;
                  p_status := StatusLoaded (Z.of_nat (length (p_sessions m)))
                                           (Z.of_nat (length (p_sessionFiles m))) |},
               loaded)
    else Some (m, loaded).


(** The arm of [handleSessionsKey] for "down" and "j". *)
Definition sessionsDown (m : pager) : option pager :=
  let previousLoaded := Z.of_nat (length (p_sessions m)) in
  let m := {| p_sessionFiles := p_sessionFiles m;
              p_sessionFileCursor := p_sessionFileCursor m;
              p_sessions := p_sessions m;
              p_sessionCursor := clamp (wrap64 (p_sessionCursor m + 1)) 0
                                       (wrap64 (Z.of_nat (length (p_sessions m)) - 1));
              p_status := p_status m |} in
  '(m, loaded) ← maybeLoadMoreSessions m;
  if decide (loaded > 0 ∧ p_sessionCursor m = wrap64 (previousLoaded - 1))
  then Some {| p_sessionFiles := p_sessionFiles m;
               p_sessionFileCursor := p_sessionFileCursor m;
               p_sessions := p_sessions m;
               p_sessionCursor := clamp (wrap64 (p_sessionCursor m + 1)) 0
                                        (wrap64 (Z.of_nat (length (p_sessions m)) - 1));
               p_status := p_status m |}
  else Some m.

(** The sessions loaded so far are the first [p_sessionFileCursor] files,
    in their order. *)
Definition filesLoaded (m : pager) : Prop :=
  0 <= p_sessionFileCursor m <= Z.of_nat (length (p_sessionFiles m))
  ∧ Z.of_nat (length (p_sessionFiles m)) < 2 ^ 62
  ∧ se_filename <$> p_sessions m
    = sf_filename <$> take (Z.to_nat (p_sessionFileCursor m)) (p_sessionFiles m).

(** Moreover the cursor is on one of them (at 0 when there is none). *)
Definition loadedPrefix (m : pager) : Prop :=
  filesLoaded m
  ∧ 0 <= p_sessionCursor m <= Z.max 0 (Z.of_nat (length (p_sessions m)) - 1).

(** How far "down" moves the cursor. *)
Definition downStep (m : pager) : Z :=
  let last := Z.of_nat (length (p_sessions m)) - 1 in
  let more := bool_decide (p_sessionFileCursor m < Z.of_nat (length (p_sessionFiles m))) in
  if decide (p_sessionCursor m = last) then (if more then 1 else 0)
  else if decide (p_sessionCursor m = last - 1) then (if more then 2 else 1)
  else 1.
End Sessions.

(** Three session files, and a list that has loaded two of them. *)
Definition exampleFile (name : string) : sessionFileEntry :=
  {| sf_filename := name; sf_path := name; sf_updatedAt := 0 |}.

Definition exampleFiles : list sessionFileEntry :=
  [exampleFile "a.jsonl"; exampleFile "b.jsonl"; exampleFile "c.jsonl"].

Definition examplePager : pager :=
  {| p_sessionFiles := exampleFiles;
     p_sessionFileCursor := 2;
     p_sessions := scanSession (λ _, None) (λ name, name) <$> take 2 exampleFiles;
     p_sessionCursor := 0;
     p_status := StatusText "Loaded" |}.

(** * Proofs *)

(** ** Statements *)

Lemma NoDup_replace {A} (a b : list A) (x y : A) :
  NoDup (a ++ x :: b) → y ∉ a ++ b → NoDup (a ++ y :: b).
Proof.
  rewrite !NoDup_app, !NoDup_cons, elem_of_app.
  intros (Ha & Hx & _ & Hb) Hn. split_and!; try done.
  - intros z Hz [->|Hz2]%elem_of_cons; [tauto|].
    eapply Hx; [done|]. by right.
  - tauto.
Qed.

Lemma keysOf_app cid a b : keysOf cid (a ++ b) = keysOf cid a ++ keysOf cid b.
Proof. unfold keysOf, keys. by rewrite filter_app, fmap_app. Qed.

Lemma keysOf_cons_in cid r l :
  ci_conversation_id r = cid → keysOf cid (r :: l) = ci_key r :: keysOf cid l.
Proof. intros Hc. unfold keysOf, keys. by rewrite filter_cons_True. Qed.

Lemma keysOf_cons_out cid r l :
  ci_conversation_id r ≠ cid → keysOf cid (r :: l) = keysOf cid l.
Proof. intros Hc. unfold keysOf, keys. by rewrite filter_cons_False. Qed.

Lemma keysOf_keys cid k t : k ∈ keysOf cid t → k ∈ keys t.
Proof.
  unfold keysOf, keys. intros (x & -> & [_ Hx]%list_elem_of_filter)%list_elem_of_fmap.
  by apply list_elem_of_fmap_2.
Qed.

Lemma elem_of_keysOf cid x t : (cid, x) ∈ keysOf cid t ↔ (cid, x) ∈ keys t.
Proof.
  split; [apply keysOf_keys|]. unfold keysOf, keys.
  intros (r & [= Hc Hx] & Hr)%list_elem_of_fmap. apply list_elem_of_fmap.
  exists r. split; [by unfold ci_key; f_equal|]. by apply list_elem_of_filter.
Qed.

Section StatementFacts.
Context (P : context_item → Prop) `{!∀ r, Decision (P r)}.
Context (f : context_item → context_item).

Lemma update_from_result done todo t :
  update_from P f done todo = inr t → t = done ++ (updated P f <$> todo).
Proof.
  revert done. induction todo as [|r rest IH]; intros done; simpl.
  - intros [= <-]. by rewrite app_nil_r.
  - unfold updated at 1. destruct (decide (P r)).
    + destruct (decide _); [done|]. intros Hu%IH. by rewrite Hu, <- app_assoc.
    + intros Hu%IH. by rewrite Hu, <- app_assoc.
Qed.

Lemma sql_update_result t t' :
  sql_update P f t = inr t' → t' = updated P f <$> t.
Proof. apply update_from_result. Qed.

Lemma keys_app a b : keys (a ++ b) = keys a ++ keys b.
Proof. unfold keys. apply fmap_app. Qed.

Lemma NoDup_keys_replace done r r' rest :
  NoDup (keys (done ++ r :: rest)) →
  ci_key r' ∉ keys (done ++ rest) →
  NoDup (keys (done ++ r' :: rest)).
Proof.
  rewrite !keys_app. simpl. rewrite !NoDup_app, !NoDup_cons.
  intros (Hd & Hx & _ & Hr) Hn.
  rewrite elem_of_app in Hn.
  split_and!; try done.
  - intros x Hx1 [->|Hx2]%elem_of_cons; [tauto|].
    eapply Hx; [done|]. by right.
  - tauto.
Qed.

Lemma update_states_NoDup done todo t :
  NoDup (keys (done ++ todo)) →
  update_from P f done todo = inr t →
  Forall (λ s, NoDup (keys s)) (update_states P f done todo) ∧ NoDup (keys t).
Proof.
  revert done. induction todo as [|r rest IH]; intros done Hnd; simpl.
  - intros [= <-]. rewrite app_nil_r in Hnd. by split; [constructor|].
  - destruct (decide (P r)).
    + destruct (decide _) as [|Hfree]; [done|]. intros Hu.
      pose proof (NoDup_keys_replace _ _ _ _ Hnd Hfree) as Hnd'.
      destruct (IH (done ++ [f r])) as [Hs Ht]; [by rewrite <- app_assoc|done|].
      split; [|done]. by constructor.
    + intros Hu. apply (IH (done ++ [r])); [by rewrite <- app_assoc|done].
Qed.

(** A statement goes through when no rewritten row can meet another
    row, whether that one is still to be visited or already
    rewritten. *)
Lemma update_from_ok done0 todo :
  NoDup (keys (done0 ++ todo)) →
  (∀ r r', r ∈ done0 ++ todo → r' ∈ done0 ++ todo → ci_key r ≠ ci_key r' → P r →
           ci_key (f r) ≠ ci_key r' ∧ ci_key (f r) ≠ ci_key (updated P f r')) →
  update_from P f (updated P f <$> done0) todo = inr (updated P f <$> (done0 ++ todo)).
Proof.
  revert done0. induction todo as [|r rest IH]; intros done0 Hnd Hsafe; simpl.
  - by rewrite app_nil_r.
  - assert (Hstep : update_from P f (updated P f <$> (done0 ++ [r])) rest
                    = inr (updated P f <$> ((done0 ++ [r]) ++ rest))).
    { apply IH; rewrite <- app_assoc; done. }
    rewrite <- app_assoc in Hstep. simpl in Hstep.
    rewrite fmap_app in Hstep. simpl in Hstep.
    destruct (decide (P r)) as [HP|HP].
    + destruct (decide _) as [Hin|_].
      * exfalso. rewrite keys_app, elem_of_app in Hin.
        assert (Hr : r ∈ done0 ++ r :: rest) by (rewrite elem_of_app, elem_of_cons; tauto).
        rewrite keys_app in Hnd. simpl in Hnd.
        apply NoDup_app in Hnd as (Hd & Hx & Hr').
        apply NoDup_cons in Hr' as [Hr1 Hr2].
        destruct Hin as [Hin|Hin].
        -- unfold keys in Hin. rewrite <- list_fmap_compose in Hin.
           apply list_elem_of_fmap in Hin as (r' & Heq & Hr'in).
           assert (ci_key r ≠ ci_key r').
           { intros E. apply (Hx (ci_key r')); [by apply list_elem_of_fmap_2|].
             rewrite <- E. by left. }
           destruct (Hsafe r r') as [_ Hs2]; [exact Hr| |done|done|by apply Hs2].
           rewrite elem_of_app. by left.
        -- apply list_elem_of_fmap in Hin as (r' & Heq & Hr'in).
           assert (ci_key r ≠ ci_key r').
           { intros E. apply Hr1. rewrite E. by apply list_elem_of_fmap_2. }
           destruct (Hsafe r r') as [Hs1 _]; [exact Hr| |done|done|by apply Hs1].
           rewrite elem_of_app, elem_of_cons. tauto.
      * assert (E : updated P f r = f r) by (unfold updated; by rewrite decide_True).
        by rewrite E in Hstep.
    + assert (E : updated P f r = r) by (unfold updated; by rewrite decide_False).
      by rewrite E in Hstep.
Qed.

Lemma sql_update_ok t :
  NoDup (keys t) →
  (∀ r r', r ∈ t → r' ∈ t → ci_key r ≠ ci_key r' → P r →
           ci_key (f r) ≠ ci_key r' ∧ ci_key (f r) ≠ ci_key (updated P f r')) →
  sql_update P f t = inr (updated P f <$> t).
Proof. intros. by apply (update_from_ok []). Qed.

Lemma sql_update_NoDup t t' :
  NoDup (keys t) → sql_update P f t = inr t' →
  Forall (λ s, NoDup (keys s)) (update_states P f [] t) ∧ NoDup (keys t').
Proof. apply (update_states_NoDup [] t t'). Qed.
(** The same for the rows of one conversation, when the statement leaves
    every row in its conversation. *)
Lemma update_from_NoDup_in cid done todo t :
  (∀ r, ci_conversation_id (f r) = ci_conversation_id r) →
  NoDup (keysOf cid (done ++ todo)) →
  update_from P f done todo = inr t →
  NoDup (keysOf cid t).
Proof.
  intros Hconv. revert done. induction todo as [|r rest IH]; intros done Hnd; simpl.
  - intros [= <-]. by rewrite app_nil_r in Hnd.
  - destruct (decide (P r)).
    + destruct (decide _) as [|Hfree]; [done|]. intros Hu.
      apply (IH (done ++ [f r])); [|done]. rewrite <- app_assoc. simpl.
      rewrite keysOf_app in *.
      destruct (decide (ci_conversation_id r = cid)) as [Hc|Hc].
      * rewrite keysOf_cons_in in * by (by rewrite ?Hconv).
        apply (NoDup_replace _ _ (ci_key r)); [done|].
        intros Hin. apply Hfree. rewrite <- keysOf_app in Hin.
        by apply keysOf_keys in Hin.
      * by rewrite keysOf_cons_out in * by (by rewrite ?Hconv).
    + intros Hu. apply (IH (done ++ [r])); [by rewrite <- app_assoc|done].
Qed.

Lemma sql_update_NoDup_in cid t t' :
  (∀ r, ci_conversation_id (f r) = ci_conversation_id r) →
  NoDup (keysOf cid t) → sql_update P f t = inr t' → NoDup (keysOf cid t').
Proof. intros Hconv. apply (update_from_NoDup_in cid [] t t' Hconv). Qed.
End StatementFacts.

Lemma sql_insert_result r t t' :
  sql_insert r t = inr t' → t' = t ++ [r] ∧ ci_key r ∉ keys t.
Proof. unfold sql_insert. destruct (decide _); [done|]. by intros [= <-]. Qed.

(** A rewrite that only touches rows outside [Q] keeps the rows in [Q]. *)
Lemma filter_updated (P Q : context_item → Prop) `{∀ r, Decision (P r)}
    `{∀ r, Decision (Q r)} f (t : list context_item) :
  (∀ r, P r → ¬ Q r ∧ ¬ Q (f r)) →
  filter Q (updated P f <$> t) = filter Q t.
Proof.
  intros Hout. induction t as [|r t IH]; [done|]. rewrite fmap_cons. unfold updated at 1.
  destruct (decide (P r)) as [Hp|Hp].
  - destruct (Hout r Hp) as [Hr Hfr]. by rewrite !filter_cons_False.
  - rewrite !filter_cons. by rewrite IH.
Qed.

Lemma filter_none {A} (P : A → Prop) `{∀ x, Decision (P x)} (l : list A) :
  Forall (λ x, ¬ P x) l → filter P l = [].
Proof.
  induction 1 as [|x l Hx _ IH]; [done|]. by rewrite filter_cons_False.
Qed.

(** ** The two-phase renumbering *)

Lemma ci_key_with_ordinal r n : ci_key (with_ordinal r n) = (ci_conversation_id r, n).
Proof. done. Qed.

Lemma with_ordinal_twice r a b : with_ordinal (with_ordinal r a) b = with_ordinal r b.
Proof. done. Qed.

Lemma with_ordinal_same r : with_ordinal r (ci_ordinal r) = r.
Proof. by destruct r. Qed.

Ltac unfold_rows :=
  unfold updated, shifted, after_ordinal, from_ordinal, in_conversation, ci_key, tempOffset in *;
  simpl in *.

Section TwoPhase.
Context (cid o shift : Z) (t : list context_item).
Hypothesis Hnd : NoDup (keys t).
Hypothesis Hbound : ∀ r, r ∈ t → ci_conversation_id r = cid →
                         0 <= ci_ordinal r ∧ ci_ordinal r + shift < tempOffset.
Hypothesis Hshift : 0 < shift.

Let toTemp := λ r, with_ordinal r (ci_ordinal r + tempOffset).
Let toFinal := λ r, with_ordinal r (ci_ordinal r - tempOffset + shift).

Lemma shiftToTemp_ok :
  shiftToTemp cid o t = inr (updated (after_ordinal cid o) toTemp <$> t).
Proof.
  apply sql_update_ok; [done|].
  intros r r' Hr Hr' Hne HP.
  pose proof (Hbound r Hr) as Br. pose proof (Hbound r' Hr') as Br'.
  unfold toTemp. unfold_rows. destruct HP as [Hc HP].
  split.
  - intros [= E1 E2]. lia.
  - case_decide as Hd; simpl.
    + intros [= E1 E2]. destruct Hd as [Hd _]. apply Hne. f_equal; [done|lia].
    + intros [= E1 E2]. lia.
Qed.

Lemma shiftToFinal_ok :
  shiftToFinal cid shift (updated (after_ordinal cid o) toTemp <$> t)
  = inr (shifted cid o shift <$> t).
Proof.
  set (t1 := updated (after_ordinal cid o) toTemp <$> t).
  assert (Hnd1 : NoDup (keys t1)).
  { eapply sql_update_NoDup; [exact Hnd|]. apply shiftToTemp_ok. }
  unfold shiftToFinal. rewrite sql_update_ok; [| done |].
  - f_equal. unfold t1. rewrite <- list_fmap_compose.
    apply Forall_fmap_ext_1, Forall_forall. intros r Hr.
    pose proof (Hbound r Hr) as Br.
    unfold toTemp. unfold_rows.
    repeat (case_decide; simpl in * ); try done; try lia.
    all: try (rewrite with_ordinal_twice; f_equal; lia).
    all: exfalso; naive_solver lia.
  - intros x x' Hx Hx' Hne HP.
    apply list_elem_of_fmap in Hx as (r & -> & Hr).
    apply list_elem_of_fmap in Hx' as (r' & -> & Hr').
    pose proof (Hbound r Hr) as Br. pose proof (Hbound r' Hr') as Br'.
    unfold toTemp in *. unfold_rows.
    repeat (case_decide; simpl in * ); split; intros [= E1 E2];
      try (apply Hne; f_equal; lia); naive_solver lia.
Qed.

Lemma twoPhaseStates_NoDup :
  Forall (λ s, NoDup (keys s)) (twoPhaseStates cid o shift t).
Proof.
  unfold twoPhaseStates. rewrite shiftToTemp_ok. apply Forall_app. split.
  - eapply sql_update_NoDup; [exact Hnd|]. apply shiftToTemp_ok.
  - eapply sql_update_NoDup; [|apply shiftToFinal_ok].
    eapply sql_update_NoDup; [exact Hnd|]. apply shiftToTemp_ok.
Qed.
End TwoPhase.

(** C5 (amended): for a table whose rows of the conversation all have
    ordinals in [0, tempOffset - shift), and shift > 0, the two statements
    both go through, their combined effect is to add [shift] to the
    ordinal of every item of the conversation above the deleted ordinal,
    and no table state they pass through holds two items with the same
    (conversation, ordinal). *)
Theorem two_phase_renumbering (cid o shift : Z) (t : list context_item) :
  NoDup (keys t) →
  (∀ r, r ∈ t → ci_conversation_id r = cid →
        0 <= ci_ordinal r ∧ ci_ordinal r + shift < tempOffset) →
  0 < shift →
  ∃ t1, shiftToTemp cid o t = inr t1
      ∧ shiftToFinal cid shift t1 = inr (shifted cid o shift <$> t)
      ∧ Forall (λ s, NoDup (keys s)) (twoPhaseStates cid o shift t).
Proof.
  intros Hnd Hb Hs. eexists. split; [by apply (shiftToTemp_ok cid o shift)|].
  split; [by apply shiftToFinal_ok|by apply twoPhaseStates_NoDup].
Qed.

Lemma two_phase_renumbering_witness :
  let t := [messageItem 1 1; messageItem 2 0; messageItem 1 2; messageItem 1 3] in
  ∃ t1, shiftToTemp 1 0 t = inr t1
      ∧ shiftToFinal 1 2 t1 = inr (shifted 1 0 2 <$> t)
      ∧ Forall (λ s, NoDup (keys s)) (twoPhaseStates 1 0 2 t).
Proof.
  intros t. apply two_phase_renumbering.
  - apply (bool_decide_unpack _). by vm_compute.
  - intros r Hr _. unfold t in Hr.
    repeat (apply elem_of_cons in Hr as [->|Hr]); [simpl; unfold tempOffset; lia..|].
    by apply elem_of_nil in Hr.
  - lia.
Defined.

(** ** Running commands *)

Lemma bind_inr {A B} (m : cmd A) (k : A → cmd B) w b w' :
  (m ≫= k) w = (inr b, w') → ∃ a w1, m w = (inr a, w1) ∧ k a w1 = (inr b, w').
Proof.
  unfold mbind, cmd_bind. destruct (m w) as [[e|a] w1]; [done|]. eauto.
Qed.

Lemma bind_inl {A B} (m : cmd A) (k : A → cmd B) w e w' :
  (m ≫= k) w = (inl e, w') →
  m w = (inl e, w') ∨ ∃ a w1, m w = (inr a, w1) ∧ k a w1 = (inl e, w').
Proof.
  unfold mbind, cmd_bind. destruct (m w) as [[e1|a] w1].
  - intros [= -> ->]. by left.
  - intros Hk. right. eauto.
Qed.

Lemma exec_inr stmt wrap w n w1 :
  exec stmt wrap w = (inr n, w1) →
  ∃ t t', w_tx w = Some t ∧ stmt t = inr (t', n) ∧ w_tx w1 = Some t' ∧ w_db w1 = w_db w.
Proof.
  unfold exec. destruct (w_tx w) as [t|]; [|done].
  destruct (stmt t) as [e|[t' m]] eqn:Hs; [done|]. intros [= <- <-]. by exists t, t'.
Qed.

Lemma exec_keeps stmt wrap w r w1 :
  exec stmt wrap w = (r, w1) → w_db w1 = w_db w ∧ (is_Some (w_tx w) → is_Some (w_tx w1)).
Proof.
  unfold exec. destruct (w_tx w) as [t|] eqn:Htx.
  - destruct (stmt t) as [e|[t' m]]; intros [= <- <-]; simpl; rewrite ?Htx; eauto.
  - intros [= <- <-]. simpl. rewrite Htx. split; [done|]. by intros [? [=]].
Qed.

Lemma printLine_run l w :
  printLine l w = (inr (), {| w_db := w_db w; w_tx := w_tx w;
                              w_stdout := w_stdout w ++ [l]; w_calls := w_calls w |}).
Proof. done. Qed.

Lemma printLine_inv l w r w1 :
  printLine l w = (r, w1) → r = inr () ∧ w_db w1 = w_db w ∧ w_tx w1 = w_tx w.
Proof. by intros [= <- <-]. Qed.

Lemma commit_inr w u w1 :
  commit w = (inr u, w1) → ∃ t, w_tx w = Some t ∧ w_db w1 = t ∧ w_tx w1 = None.
Proof. unfold commit. destruct (w_tx w); [|done]. intros [= <- <-]. eauto. Qed.

Lemma commit_inl w e w1 : commit w = (inl e, w1) → w_db w1 = w_db w.
Proof. unfold commit. destruct (w_tx w); [done|]. by intros [= <- <-]. Qed.

(** The insert loop, when it goes through. *)
Lemma insert_loop_inr cid o now parents : ∀ (i : nat) w w1 t,
  w_tx w = Some t →
  forRange i parents (λ i p,
    let newOrdinal := wrap64 (o + Z.of_nat i) in
    exec (insertParentItem (parentItem cid newOrdinal (dp_summaryID p) (now i)))
         (ErrInsertParent (dp_summaryID p) newOrdinal);;
    mret ()) w = (inr (), w1) →
  let items := imap (λ j p, parentItem cid (wrap64 (o + Z.of_nat (i + j)))
                                       (dp_summaryID p) (now (i + j)%nat)) parents in
  w_tx w1 = Some (set_context_items t (context_items t ++ items))
  ∧ w_db w1 = w_db w
  ∧ (∀ k, k ∈ keys items → k ∉ keys (context_items t))
  ∧ NoDup (keys items).
Proof.
  induction parents as [|p parents IH]; intros i w w1 t Ht; simpl.
  - intros [= <-]. rewrite app_nil_r. split_and!.
    + rewrite Ht. by destruct t.
    + done.
    + by intros k ?%elem_of_nil.
    + constructor.
  - intros (u & w2 & Hstep & Hrest)%bind_inr.
    apply bind_inr in Hstep as (n & w3 & Hex & Hret).
    unfold mret, cmd_ret in Hret. simplify_eq.
    apply exec_inr in Hex as (t0 & t' & Ht0 & Hstmt & Ht' & Hdb).
    rewrite Ht in Ht0. injection Ht0 as <-.
    unfold insertParentItem, on_context_items in Hstmt.
    destruct (sql_insert _ _) as [e|t1] eqn:Hins; [done|].
    injection Hstmt as <- <-.
    apply sql_insert_result in Hins as [-> Hfree].
    destruct (IH _ _ _ _ Ht' Hrest) as (Htx & Hdb' & Hnew & Hnd).
    simpl in *. rewrite Nat.add_0_r.
    assert (Hidx : ∀ (j : nat), (S i + j = i + S j)%nat) by lia.
    assert (Hext : imap ((λ j p0, parentItem cid (wrap64 (o + Z.of_nat (i + j)))
                                   (dp_summaryID p0) (now (i + j)%nat)) ∘ S) parents
                   = imap (λ j p0, parentItem cid (wrap64 (o + Z.of_nat (S (i + j))))
                                   (dp_summaryID p0) (now (S (i + j))%nat)) parents).
    { apply imap_ext. intros j x _. simpl. rewrite <- Hidx. done. }
    rewrite Hext. rewrite keys_app in Hnew. simpl in Hnew.
    split_and!.
    + rewrite Htx. f_equal. unfold set_context_items. simpl. f_equal.
      by rewrite <- app_assoc.
    + congruence.
    + intros k [->|Hk]%elem_of_cons; [done|].
      intros Hin. apply (Hnew k Hk). rewrite elem_of_app. by left.
    + apply NoDup_cons. split; [|done].
      intros Hin. apply (Hnew _ Hin). rewrite elem_of_app. right. by left.
Qed.

(** ** The transaction, step by step *)

Lemma target_rows_elem st cid sid s ci :
  (s, ci) ∈ target_rows st cid sid ↔
  s ∈ summaries st ∧ ci ∈ context_items st
  ∧ ci_summary_id ci = Some (s_summary_id s)
  ∧ ci_conversation_id ci = s_conversation_id s
  ∧ s_summary_id s = sid ∧ s_conversation_id s = cid.
Proof.
  unfold target_rows. rewrite list_elem_of_bind. split.
  - intros (s' & (ci' & Hin & Hci)%list_elem_of_bind & Hs).
    case_decide as Hd; [|by apply not_elem_of_nil in Hin].
    apply list_elem_of_singleton in Hin as [= -> ->]. tauto.
  - intros (Hs & Hci & H1 & H2 & H3 & H4). exists s. split; [|done].
    apply list_elem_of_bind. exists ci. split; [|done].
    rewrite decide_True by done. by apply list_elem_of_singleton.
Qed.

(** What the transaction has done when it goes through. *)
Lemma applyDissolve_inr opts cid target parents ti shift now w w1 t :
  w_tx w = Some t →
  applyDissolve opts cid target parents ti shift now w = (inr (), w1) →
  let o := dt_ordinal target in
  let sid := dt_summaryID target in
  let kept := filter (λ r, ¬ is_target_item cid o sid r) (context_items t) in
  let items := imap (λ j p, parentItem cid (wrap64 (o + Z.of_nat (0 + j)))
                                       (dp_summaryID p) (now (0 + j)%nat)) parents in
  ∃ t3,
    sql_count (is_target_item cid o sid) (context_items t) = 1
    ∧ (if decide (shift > 0)
       then ∃ t2, shiftToTemp cid o kept = inr t2 ∧ shiftToFinal cid shift t2 = inr t3
       else t3 = kept)
    ∧ (∀ k, k ∈ keys items → k ∉ keys t3)
    ∧ NoDup (keys items)
    ∧ w_tx w1 = None
    ∧ context_items (w_db w1) = t3 ++ items
    ∧ conversations (w_db w1) = conversations t
    ∧ summary_messages (w_db w1) = summary_messages t
    ∧ summaries (w_db w1)
      = (if purge opts then filter (λ s, s_summary_id s ≠ sid) (summaries t) else summaries t)
    ∧ summary_parents (w_db w1)
      = (if purge opts then filter (λ e, sp_summary_id e ≠ sid) (summary_parents t)
         else summary_parents t).
Proof.
  intros Ht Hrun o sid kept items. unfold applyDissolve in Hrun.
  apply bind_inr in Hrun as (deleted & wa & Hdel & Hrun).
  apply exec_inr in Hdel as (t0 & ta & Ht0 & Hstmt & Hta & _).
  rewrite Ht in Ht0. injection Ht0 as <-.
  unfold deleteTargetItem, on_context_items, sql_delete in Hstmt.
  injection Hstmt as <- <-.
  destruct (decide _) as [|Hone%dec_stable]; [done|].
  apply bind_inr in Hrun as ([] & wb & [_ (_ & Hwb)]%printLine_inv & Hrun).
  rewrite Hta in Hwb. clear Hta wa.
  apply bind_inr in Hrun as ([] & wc & Hshift & Hrun).
  assert (∃ t3, (if decide (shift > 0)
                 then ∃ t2, shiftToTemp cid o kept = inr t2 ∧ shiftToFinal cid shift t2 = inr t3
                 else t3 = kept)
                ∧ w_tx wc = Some (set_context_items t t3)) as (t3 & Ht3 & Hwc).
  { destruct (decide (shift > 0)).
    - apply bind_inr in Hshift as (n1 & wd & Hx1 & Hshift).
      apply bind_inr in Hshift as (n2 & we & Hx2 & Hpr).
      apply printLine_inv in Hpr as (_ & _ & Hwc).
      apply exec_inr in Hx1 as (t0 & t1 & Ht0 & Hs1 & Hwd & _).
      rewrite Hwb in Ht0. injection Ht0 as <-.
      apply exec_inr in Hx2 as (t0 & t2 & Ht0 & Hs2 & Hwe & _).
      rewrite Hwd in Ht0. injection Ht0 as <-.
      unfold on_context_items, counted in Hs1, Hs2. simpl in Hs1.
      destruct (shiftToTemp _ _ _) as [|u1] eqn:E1; [done|]. injection Hs1 as <- _.
      simpl in Hs2.
      destruct (shiftToFinal _ _ _) as [|u2] eqn:E2; [done|]. injection Hs2 as <- _.
      exists u2. split; [by exists u1|]. by rewrite Hwc, Hwe.
    - exists kept. split; [done|]. unfold mret, cmd_ret in Hshift. by simplify_eq. }
  clear Hshift Hwb wb.
  apply bind_inr in Hrun as ([] & wd & Hloop & Hrun).
  apply (insert_loop_inr cid o now parents 0%nat wc wd _ Hwc) in Hloop
    as (Hwd & _ & Hnew & Hnd).
  simpl in Hwd, Hnew, Hnd. fold items in Hwd, Hnew, Hnd.
  apply bind_inr in Hrun as ([] & we & [_ (_ & Hwe)]%printLine_inv & Hrun).
  rewrite Hwd in Hwe. clear Hwd wd Hwc wc.
  apply bind_inr in Hrun as ([] & wf & Hpurge & Hcommit).
  apply commit_inr in Hcommit as (tf & Hwf & Hdb & Hnone).
  assert (Hfinal : tf = (if purge opts
                         then set_summaries
                                (set_summary_parents (set_context_items t (t3 ++ items))
                                   (filter (λ e, sp_summary_id e ≠ sid)
                                      (summary_parents t)))
                                (filter (λ s, s_summary_id s ≠ sid) (summaries t))
                         else set_context_items t (t3 ++ items))).
  { destruct (purge opts).
    - apply bind_inr in Hpurge as (n1 & wg & Hx1 & Hpurge).
      apply bind_inr in Hpurge as (n2 & wh & Hx2 & Hpr).
      apply printLine_inv in Hpr as (_ & _ & Hwh).
      apply exec_inr in Hx1 as (t0 & t1 & Ht0 & Hs1 & Hwg & _).
      rewrite Hwe in Ht0. injection Ht0 as <-.
      apply exec_inr in Hx2 as (t0 & t2 & Ht0 & Hs2 & Hwh' & _).
      rewrite Hwg in Ht0. injection Ht0 as <-.
      unfold deleteSummaryParents in Hs1. unfold deleteSummary in Hs2.
      injection Hs1 as <- _. injection Hs2 as <- _.
      rewrite Hwf, Hwh' in Hwh. by injection Hwh as ->.
    - unfold mret, cmd_ret in Hpurge. injection Hpurge as <-.
      rewrite Hwe in Hwf. by injection Hwf as <-. }
  exists t3. rewrite Hdb, Hfinal. split_and!; try done; by destruct (purge opts).
Qed.

(** ** The command up to the --apply test *)

Lemma bind_run {A B} (m : cmd A) (k : A → cmd B) w a w1 :
  m w = (inr a, w1) → (m ≫= k) w = k a w1.
Proof. unfold mbind, cmd_bind. by intros ->. Qed.

Lemma bind_fail {A B} (m : cmd A) (k : A → cmd B) w e w1 :
  m w = (inl e, w1) → (m ≫= k) w = (inl e, w1).
Proof. unfold mbind, cmd_bind. by intros ->. Qed.

Lemma print_loop_run (g : dissolveParent → outLine) parents : ∀ i w,
  forRange i parents (λ _ p, printLine (g p)) w
  = (inr (), {| w_db := w_db w; w_tx := w_tx w;
                w_stdout := w_stdout w ++ (g <$> parents); w_calls := w_calls w |}).
Proof.
  induction parents as [|p parents IH]; intros i w; simpl.
  - rewrite app_nil_r. by destruct w.
  - erewrite bind_run by apply printLine_run. rewrite IH. simpl.
    by rewrite <- app_assoc.
Qed.

Lemma printPlan_run target parents w :
  printPlan target parents w
  = (inr (), {| w_db := w_db w; w_tx := w_tx w;
                w_stdout := w_stdout w
                  ++ [OutHeader target; OutRestore (length parents)]
                  ++ (OutParent <$> parents)
                  ++ [OutTokenImpact (dt_tokenCount target) (totalTokens parents)
                        (wrap64 (totalTokens parents - dt_tokenCount target))];
                w_calls := w_calls w |}).
Proof.
  unfold printPlan.
  erewrite bind_run by apply printLine_run.
  erewrite bind_run by apply printLine_run.
  erewrite bind_run by apply print_loop_run.
  rewrite printLine_run. simpl. by rewrite <- !app_assoc.
Qed.

Lemma query_run {A} (q : store → A) w : query q w = (inr (q (w_db w)), called CallQuery w).
Proof. done. Qed.

Lemma loadDissolveTarget_run cid sid w :
  loadDissolveTarget cid sid w =
  match target_rows (w_db w) cid sid with
  | [] => (inl (ErrNotInActiveContext sid cid), called CallQuery w)
  | (s, ci) :: _ =>
      if decide (s_kind s ≠ "condensed"%string)
      then (inl (ErrNotCondensed sid (s_kind s) (s_depth s)), called CallQuery w)
      else (inr (targetOf s ci), called CallQuery w)
  end.
Proof.
  unfold loadDissolveTarget. erewrite bind_run by apply query_run.
  destruct (target_rows _ _ _) as [|[s ci] rest]; [done|]. simpl.
  by destruct (decide _).
Qed.

(** The command up to the [--apply] test. *)
Lemma runDissolveCommand_run opts cid now st :
  dissolve opts cid now st =
  match target_rows st cid (summaryID opts) with
  | [] => (inl (ErrNotInActiveContext (summaryID opts) cid),
           called CallQuery (initial_world st))
  | (s, ci) :: _ =>
      if decide (s_kind s ≠ "condensed"%string)
      then (inl (ErrNotCondensed (summaryID opts) (s_kind s) (s_depth s)),
            called CallQuery (initial_world st))
      else
        let target := targetOf s ci in
        let parents := parentsOfTarget st (summaryID opts) in
        if decide (length parents = 0%nat)
        then (inl (ErrNoParents (summaryID opts)),
              called CallQuery (called CallQuery (initial_world st)))
        else if apply opts then
          (dissolveTx opts cid target parents
             (sql_count (after_ordinal cid (dt_ordinal target)) (context_items st))
             (Z.of_nat (length parents) - 1) now;;
           newCount ← query (λ st, sql_count (in_conversation cid) (context_items st));
           printLine (OutDone newCount))
            (planned st cid target parents OutApplying)
        else (inr (), planned st cid target parents OutDryRun)
  end.
Proof.
  unfold dissolve, runDissolveCommand.
  pose proof (loadDissolveTarget_run cid (summaryID opts) (initial_world st)) as Ht.
  simpl in Ht.
  destruct (target_rows st cid (summaryID opts)) as [|[s ci] rest].
  { by erewrite bind_fail by exact Ht. }
  destruct (decide (s_kind s ≠ _)).
  { by erewrite bind_fail by exact Ht. }
  erewrite bind_run by exact Ht. clear Ht.
  unfold loadDissolveParents. erewrite bind_run by apply query_run. simpl.
  fold (parentsOfTarget st (summaryID opts)).
  destruct (decide (length _ = 0%nat)); [done|].
  erewrite bind_run by apply printPlan_run.
  erewrite bind_run by apply query_run.
  erewrite bind_run by apply printLine_run. simpl.
  destruct (apply opts); simpl.
  - erewrite bind_run by apply printLine_run. f_equal.
    unfold planned, planLines. simpl. f_equal.
    by rewrite <- ?app_assoc; simpl; rewrite <- ?app_assoc.
  - rewrite printLine_run. f_equal.
    unfold planned, planLines. simpl. f_equal.
    by rewrite <- ?app_assoc; simpl; rewrite <- ?app_assoc.
Qed.

(** ** What commands leave alone *)

Section Frames.
Context (R : world → world → Prop) `{!Reflexive R, !Transitive R}.

Lemma always_bind {A B} (m : cmd A) (k : A → cmd B) :
  always R m → (∀ a, always R (k a)) → always R (m ≫= k).
Proof.
  intros Hm Hk w r w'. unfold mbind, cmd_bind.
  destruct (m w) as [[e|a] w1] eqn:E.
  - intros [= <- <-]. eapply Hm, E.
  - intros Hrun. etrans; [eapply Hm, E|eapply Hk, Hrun].
Qed.

Lemma on_error_bind {A B} (m : cmd A) (k : A → cmd B) :
  always R m → (∀ a, on_error R (k a)) → on_error R (m ≫= k).
Proof.
  intros Hm Hk w e w' [Hrun|(a & w1 & E & Hrun)]%bind_inl.
  - eapply Hm, Hrun.
  - etrans; [eapply Hm, E|eapply Hk, Hrun].
Qed.

Lemma always_on_error {A} (m : cmd A) : always R m → on_error R m.
Proof. intros Hm w e w' Hrun. eapply Hm, Hrun. Qed.

Lemma always_ret {A} (a : A) : always R (mret a).
Proof. by intros w r w' [= <- <-]. Qed.

Lemma always_fail {A} e : always R (@fail A e).
Proof. by intros w r w' [= <- <-]. Qed.

Lemma always_forRange {A} (body : nat → A → cmd unit) l :
  (∀ i x, always R (body i x)) → ∀ i, always R (forRange i l body).
Proof.
  intros Hb. induction l as [|x l IH]; intros i; simpl.
  - apply always_ret.
  - apply always_bind; [apply Hb|]. intros _. apply IH.
Qed.

Lemma always_if {A} (b : bool) (m1 m2 : cmd A) :
  always R m1 → always R m2 → always R (if b then m1 else m2).
Proof. by destruct b. Qed.

Lemma always_decide {A} P `{!Decision P} (m1 m2 : cmd A) :
  always R m1 → always R m2 → always R (if decide P then m1 else m2).
Proof. by destruct (decide P). Qed.
End Frames.

#[global] Instance db_kept_refl : Reflexive db_kept.
Proof. by intros w. Qed.
#[global] Instance db_kept_trans : Transitive db_kept.
Proof. unfold db_kept. intros w1 w2 w3 H1 H2. congruence. Qed.
#[global] Instance stdout_grows_refl : Reflexive stdout_grows.
Proof. intros w. by unfold stdout_grows. Qed.
#[global] Instance stdout_grows_trans : Transitive stdout_grows.
Proof. unfold stdout_grows. intros w1 w2 w3 H1 H2. by etrans. Qed.

Lemma exec_db_kept stmt wrap : always db_kept (exec stmt wrap).
Proof. intros w r w' Hrun. by apply exec_keeps in Hrun as [? _]. Qed.

Lemma printLine_db_kept l : always db_kept (printLine l).
Proof. by intros w r w' [= <- <-]. Qed.

Lemma commit_db_kept : on_error db_kept commit.
Proof. intros w e w' Hrun. by apply commit_inl in Hrun. Qed.

Lemma exec_stdout stmt wrap : always stdout_grows (exec stmt wrap).
Proof.
  intros w r w'. unfold exec, stdout_grows.
  destruct (w_tx w); [destruct (stmt _) as [|[]]|]; intros [= <- <-]; by unfold called.
Qed.

Lemma printLine_stdout l : always stdout_grows (printLine l).
Proof. intros w r w' [= <- <-]. unfold stdout_grows. simpl. by apply prefix_app_r. Qed.

Lemma commit_stdout : always stdout_grows commit.
Proof.
  intros w r w'. unfold commit, stdout_grows.
  destruct (w_tx w); intros [= <- <-]; by unfold called.
Qed.

Lemma query_stdout {A} (q : store → A) : always stdout_grows (query q).
Proof. intros w r w' [= <- <-]. by unfold stdout_grows, called. Qed.

Lemma beginTx_stdout : always stdout_grows beginTx.
Proof. intros w r w' [= <- <-]. by unfold stdout_grows. Qed.

Lemma deferRollback_stdout {A} (m : cmd A) :
  always stdout_grows m → always stdout_grows (deferRollback m).
Proof.
  intros Hm w r w'. unfold deferRollback.
  destruct (m w) as [[e|a] w1] eqn:E; intros [= <- <-]; by apply Hm in E.
Qed.

#[global] Opaque always on_error.

Ltac frame_step :=
  first
    [ apply always_bind | apply always_forRange | apply always_if | apply always_decide
    | apply deferRollback_stdout | apply always_ret | apply always_fail
    | apply exec_db_kept | apply printLine_db_kept
    | apply exec_stdout | apply printLine_stdout | apply commit_stdout
    | apply query_stdout | apply beginTx_stdout ];
  try solve [apply _]; intros.

Ltac frame_steps := repeat frame_step.

Lemma applyDissolve_on_error opts cid target parents ti shift now :
  on_error db_kept (applyDissolve opts cid target parents ti shift now).
Proof.
  unfold applyDissolve.
  apply on_error_bind; [apply _|apply exec_db_kept|intros deleted].
  destruct (decide _); [apply always_on_error, always_fail; apply _|].
  repeat (apply on_error_bind; [apply _|by frame_steps|intros ?]).
  apply commit_db_kept.
Qed.

Lemma applyDissolve_stdout opts cid target parents ti shift now :
  always stdout_grows (applyDissolve opts cid target parents ti shift now).
Proof. unfold applyDissolve. frame_steps. Qed.

Lemma dissolveTx_stdout opts cid target parents ti shift now :
  always stdout_grows (dissolveTx opts cid target parents ti shift now).
Proof. unfold dissolveTx. frame_steps. Qed.

(** ** Failure and rollback *)

Lemma dissolveTx_inl opts cid target parents ti shift now w e w' :
  dissolveTx opts cid target parents ti shift now w = (inl e, w') →
  w_db w' = w_db w ∧ w_tx w' = None.
Proof.
  unfold dissolveTx. intros Hrun.
  erewrite bind_run in Hrun by reflexivity.
  unfold deferRollback in Hrun.
  destruct (applyDissolve _ _ _ _ _ _ _ _) as [[e1|[]] w1] eqn:E; [|done].
  injection Hrun as <- <-. split; [|done].
  by apply applyDissolve_on_error in E.
Qed.

Lemma dissolveTx_count opts cid target parents ti shift now w :
  let count := sql_count (is_target_item cid (dt_ordinal target) (dt_summaryID target))
                         (context_items (w_db w)) in
  count ≠ 1 →
  (dissolveTx opts cid target parents ti shift now w).1 = inl (ErrDeleteCount count).
Proof.
  intros count Hc. unfold dissolveTx.
  erewrite bind_run by reflexivity. unfold deferRollback, applyDissolve.
  unfold mbind at 1, cmd_bind at 1. unfold exec at 1. simpl.
  fold count. by rewrite decide_True.
Qed.

(** C3: in the transaction of an applied dissolve, a delete that affects a
    number of rows other than one is reported as an error, and whenever
    the transaction returns an error, at the delete or at any later step,
    the committed store is the one from before the transaction and no
    transaction is left open. *)
Theorem failed_dissolve_rolls_back opts cid target parents ti shift now w r w' :
  dissolveTx opts cid target parents ti shift now w = (r, w') →
  let count := sql_count (is_target_item cid (dt_ordinal target) (dt_summaryID target))
                         (context_items (w_db w)) in
  (count ≠ 1 → r = inl (ErrDeleteCount count))
  ∧ (∀ e, r = inl e → w_db w' = w_db w ∧ w_tx w' = None).
Proof.
  intros Hrun count. split.
  - intros Hc. pose proof (dissolveTx_count opts cid target parents ti shift now w Hc) as H.
    by rewrite Hrun in H.
  - intros e ->. by eapply dissolveTx_inl.
Qed.

Lemma failed_dissolve_rolls_back_witness :
  let w := {| w_db := driftedStore; w_tx := None; w_stdout := []; w_calls := [] |} in
  ∃ w', dissolveTx (dissolveX true false) 1 exampleTarget
          (parentsOfTarget exampleStore "sum_x") 2 2 exampleNow w
        = (inl (ErrDeleteCount 0), w')
        ∧ w_db w' = driftedStore ∧ w_tx w' = None.
Proof.
  intros w.
  destruct (dissolveTx (dissolveX true false) 1 exampleTarget
              (parentsOfTarget exampleStore "sum_x") 2 2 exampleNow w) as [r w'] eqn:E.
  destruct (failed_dissolve_rolls_back _ _ _ _ _ _ _ _ _ _ E) as [Hc Hr].
  exists w'. rewrite (Hc ltac:(vm_compute; discriminate)).
  split; [reflexivity|]. apply (Hr (ErrDeleteCount 0)).
  apply Hc. vm_compute. discriminate.
Defined.

(** ** Preconditions *)

Lemma target_rows_nil st cid sid :
  target_rows st cid sid = [] ↔ ¬ inActiveContext st cid sid.
Proof.
  split.
  - intros Hnil (s & ci & Hs & Hci & H1 & H2 & H3 & H4).
    assert ((s, ci) ∈ target_rows st cid sid) as Hin.
    { apply target_rows_elem. split_and!; congruence. }
    rewrite Hnil in Hin. by apply not_elem_of_nil in Hin.
  - intros Hno. destruct (target_rows st cid sid) as [|[s ci] rest] eqn:E; [done|].
    exfalso. apply Hno.
    assert ((s, ci) ∈ target_rows st cid sid) as Hin by (rewrite E; left).
    apply target_rows_elem in Hin as (? & ? & ? & ? & ? & ?).
    exists s, ci. split_and!; congruence.
Qed.

Lemma parent_rows_elem st sid p :
  p ∈ parent_rows st sid ↔
  ∃ e s, e ∈ summary_parents st ∧ s ∈ summaries st
         ∧ s_summary_id s = sp_parent_summary_id e ∧ sp_summary_id e = sid
         ∧ p = {| dp_summaryID := sp_parent_summary_id e; dp_ordinal := sp_ordinal e;
                  dp_kind := s_kind s; dp_depth := s_depth s;
                  dp_tokenCount := s_token_count s; dp_content := s_content s |}.
Proof.
  unfold parent_rows. rewrite list_elem_of_bind. split.
  - intros (e & (s & Hin & Hs)%list_elem_of_bind & He).
    case_decide as Hd; [|by apply not_elem_of_nil in Hin].
    apply list_elem_of_singleton in Hin. exists e, s. tauto.
  - intros (e & s & He & Hs & H1 & H2 & ->). exists e. split; [|done].
    apply list_elem_of_bind. exists s. split; [|done].
    rewrite decide_True by done. by apply list_elem_of_singleton.
Qed.

Lemma parent_rows_nil st sid :
  (∀ e, e ∈ summary_parents st → sp_summary_id e ≠ sid) → parent_rows st sid = [].
Proof.
  intros Hno. apply elem_of_nil_inv. intros p (e & s & He & _ & _ & Hsid & _)%parent_rows_elem.
  by apply (Hno e).
Qed.

Lemma untouched_queries st (calls : list dbCall) out :
  Forall (λ c, c = CallQuery) calls →
  untouched st {| w_db := st; w_tx := None; w_stdout := out; w_calls := calls |}.
Proof. by intros H. Qed.

Lemma applied_stdout opts cid target parents ti shift now w r w' :
  (dissolveTx opts cid target parents ti shift now;;
   newCount ← query (λ st, sql_count (in_conversation cid) (context_items st));
   printLine (OutDone newCount)) w = (r, w') →
  w_stdout w `prefix_of` w_stdout w'.
Proof.
  revert w r w'. change (always stdout_grows
    (dissolveTx opts cid target parents ti shift now;;
     newCount ← query (λ st, sql_count (in_conversation cid) (context_items st));
     printLine (OutDone newCount))).
  apply always_bind; [apply _|apply dissolveTx_stdout|intros _].
  apply always_bind; [apply _|apply query_stdout|intros n]. apply printLine_stdout.
Qed.

(** C4 (amended): the command fails with its own error, writes nothing and
    opens no transaction when the target occupies no context item of the
    conversation, when its kind is not condensed, or when it has no parent
    edge.  These are all its preconditions: a condensed target that has a
    parent and occupies a context item of the conversation, be it one or
    several, is taken up, and the plan is printed for one of the rows
    that join it to a context item. *)
Theorem dissolve_preconditions opts cid now st r w :
  dissolve opts cid now st = (r, w) →
  let sid := summaryID opts in
  let known := inActiveContext st cid sid in
  let kind_is (P : string → Prop) :=
    ∀ s, s ∈ summaries st → s_summary_id s = sid → s_conversation_id s = cid → P (s_kind s) in
  (¬ known → r = inl (ErrNotInActiveContext sid cid) ∧ untouched st w)
  ∧ (known → kind_is (λ k, k ≠ "condensed"%string) →
     (∃ k d, r = inl (ErrNotCondensed sid k d)) ∧ untouched st w)
  ∧ (known → kind_is (λ k, k = "condensed"%string) →
     (∀ e, e ∈ summary_parents st → sp_summary_id e ≠ sid) →
     r = inl (ErrNoParents sid) ∧ untouched st w)
  ∧ (known → kind_is (λ k, k = "condensed"%string) → parentsOfTarget st sid ≠ [] →
     ∃ s ci, (s, ci) ∈ target_rows st cid sid
             ∧ planLines st cid (targetOf s ci) (parentsOfTarget st sid)
               `prefix_of` w_stdout w).
Proof.
  intros Hrun sid known kind_is. rewrite runDissolveCommand_run in Hrun.
  fold sid in Hrun.
  destruct (target_rows st cid sid) as [|[s ci] rest] eqn:E.
  - apply target_rows_nil in E. injection Hrun as <- <-.
    split_and!; [|done..]. intros _. split; [done|].
    apply untouched_queries. by repeat constructor.
  - assert ((s, ci) ∈ target_rows st cid sid) as Hin by (rewrite E; left).
    pose proof Hin as Hrow.
    apply target_rows_elem in Hin as (Hs & Hci & Hsum & Hcc & Hid & Hconv).
    assert (known) as Hk.
    { exists s, ci. split_and!; congruence. }
    split_and!; [done| | |].
    + intros _ Hkind. rewrite decide_True in Hrun by by apply Hkind.
      injection Hrun as <- <-. split; [eauto|].
      apply untouched_queries. by repeat constructor.
    + intros _ Hkind Hedges. rewrite decide_False in Hrun.
      2:{ intros Hne. apply Hne. by apply Hkind. }
      simpl in Hrun. unfold parentsOfTarget in Hrun.
      rewrite parent_rows_nil in Hrun by done.
      rewrite decide_True in Hrun by done.
      injection Hrun as <- <-. split; [done|].
      apply untouched_queries. by repeat constructor.
    + intros _ Hkind Hparents. rewrite decide_False in Hrun.
      2:{ intros Hne. apply Hne. by apply Hkind. }
      cbv zeta in Hrun. rewrite decide_False in Hrun.
      2:{ intros Hlen. by apply nil_length_inv in Hlen. }
      exists s, ci. split; [first [exact Hrow|left]|].
      destruct (apply opts).
      * apply applied_stdout in Hrun. unfold planned in Hrun. cbn [w_stdout] in Hrun.
        etrans; [|exact Hrun]. by apply prefix_app_r.
      * injection Hrun as <- <-. unfold planned. cbn [w_stdout]. by apply prefix_app_r.
Qed.

Lemma dissolve_preconditions_witness :
  (dissolve {| summaryID := "sum_a"; apply := true; purge := false |} 1 exampleNow
            exampleStore).1
  = inl (ErrNotInActiveContext "sum_a" 1)
  ∧ (∃ k d, (dissolve {| summaryID := "sum_l"; apply := true; purge := false |} 1
                      exampleNow exampleStore).1 = inl (ErrNotCondensed "sum_l" k d))
  ∧ (dissolve {| summaryID := "sum_e"; apply := true; purge := false |} 1 exampleNow
              exampleStore).1 = inl (ErrNoParents "sum_e")
  ∧ (∃ s ci, (s, ci) ∈ target_rows twiceStore 1 "sum_x"
             ∧ planLines twiceStore 1 (targetOf s ci) (parentsOfTarget twiceStore "sum_x")
               `prefix_of` w_stdout (dissolve (dissolveX true false) 1 exampleNow
                                              twiceStore).2).
Proof.
  split_and!.
  - destruct (dissolve {| summaryID := "sum_a"; apply := true; purge := false |} 1
                       exampleNow exampleStore) as [r w] eqn:E.
    destruct (dissolve_preconditions _ _ _ _ _ _ E) as (H1 & _ & _).
    apply H1. intros (s & ci & _ & Hci & _ & _ & Hsum & _). simpl in Hci, Hsum.
    repeat (apply elem_of_cons in Hci as [->|Hci]); try discriminate.
    by apply elem_of_nil in Hci.
  - destruct (dissolve {| summaryID := "sum_l"; apply := true; purge := false |} 1
                       exampleNow exampleStore) as [r w] eqn:E.
    destruct (dissolve_preconditions _ _ _ _ _ _ E) as (_ & H2 & _).
    apply H2.
    + exists (exampleSummary "sum_l" 1 "leaf" 0 "2025-01-01T06"), (summaryItem 1 4 "sum_l").
      simpl. rewrite !elem_of_cons. tauto.
    + simpl. intros s Hs Hid _.
      repeat (apply elem_of_cons in Hs as [->|Hs]); try discriminate.
      by apply elem_of_nil in Hs.
  - destruct (dissolve {| summaryID := "sum_e"; apply := true; purge := false |} 1
                       exampleNow exampleStore) as [r w] eqn:E.
    destruct (dissolve_preconditions _ _ _ _ _ _ E) as (_ & _ & H3 & _).
    apply H3.
    + exists (exampleSummary "sum_e" 1 "condensed" 1 "2025-01-01T05"), (summaryItem 1 3 "sum_e").
      simpl. rewrite !elem_of_cons. tauto.
    + simpl. intros s Hs Hid _.
      repeat (apply elem_of_cons in Hs as [->|Hs]); try discriminate; try reflexivity.
      by apply elem_of_nil in Hs.
    + simpl. intros e He.
      repeat (apply elem_of_cons in He as [->|He]); try discriminate.
      by apply elem_of_nil in He.
  - destruct (dissolve (dissolveX true false) 1 exampleNow twiceStore) as [r w] eqn:E.
    destruct (dissolve_preconditions _ _ _ _ _ _ E) as (_ & _ & _ & H4).
    apply H4; clear E H4.
    + exists (exampleSummary "sum_x" 1 "condensed" 1 "2025-01-01T04"), (summaryItem 1 1 "sum_x").
      simpl. rewrite !elem_of_cons. tauto.
    + simpl. intros s Hs Hid _.
      repeat (apply elem_of_cons in Hs as [->|Hs]); try discriminate Hid; try reflexivity.
      by apply elem_of_nil in Hs.
    + vm_compute. intros Hnil. discriminate Hnil.
Defined.

(** C4 as stated fails: sum_x occupies two ordinals of conversation 1, not
    exactly one, and the applied dissolve goes through and rewrites the
    context. *)
Lemma dissolve_twice_in_context :
  sql_count (λ r, ci_conversation_id r = 1 ∧ ci_summary_id r = Some "sum_x"%string)
            (context_items twiceStore) = 2
  ∧ (dissolve (dissolveX true false) 1 exampleNow twiceStore).1 = inr ()
  ∧ context_items (w_db (dissolve (dissolveX true false) 1 exampleNow twiceStore).2)
    = [ messageItem 1 0; summaryItem 1 4 "sum_x"; with_ordinal (messageItem 1 3) 5;
        parentItem 1 1 "sum_a" "2025-02-01"; parentItem 1 2 "sum_b" "2025-02-01";
        parentItem 1 3 "sum_c" "2025-02-01" ].
Proof. vm_compute. done. Qed.

(** ** Plan mode *)

(** C6: without [--apply] the command opens no transaction and leaves
    every table as it was, every database call being a query; it fails on
    the same preconditions with the same error and output as an applied
    run, and otherwise prints the plan report (target, parents, token
    impact, ordinal shift) that an applied run prints before it starts to
    write. *)
Theorem dry_run_only_plans opts opts' cid now st r w r' w' :
  apply opts = false →
  apply opts' = true →
  summaryID opts' = summaryID opts →
  dissolve opts cid now st = (r, w) →
  dissolve opts' cid now st = (r', w') →
  untouched st w
  ∧ match r with
    | inl e => r' = inl e ∧ w_stdout w' = w_stdout w
    | inr _ =>
        ∃ s ci rest,
          target_rows st cid (summaryID opts) = (s, ci) :: rest
          ∧ let plan := planLines st cid (targetOf s ci)
                                  (parentsOfTarget st (summaryID opts)) in
            w_stdout w = plan ++ [OutDryRun]
            ∧ (plan ++ [OutApplying]) `prefix_of` w_stdout w'
    end.
Proof.
  intros Hdry Happ Hsid Hrun Hrun'.
  rewrite runDissolveCommand_run in Hrun, Hrun'.
  rewrite Hsid, Happ in Hrun'. rewrite Hdry in Hrun.
  destruct (target_rows st cid (summaryID opts)) as [|[s ci] rest] eqn:E.
  { injection Hrun as <- <-. injection Hrun' as <- <-.
    split; [|done]. apply untouched_queries. by repeat constructor. }
  destruct (decide (s_kind s ≠ _)).
  { injection Hrun as <- <-. injection Hrun' as <- <-.
    split; [|done]. apply untouched_queries. by repeat constructor. }
  simpl in Hrun, Hrun'.
  destruct (decide (length _ = 0%nat)).
  { injection Hrun as <- <-. injection Hrun' as <- <-.
    split; [|done]. apply untouched_queries. by repeat constructor. }
  injection Hrun as <- <-.
  split; [apply untouched_queries; by repeat constructor|].
  exists s, ci, rest. split; [done|]. split; [done|].
  by apply applied_stdout in Hrun'.
Qed.

Lemma dry_run_only_plans_witness :
  untouched exampleStore (dissolve (dissolveX false false) 1 exampleNow exampleStore).2
  ∧ ∃ plan, w_stdout (dissolve (dissolveX false false) 1 exampleNow exampleStore).2
            = plan ++ [OutDryRun]
          ∧ (plan ++ [OutApplying])
              `prefix_of` w_stdout (dissolve (dissolveX true false) 1 exampleNow exampleStore).2.
Proof.
  destruct (dissolve (dissolveX false false) 1 exampleNow exampleStore) as [r w] eqn:E.
  destruct (dissolve (dissolveX true false) 1 exampleNow exampleStore) as [r' w'] eqn:E'.
  destruct (dry_run_only_plans (dissolveX false false) (dissolveX true false)
              1 exampleNow exampleStore r w r' w' eq_refl eq_refl eq_refl E E') as [Hu Hp].
  split; [exact Hu|].
  assert (r = inr ()) as -> by (apply (f_equal fst) in E; vm_compute in E; congruence).
  destruct Hp as (s & ci & rest & _ & Hout & Hpre). eauto.
Defined.

(** ** Ordinals of a conversation *)

Lemma wrap64_small z : - 2 ^ 63 <= z < 2 ^ 63 → wrap64 z = z.
Proof. intros Hz. unfold wrap64. rewrite Z.mod_small; lia. Qed.

Lemma NoDup_fmap_inj_on {A B} (f : A → B) (l : list A) x y :
  NoDup (f <$> l) → x ∈ l → y ∈ l → f x = f y → x = y.
Proof.
  induction l as [|a l IH]; simpl; [by intros _ ?%elem_of_nil|].
  rewrite NoDup_cons, !elem_of_cons. intros [Ha Hl] [->|Hx] [->|Hy] Heq; auto.
  - exfalso. apply Ha. rewrite Heq. by apply list_elem_of_fmap_2.
  - exfalso. apply Ha. rewrite <- Heq. by apply list_elem_of_fmap_2.
Qed.

Lemma NoDup_keys_filter (P : context_item → Prop) `{!∀ r, Decision (P r)} t :
  NoDup (keys t) → NoDup (keys (filter P t)).
Proof.
  induction t as [|a t IH]; simpl; [done|].
  rewrite NoDup_cons. intros [Ha Ht]. rewrite filter_cons.
  destruct (decide (P a)); [|by apply IH].
  simpl. apply NoDup_cons. split; [|by apply IH].
  intros (r & Hk & [_ Hr]%list_elem_of_filter)%list_elem_of_fmap.
  apply Ha. rewrite Hk. by apply list_elem_of_fmap_2.
Qed.

Lemma elem_of_ordinalsOf cid t x :
  x ∈ ordinalsOf cid t ↔ ∃ r, r ∈ t ∧ ci_conversation_id r = cid ∧ ci_ordinal r = x.
Proof.
  unfold ordinalsOf. rewrite list_elem_of_fmap. split.
  - intros (r & -> & [Hc Hr]%list_elem_of_filter). by exists r.
  - intros (r & Hr & Hc & <-). exists r. split; [done|]. by apply list_elem_of_filter.
Qed.

Lemma NoDup_ordinalsOf cid t : NoDup (keysOf cid t) → NoDup (ordinalsOf cid t).
Proof.
  intros Hnd. unfold ordinalsOf. apply NoDup_fmap_2_strong.
  - intros x y Hx Hy Heq.
    apply (NoDup_fmap_inj_on ci_key (filter (in_conversation cid) t)); [done..|].
    apply list_elem_of_filter in Hx as [Hx _]. apply list_elem_of_filter in Hy as [Hy _].
    unfold in_conversation, ci_key in *. congruence.
  - by apply NoDup_fmap_1 in Hnd.
Qed.

Lemma keysOf_ordinalsOf cid t : keysOf cid t = (λ x, (cid, x)) <$> ordinalsOf cid t.
Proof.
  unfold keysOf, keys, ordinalsOf. rewrite <- list_fmap_compose.
  apply Forall_fmap_ext_1, Forall_forall. intros r [Hc _]%list_elem_of_filter.
  unfold ci_key. simpl. by rewrite Hc.
Qed.

Lemma contiguous_NoDup cid t n : contiguous cid t n → NoDup (keysOf cid t).
Proof.
  intros Hc. rewrite keysOf_ordinalsOf. apply NoDup_fmap_2.
  - by intros x y [=].
  - unfold contiguous in Hc. rewrite Hc. apply NoDup_seqZ.
Qed.

Lemma keysOf_filter cid (P : context_item → Prop) `{!∀ r, Decision (P r)} t :
  NoDup (keysOf cid t) → NoDup (keysOf cid (filter P t)).
Proof.
  unfold keysOf.
  assert (filter (in_conversation cid) (filter P t)
          = filter P (filter (in_conversation cid) t)) as ->.
  { rewrite !list_filter_filter. apply list_filter_iff. tauto. }
  apply NoDup_keys_filter.
Qed.

Lemma keysOf_fmap cid (g : context_item → context_item) t :
  (∀ r, ci_conversation_id (g r) = ci_conversation_id r) →
  keysOf cid (g <$> t) = (ci_key ∘ g) <$> filter (in_conversation cid) t.
Proof.
  intros Hg. unfold keysOf, keys. induction t as [|r t IH]; [done|].
  rewrite fmap_cons.
  destruct (decide (ci_conversation_id r = cid)) as [Hc|Hc].
  - rewrite !filter_cons_True by (unfold in_conversation; by rewrite ?Hg).
    rewrite !fmap_cons. f_equal. exact IH.
  - rewrite !filter_cons_False by (unfold in_conversation; by rewrite ?Hg).
    exact IH.
Qed.

Lemma ordinalsOf_app cid a b :
  ordinalsOf cid (a ++ b) = ordinalsOf cid a ++ ordinalsOf cid b.
Proof. unfold ordinalsOf. by rewrite filter_app, fmap_app. Qed.

(** The single row a delete of count one removes. *)
Lemma deleted_row (P : context_item → Prop) `{!∀ r, Decision (P r)} t :
  sql_count P t = 1 → ∃ x, x ∈ t ∧ P x.
Proof.
  unfold sql_count. intros Hc.
  destruct (filter P t) as [|x l] eqn:E; [done|].
  exists x. assert (x ∈ filter P t) as [? ?]%list_elem_of_filter by (rewrite E; left). done.
Qed.

Lemma elem_of_keys cid x t :
  (cid, x) ∈ keys t ↔ x ∈ ordinalsOf cid t.
Proof.
  rewrite elem_of_ordinalsOf. unfold keys. rewrite list_elem_of_fmap. split.
  - intros (r & [= -> ->] & Hr). by exists r.
  - intros (r & Hr & <- & <-). by exists r.
Qed.

Lemma renumbered_spec cid o shift r :
  renumbered cid o shift r =
  if decide (ci_conversation_id r = cid)
  then with_ordinal r (renumberedOrdinal o shift (ci_ordinal r)) else r.
Proof.
  unfold renumbered, renumberedOrdinal, updated, after_ordinal, from_ordinal.
  repeat (case_decide; simpl in * );
    rewrite ?with_ordinal_twice; try done;
    try (symmetry; apply with_ordinal_same); exfalso; tauto.
Qed.

Lemma shifted_conversation cid o shift r :
  ci_conversation_id (shifted cid o shift r) = ci_conversation_id r.
Proof. unfold shifted. by destruct (decide (after_ordinal cid o r)). Qed.

Lemma shifted_ordinal cid o shift r :
  ci_conversation_id r = cid →
  ci_ordinal (shifted cid o shift r)
  = if decide (ci_ordinal r > o) then ci_ordinal r + shift else ci_ordinal r.
Proof.
  intros Hc. unfold shifted, after_ordinal.
  destruct (decide (ci_ordinal r > o)).
  - by rewrite decide_True by done.
  - by rewrite decide_False by tauto.
Qed.

(** ** What a dissolve that went through did to the context *)

Section Renumbering.
Context (cid o shift N : Z) (sid : string) (t t3 items : list context_item).
Let kept := filter (λ r, ¬ is_target_item cid o sid r) t.
Hypothesis Hcont : contiguous cid t N.
Hypothesis Hcount : sql_count (is_target_item cid o sid) t = 1.
Hypothesis Hshift : 0 <= shift.
Hypothesis Ht3 :
  if decide (shift > 0)
  then ∃ t2, shiftToTemp cid o kept = inr t2 ∧ shiftToFinal cid shift t2 = inr t3
  else t3 = kept.
Hypothesis Hitems : ∀ m, (cid, m) ∈ keys items ↔ o <= m <= o + shift.
Hypothesis Hfree : ∀ k, k ∈ keys items → k ∉ keys t3.
Hypothesis Hnew : NoDup (keys items).

Lemma in_range x : x ∈ ordinalsOf cid t ↔ 0 <= x < N.
Proof. unfold contiguous in Hcont. rewrite Hcont, elem_of_seqZ. lia. Qed.

Lemma target_in_range : 0 <= o < N.
Proof.
  destruct (deleted_row _ _ Hcount) as (x & Hx & Hc & Ho & _).
  apply in_range, elem_of_ordinalsOf. by exists x.
Qed.

Lemma kept_rows r :
  r ∈ kept ↔ r ∈ t ∧ ¬ (ci_conversation_id r = cid ∧ ci_ordinal r = o).
Proof.
  unfold kept. rewrite list_elem_of_filter. split.
  - intros [Hn Hr]. split; [done|]. intros [Hc Ho]. apply Hn.
    destruct (deleted_row _ _ Hcount) as (x & Hx & Hxc & Hxo & Hxs).
    assert (r = x) as ->; [|done].
    apply (NoDup_fmap_inj_on ci_key (filter (in_conversation cid) t)).
    + by apply contiguous_NoDup in Hcont.
    + by apply list_elem_of_filter.
    + by apply list_elem_of_filter.
    + unfold ci_key. congruence.
  - intros [Hr Hn]. split; [|done]. intros (? & ? & _). tauto.
Qed.

Lemma kept_in_range r :
  r ∈ kept → ci_conversation_id r = cid → 0 <= ci_ordinal r < N ∧ ci_ordinal r ≠ o.
Proof.
  intros [Hr Hn]%kept_rows Hc. split; [|tauto].
  apply in_range, elem_of_ordinalsOf. by exists r.
Qed.

Lemma kept_has y :
  0 <= y < N → y ≠ o → ∃ r, r ∈ kept ∧ ci_conversation_id r = cid ∧ ci_ordinal r = y.
Proof.
  intros (r & Hr & Hc & Ho)%in_range%elem_of_ordinalsOf Hne.
  exists r. split; [|done]. apply kept_rows. split; [done|]. intros [_ ?]. congruence.
Qed.

Lemma NoDup_kept : NoDup (keysOf cid kept).
Proof. apply keysOf_filter. by apply contiguous_NoDup in Hcont. Qed.

Lemma renumbered_conversation r :
  ci_conversation_id (renumbered cid o shift r) = ci_conversation_id r.
Proof.
  rewrite renumbered_spec. by destruct (decide (ci_conversation_id r = cid)).
Qed.

Lemma renumbered_table :
  shift > 0 → t3 = renumbered cid o shift <$> kept ∧ NoDup (keysOf cid t3).
Proof.
  intros Hpos. pose proof Ht3 as Hk. rewrite decide_True in Hk by done.
  destruct Hk as (t2 & H2 & H3).
  assert (NoDup (keysOf cid t2)) as Hnd2.
  { eapply sql_update_NoDup_in; [|exact NoDup_kept|exact H2]. done. }
  assert (NoDup (keysOf cid t3)) as Hnd3.
  { eapply sql_update_NoDup_in; [|exact Hnd2|exact H3]. done. }
  apply sql_update_result in H2, H3. split; [|done].
  rewrite H3, H2. by rewrite <- list_fmap_compose.
Qed.

(** Above ten million items the second statement also catches rows below
    the target; the statements and the inserts then only all go through
    when that changes nothing. *)
Lemma high_target_forces_shift :
  shift > 0 → o > tempOffset → shift = tempOffset.
Proof.
  intros Hpos Hhigh. destruct (renumbered_table Hpos) as [Ht Hnd3].
  pose proof target_in_range as Ho.
  rewrite Ht, (keysOf_fmap _ _ _ renumbered_conversation) in Hnd3.
  destruct (kept_has tempOffset) as (rT & HrT & HcT & HoT); [unfold tempOffset in *; lia..|].
  assert (ci_key (renumbered cid o shift rT) = (cid, shift)) as HkT.
  { rewrite renumbered_spec, decide_True by done. unfold ci_key. simpl. f_equal; [done|].
    unfold renumberedOrdinal. rewrite HoT. unfold tempOffset in *.
    repeat case_decide; lia. }
  destruct (decide (shift < tempOffset)) as [Hlt|Hge].
  - destruct (kept_has shift) as (rs & Hrs & Hcs & Hos); [unfold tempOffset in *; lia..|].
    assert (ci_key (renumbered cid o shift rs) = (cid, shift)) as Hks.
    { rewrite renumbered_spec, decide_True by done. unfold ci_key. simpl. f_equal; [done|].
      unfold renumberedOrdinal. rewrite Hos. unfold tempOffset in *.
      repeat case_decide; lia. }
    assert (rT = rs) as Heq.
    { apply (NoDup_fmap_inj_on (ci_key ∘ renumbered cid o shift)
               (filter (in_conversation cid) kept)); [done|..|simpl; congruence].
      - by apply list_elem_of_filter.
      - by apply list_elem_of_filter. }
    subst rs. unfold tempOffset in *. lia.
  - destruct (decide (shift = tempOffset)) as [|Hne]; [done|]. exfalso.
    set (m := Z.max o shift).
    destruct (kept_has (m - shift + tempOffset)) as (r0 & Hr0 & Hc0 & Ho0);
      [unfold tempOffset in *; lia..|].
    assert (ci_key (renumbered cid o shift r0) = (cid, m)) as Hk0.
    { rewrite renumbered_spec, decide_True by done. unfold ci_key. simpl. f_equal; [done|].
      unfold renumberedOrdinal. rewrite Ho0. unfold tempOffset in *.
      repeat case_decide; lia. }
    apply (Hfree (cid, m)).
    + apply Hitems. lia.
    + rewrite Ht, <- Hk0. by apply list_elem_of_fmap_2, list_elem_of_fmap_2.
Qed.

Lemma renumbered_row r :
  r ∈ kept → shift > 0 → renumbered cid o shift r = shifted cid o shift r.
Proof.
  intros Hr Hpos. pose proof (kept_in_range r Hr) as Hrange.
  pose proof target_in_range as Ho.
  assert (Hs : ci_ordinal r < o → ci_ordinal r >= tempOffset → shift = tempOffset).
  { intros. apply high_target_forces_shift; lia. }
  rewrite renumbered_spec. unfold shifted, after_ordinal, renumberedOrdinal.
  unfold tempOffset in *.
  repeat case_decide; try (exfalso; first [tauto|lia]).
  all: try (f_equal; lia).
  all: try apply with_ordinal_same.
  all: try done.
  all: etrans; [|apply with_ordinal_same]; f_equal; lia.
Qed.

Lemma shifted_zero r : shifted cid o 0 r = r.
Proof.
  unfold shifted. destruct (decide (after_ordinal cid o r)); [|done].
  rewrite Z.add_0_r. apply with_ordinal_same.
Qed.

Lemma dissolved_table :
  t3 = shifted cid o shift <$> kept ∧ NoDup (keysOf cid (t3 ++ items)).
Proof.
  assert (NoDup (keysOf cid t3) → NoDup (keysOf cid (t3 ++ items))) as Hall.
  { intros Hnd3. rewrite keysOf_app. apply NoDup_app. split_and!; [done| |].
    - intros k Hk3%keysOf_keys Hki%keysOf_keys. by apply (Hfree k).
    - by apply NoDup_keys_filter. }
  assert (shift > 0 ∨ shift = 0) as [Hpos|Hzero] by lia.
  - destruct (renumbered_table Hpos) as [Ht Hnd3]. split; [|by apply Hall].
    rewrite Ht. apply Forall_fmap_ext_1, Forall_forall. intros r Hr.
    by apply renumbered_row.
  - pose proof Ht3 as Hk. rewrite decide_False in Hk by lia.
    split; [|apply Hall; rewrite Hk; apply NoDup_kept].
    rewrite Hk, Hzero. rewrite <- (list_fmap_id kept) at 1.
    apply Forall_fmap_ext_1, Forall_forall. intros r _. symmetry. apply shifted_zero.
Qed.

Lemma dissolved_contiguous : contiguous cid (t3 ++ items) (N + shift).
Proof.
  destruct dissolved_table as [Ht Hall]. pose proof target_in_range as Ho.
  unfold contiguous. apply NoDup_Permutation.
  - by apply NoDup_ordinalsOf.
  - apply NoDup_seqZ.
  - intros x. rewrite ordinalsOf_app, elem_of_app, elem_of_seqZ.
    rewrite <- (elem_of_keys cid x items), Hitems.
    rewrite elem_of_ordinalsOf. split.
    + intros [Hl|Hx]; [|lia]. destruct Hl as (r' & Hr' & Hc & Hx).
      rewrite Ht in Hr'. apply list_elem_of_fmap in Hr' as (r & -> & Hr).
      rewrite shifted_conversation in Hc.
      pose proof (kept_in_range r Hr Hc). subst x.
      rewrite shifted_ordinal by done. destruct (decide (ci_ordinal r > o)); lia.
    + intros Hx.
      destruct (decide (x < o)) as [Hlow|Hhigh].
      * left. destruct (kept_has x) as (r & Hr & Hc & Hox); [lia..|].
        exists (shifted cid o shift r). split_and!.
        -- rewrite Ht. by apply list_elem_of_fmap_2.
        -- by rewrite shifted_conversation.
        -- rewrite shifted_ordinal by done. destruct (decide (ci_ordinal r > o)); lia.
      * destruct (decide (x <= o + shift)) as [Hmid|Htop]; [right; lia|].
        left. destruct (kept_has (x - shift)) as (r & Hr & Hc & Hox); [lia..|].
        exists (shifted cid o shift r). split_and!.
        -- rewrite Ht. by apply list_elem_of_fmap_2.
        -- by rewrite shifted_conversation.
        -- rewrite shifted_ordinal by done. destruct (decide (ci_ordinal r > o)); lia.
Qed.
End Renumbering.

(** ** The table an applied dissolve leaves *)

Lemma filter_ext_in {A} (P Q : A → Prop) `{!∀ x, Decision (P x), !∀ x, Decision (Q x)}
  (l : list A) :
  (∀ x, x ∈ l → P x ↔ Q x) → filter P l = filter Q l.
Proof.
  induction l as [|a l IH]; intros Hiff; [done|].
  rewrite !filter_cons. rewrite IH by (intros x Hx; apply Hiff; by right).
  destruct (decide (P a)) as [HP|HP], (decide (Q a)) as [HQ|HQ]; try done.
  - exfalso. apply HQ, (Hiff a); [left|done].
  - exfalso. apply HP, (Hiff a); [left|done].
Qed.

Lemma parentItems_unwrapped cid o now parents :
  0 <= o → o + Z.of_nat (length parents) <= 2 ^ 63 →
  imap (λ j p, parentItem cid (wrap64 (o + Z.of_nat j)) (dp_summaryID p) (now j)) parents
  = parentItems cid o now 0 parents.
Proof.
  intros Ho Hk. unfold parentItems. apply imap_ext. intros j p Hj. simpl.
  apply lookup_lt_Some in Hj. rewrite wrap64_small; [done|lia].
Qed.

Lemma parentItems_keys cid o now parents m :
  (cid, m) ∈ keys (parentItems cid o now 0 parents)
  ↔ o <= m <= o + (Z.of_nat (length parents) - 1).
Proof.
  unfold keys, parentItems. rewrite list_elem_of_fmap. split.
  - intros (r & [= _ Hm] & (j & p & -> & Hj%lookup_lt_Some)%elem_of_lookup_imap).
    simpl in Hm. lia.
  - intros Hm. destruct (lookup_lt_is_Some_2 parents (Z.to_nat (m - o))) as [p Hp]; [lia|].
    eexists. split; [|eapply elem_of_lookup_imap_2, Hp].
    unfold ci_key. simpl. f_equal. lia.
Qed.

(** An applied dissolve that goes through, on a conversation whose
    ordinals are 0..N-1. *)
Lemma dissolve_applied opts cid now st w N :
  apply opts = true →
  contiguous cid (context_items st) N →
  N + Z.of_nat (length (parentsOfTarget st (summaryID opts))) - 1 <= 2 ^ 63 →
  dissolve opts cid now st = (inr (), w) →
  let sid := summaryID opts in
  let parents := parentsOfTarget st sid in
  let shift := Z.of_nat (length parents) - 1 in
  ∃ s ci rest,
    target_rows st cid sid = (s, ci) :: rest
    ∧ parents ≠ []
    ∧ 0 <= ci_ordinal ci < N
    ∧ context_items (w_db w)
      = (shifted cid (ci_ordinal ci) shift
           <$> filter (λ r, ¬ (ci_conversation_id r = cid ∧ ci_ordinal r = ci_ordinal ci))
                      (context_items st))
        ++ parentItems cid (ci_ordinal ci) now 0 parents
    ∧ contiguous cid (context_items (w_db w)) (N + shift)
    ∧ w_tx w = None.
Proof.
  intros Happ Hcont Hrange Hrun sid parents shift.
  rewrite runDissolveCommand_run in Hrun. fold sid in Hrun.
  destruct (target_rows st cid sid) as [|[s ci] rest] eqn:E; [done|].
  destruct (decide (s_kind s ≠ _)) as [|Hkind]; [done|]. simpl in Hrun. fold parents in Hrun.
  destruct (decide (length parents = 0%nat)) as [|Hlen]; [done|].
  rewrite Happ in Hrun.
  apply bind_inr in Hrun as ([] & w1 & Htx & Hrest).
  apply bind_inr in Hrest as (cnt & w2 & [= <- <-] & [_ (Hdb & Htxw)]%printLine_inv).
  simpl in Hdb, Htxw.
  unfold dissolveTx in Htx. apply bind_inr in Htx as ([] & wb & [= <-] & Hdefer).
  unfold deferRollback in Hdefer.
  destruct (applyDissolve _ _ _ _ _ _ _ _) as [[e|[]] w1'] eqn:Happly; [done|].
  injection Hdefer as ->.
  eapply applyDissolve_inr in Happly; [|reflexivity].
  destruct Happly as (t3 & Hcount & Ht3 & Hfree & Hnew & Hnone & Hctx & _).
  simpl in Hcount, Ht3, Hfree, Hnew, Hctx. fold shift in Ht3.
  assert ((s, ci) ∈ target_rows st cid sid) as Hin by (rewrite E; left).
  apply target_rows_elem in Hin as (Hs & Hci & Hsum & Hcc & Hid & Hconv).
  rewrite Hid in *.
  assert (0 <= shift) as Hshift by (unfold shift; destruct parents; simpl in *; [done|lia]).
  pose proof (target_in_range cid (ci_ordinal ci) N sid (context_items st) Hcont Hcount) as Ho.
  assert (ci_ordinal ci + Z.of_nat (length parents) <= 2 ^ 63) as Hfit
    by (unfold parents, sid; lia).
  rewrite (parentItems_unwrapped cid (ci_ordinal ci) now parents) in * by lia.
  pose proof (dissolved_table cid (ci_ordinal ci) shift N sid (context_items st) t3
                (parentItems cid (ci_ordinal ci) now 0 parents) Hcont Hcount Hshift Ht3
                (parentItems_keys _ _ _ _) Hfree Hnew) as [Ht Hnd].
  pose proof (dissolved_contiguous cid (ci_ordinal ci) shift N sid (context_items st) t3
                (parentItems cid (ci_ordinal ci) now 0 parents) Hcont Hcount Hshift Ht3
                (parentItems_keys _ _ _ _) Hfree Hnew) as Hc.
  exists s, ci, rest.
  split; [done|]. split; [by destruct parents|]. split; [done|].
  split; [|split; [by rewrite Hdb, Hctx|by rewrite Htxw]].
  rewrite Hdb, Hctx, Ht. f_equal. f_equal. apply filter_ext_in.
  intros r Hr.
  pose proof (kept_rows cid (ci_ordinal ci) N sid (context_items st) Hcont Hcount r) as Hk.
  rewrite list_elem_of_filter in Hk. tauto.
Qed.

(** An applied dissolve that goes through leaves the items of every other
    conversation as they were. *)
Lemma dissolve_other_conversations opts cid now st w c :
  apply opts = true →
  dissolve opts cid now st = (inr (), w) →
  c ≠ cid →
  filter (in_conversation c) (context_items (w_db w))
  = filter (in_conversation c) (context_items st).
Proof.
  intros Happ Hrun Hc.
  rewrite runDissolveCommand_run in Hrun.
  destruct (target_rows st cid (summaryID opts)) as [|[s ci] rest] eqn:E; [done|].
  destruct (decide (s_kind s ≠ _)) as [|Hkind]; [done|]. simpl in Hrun.
  destruct (decide (length _ = 0%nat)) as [|Hlen]; [done|].
  rewrite Happ in Hrun.
  apply bind_inr in Hrun as ([] & w1 & Htx & Hrest).
  apply bind_inr in Hrest as (cnt & w2 & [= <- <-] & [_ (Hdb & _)]%printLine_inv).
  simpl in Hdb.
  unfold dissolveTx in Htx. apply bind_inr in Htx as ([] & wb & [= <-] & Hdefer).
  unfold deferRollback in Hdefer.
  destruct (applyDissolve _ _ _ _ _ _ _ _) as [[e|[]] w1'] eqn:Happly; [done|].
  injection Hdefer as ->.
  eapply applyDissolve_inr in Happly; [|reflexivity].
  destruct Happly as (t3 & _ & Ht3 & _ & _ & _ & Hctx & _).
  simpl in Ht3, Hctx. rewrite Hdb, Hctx, filter_app.
  rewrite (filter_none _ (imap _ _)), app_nil_r.
  - assert (filter (in_conversation c)
              (filter (λ r, ¬ is_target_item cid (ci_ordinal ci) (s_summary_id s) r)
                      (context_items st))
            = filter (in_conversation c) (context_items st)) as Hkept.
    { rewrite list_filter_filter. apply list_filter_iff. intros r.
      unfold in_conversation, is_target_item. split; [tauto|]. intros Hr.
      split; [done|]. intros (Hcid & _). congruence. }
    destruct (decide (_ > 0)); [|by rewrite Ht3].
    destruct Ht3 as (t2 & H2 & H3).
    apply sql_update_result in H2, H3. subst t2 t3.
    rewrite !filter_updated; [done|..].
    + intros r [Hr _]. unfold in_conversation in *. simpl. split; congruence.
    + intros r [Hr _]. unfold in_conversation in *. simpl. split; congruence.
  - apply Forall_forall. intros r (j & p & -> & _)%elem_of_lookup_imap.
    unfold in_conversation. simpl. congruence.
Qed.

(** ** Contiguity and replacement *)

Lemma contiguous_count cid t n :
  0 <= n → contiguous cid t n → sql_count (in_conversation cid) t = n.
Proof.
  intros Hn Hc. unfold sql_count. unfold contiguous, ordinalsOf in Hc.
  apply Permutation_length in Hc. rewrite length_fmap, length_seqZ in Hc. lia.
Qed.

#[global] Instance parent_le_total : Total parent_le.
Proof. intros p q. unfold parent_le. lia. Qed.

(** C1: for every conversation whose ordinals are 0..N-1, once an applied
    dissolve has gone through its ordinals are 0..N'-1, each held once:
    N' = N + k - 1 in the conversation dissolved, for the k parents put
    back (N' within the range of the 64-bit ordinal column), and N' = N in
    every other conversation. *)
Theorem dissolve_keeps_contiguity opts cid now st w c N :
  apply opts = true →
  contiguous c (context_items st) N →
  (c = cid → N + Z.of_nat (length (parentsOfTarget st (summaryID opts))) - 1 <= 2 ^ 63) →
  dissolve opts cid now st = (inr (), w) →
  contiguous c (context_items (w_db w))
             (if decide (c = cid)
              then N + Z.of_nat (length (parentsOfTarget st (summaryID opts))) - 1
              else N).
Proof.
  intros Happ Hcont Hrange Hrun. destruct (decide (c = cid)) as [->|Hc].
  - destruct (dissolve_applied opts cid now st w N Happ Hcont (Hrange eq_refl) Hrun)
      as (s & ci & rest & _ & _ & _ & _ & Hcid & _).
    by rewrite <- Z.add_sub_assoc.
  - unfold contiguous, ordinalsOf in *.
    by rewrite (dissolve_other_conversations opts cid now st w c Happ Hrun Hc).
Qed.

Lemma dissolve_keeps_contiguity_witness :
  let w := (dissolve (dissolveX true false) 1 exampleNow exampleStore).2 in
  contiguous 1 (context_items (w_db w)) 7 ∧ contiguous 2 (context_items (w_db w)) 1.
Proof.
  intros w. split.
  - apply (dissolve_keeps_contiguity (dissolveX true false) 1 exampleNow exampleStore _ 1 5).
    + reflexivity.
    + vm_compute. reflexivity.
    + intros _. vm_compute. discriminate.
    + vm_compute. reflexivity.
  - apply (dissolve_keeps_contiguity (dissolveX true false) 1 exampleNow exampleStore _ 2 1).
    + reflexivity.
    + vm_compute. reflexivity.
    + intros [=].
    + vm_compute. reflexivity.
Defined.

(** C2 (amended): on a conversation whose ordinals are 0..N-1, an applied
    dissolve that goes through, with k >= 1 parents loaded (the parent
    edges of the target whose parent summary row exists, in ascending edge
    ordinal), removes the item at the target's ordinal o, adds k - 1 to
    the ordinal of every item of the conversation above o, leaves every
    other item as it was, and adds one item per parent, the i-th parent at
    o + i; the conversation's item count changes by k - 1. *)
Theorem dissolve_replaces_target opts cid now st w N :
  apply opts = true →
  contiguous cid (context_items st) N →
  N + Z.of_nat (length (parentsOfTarget st (summaryID opts))) - 1 <= 2 ^ 63 →
  dissolve opts cid now st = (inr (), w) →
  let sid := summaryID opts in
  let parents := parentsOfTarget st sid in
  let k := Z.of_nat (length parents) in
  ∃ target,
    target ∈ context_items st
    ∧ ci_conversation_id target = cid
    ∧ ci_summary_id target = Some sid
    ∧ 1 <= k
    ∧ Sorted parent_le parents
    ∧ parents ≡ₚ parent_rows st sid
    ∧ context_items (w_db w)
      = (shifted cid (ci_ordinal target) (k - 1)
           <$> filter (λ r, ¬ (ci_conversation_id r = cid
                               ∧ ci_ordinal r = ci_ordinal target))
                      (context_items st))
        ++ parentItems cid (ci_ordinal target) now 0 parents
    ∧ sql_count (in_conversation cid) (context_items (w_db w))
      = sql_count (in_conversation cid) (context_items st) + (k - 1).
Proof.
  intros Happ Hcont Hrange Hrun sid parents k.
  destruct (dissolve_applied opts cid now st w N Happ Hcont Hrange Hrun)
    as (s & ci & rest & E & Hne & Ho & Hctx & Hc & _).
  assert ((s, ci) ∈ target_rows st cid sid) as Hin by (unfold sid; rewrite E; left).
  apply target_rows_elem in Hin as (Hs & Hci & Hsum & Hcc & Hid & Hconv).
  fold sid parents in Hne, Hctx, Hc. fold k in Hctx, Hc.
  assert (1 <= k) as Hk by (unfold k; destruct parents; simpl in *; [done|lia]).
  exists ci. split_and!; try done.
  - congruence.
  - congruence.
  - apply Sorted_merge_sort. apply _.
  - apply merge_sort_Permutation.
  - apply contiguous_count in Hc; [|lia]. apply contiguous_count in Hcont; [|lia].
    rewrite Hc, Hcont. done.
Qed.

Lemma dissolve_replaces_target_witness :
  context_items (w_db (dissolve (dissolveX true false) 1 exampleNow exampleStore).2)
  = [ messageItem 1 0; messageItem 1 1; messageItem 2 0;
      summaryItem 1 5 "sum_e"; summaryItem 1 6 "sum_l";
      parentItem 1 2 "sum_a" "2025-02-01"; parentItem 1 3 "sum_b" "2025-02-01";
      parentItem 1 4 "sum_c" "2025-02-01" ].
Proof.
  destruct (dissolve_replaces_target (dissolveX true false) 1 exampleNow exampleStore
              (dissolve (dissolveX true false) 1 exampleNow exampleStore).2 5)
    as (target & Hin & Hc & Hs & _ & _ & _ & Hctx & _).
  - reflexivity.
  - vm_compute. reflexivity.
  - vm_compute. discriminate.
  - vm_compute. reflexivity.
  - rewrite Hctx. clear Hctx.
    assert (target = summaryItem 1 2 "sum_x") as ->.
    { simpl in Hin, Hs.
      repeat (apply elem_of_cons in Hin as [->|Hin]); try discriminate; try reflexivity.
      by apply elem_of_nil in Hin. }
    vm_compute. reflexivity.
Defined.

(** C2 as stated fails: in [danglingStore] sum_x has two parent edges, one
    of them to a summary whose row is gone; the applied dissolve goes
    through, puts back one parent and leaves the item count at 5. *)
Lemma dissolve_dangling_edge :
  length (filter (λ e, sp_summary_id e = "sum_x"%string) (summary_parents danglingStore)) = 2%nat
  ∧ contiguous 1 (context_items danglingStore) 5
  ∧ (dissolve (dissolveX true false) 1 exampleNow danglingStore).1 = inr ()
  ∧ context_items (w_db (dissolve (dissolveX true false) 1 exampleNow danglingStore).2)
    = [ messageItem 1 0; messageItem 1 1; messageItem 2 0;
        summaryItem 1 3 "sum_e"; summaryItem 1 4 "sum_l";
        parentItem 1 2 "sum_a" "2025-02-01" ]
  ∧ sql_count (in_conversation 1)
      (context_items (w_db (dissolve (dissolveX true false) 1 exampleNow danglingStore).2))
    ≠ sql_count (in_conversation 1) (context_items danglingStore) + (2 - 1).
Proof. vm_compute. split_and!; try reflexivity. discriminate. Qed.

(** ** A conversation of more than ten million items *)

Lemma update_from_conflict (P : context_item → Prop) `{!∀ r, Decision (P r)} f done r rest :
  P r → ci_key (f r) ∈ keys (done ++ rest) →
  update_from P f done (r :: rest)
  = inl (ErrConstraint (ci_conversation_id (f r)) (ci_ordinal (f r))).
Proof. intros HP Hin. simpl. rewrite decide_True by done. by rewrite decide_True. Qed.

Lemma update_states_head (P : context_item → Prop) `{!∀ r, Decision (P r)} f done r rest :
  P r →
  update_states P f done (r :: rest)
  = (done ++ f r :: rest) :: update_states P f (done ++ [f r]) rest.
Proof. intros HP. simpl. by rewrite decide_True. Qed.

Lemma filter_all {A} (P : A → Prop) `{!∀ x, Decision (P x)} (l : list A) :
  Forall P l → filter P l = l.
Proof.
  induction 1 as [|x l Hx Hl IH]; [done|]. rewrite filter_cons_True by done. by rewrite IH.
Qed.

Section Messages.
Context (cid : Z) (l : list Z).

Lemma messages_ordinals : ordinalsOf cid (messageItem cid <$> l) = l.
Proof.
  unfold ordinalsOf. rewrite filter_all.
  - rewrite <- list_fmap_compose. rewrite <- (list_fmap_id l) at 2.
    apply Forall_fmap_ext_1, Forall_forall. by intros.
  - apply Forall_fmap, Forall_forall. by intros.
Qed.

Lemma messages_NoDup : NoDup l → NoDup (keys (messageItem cid <$> l)).
Proof.
  intros Hl. unfold keys. rewrite <- list_fmap_compose. apply NoDup_fmap_2; [|done].
  by intros x y [=].
Qed.

Context (o y : Z).
Hypothesis Habove : y > o.
Hypothesis Htaken : y + tempOffset ∈ l.

Lemma moved_key_taken :
  ci_key (with_ordinal (messageItem cid y) (y + tempOffset))
  ∈ keys ([] ++ (messageItem cid <$> l)).
Proof.
  rewrite app_nil_l. unfold keys. apply list_elem_of_fmap.
  exists (messageItem cid (y + tempOffset)). split; [done|].
  by apply list_elem_of_fmap_2.
Qed.

Lemma messages_collide :
  shiftToTemp cid o (messageItem cid <$> y :: l) = inl (ErrConstraint cid (y + tempOffset)).
Proof.
  unfold shiftToTemp, sql_update. rewrite fmap_cons.
  rewrite update_from_conflict; [done|by split|apply moved_key_taken].
Qed.

Lemma messages_meet shift :
  ¬ Forall (λ s, NoDup (keys s)) (twoPhaseStates cid o shift (messageItem cid <$> y :: l)).
Proof.
  unfold twoPhaseStates. rewrite fmap_cons.
  rewrite update_states_head by (by split).
  intros Hall. apply Forall_app in Hall as [Hall _]. apply Forall_cons in Hall as [Hnd _].
  pose proof moved_key_taken as Hin.
  rewrite app_nil_l in Hnd, Hin. unfold keys in Hnd. rewrite fmap_cons in Hnd.
  apply NoDup_cons in Hnd as [Hnd _]. by apply Hnd.
Qed.
End Messages.

Lemma crowded_rows :
  crowded = messageItem 1 <$> 1 :: seqZ (Z.succ 1) (Z.pred (tempOffset + 1)).
Proof.
  unfold crowded. rewrite seqZ_cons by (unfold tempOffset; lia). reflexivity.
Qed.

Lemma crowdedConversation_rows : crowdedConversation = messageItem 1 0 :: crowded.
Proof.
  unfold crowdedConversation, crowded.
  rewrite (seqZ_cons 0) by (unfold tempOffset; lia). rewrite fmap_cons.
  repeat f_equal; try (unfold tempOffset; lia).
Qed.

(** C5 as stated fails.  Take the conversation whose ordinals are
    0..10,000,001, delete the item at ordinal 0 and shift by one: the first
    row the first statement writes moves from ordinal 1 to ordinal
    10,000,001, which the last row of the conversation still holds, so the
    statement hits the uniqueness constraint. *)
Lemma two_phase_collision :
  contiguous 1 crowdedConversation (tempOffset + 2)
  ∧ crowdedConversation = messageItem 1 0 :: crowded
  ∧ NoDup (keys crowded)
  ∧ shiftToTemp 1 0 crowded = inl (ErrConstraint 1 (1 + tempOffset))
  ∧ ¬ Forall (λ s, NoDup (keys s)) (twoPhaseStates 1 0 1 crowded).
Proof.
  assert (Htaken : 1 + tempOffset ∈ seqZ (Z.succ 1) (Z.pred (tempOffset + 1))).
  { apply elem_of_seqZ. unfold tempOffset. lia. }
  split; [|split; [|split; [|split]]].
  - unfold contiguous, crowdedConversation. rewrite messages_ordinals. reflexivity.
  - apply crowdedConversation_rows.
  - unfold crowded. apply messages_NoDup, NoDup_seqZ.
  - rewrite crowded_rows. apply messages_collide; [lia|exact Htaken].
  - rewrite crowded_rows. apply messages_meet; [lia|exact Htaken].
Qed.

(** ** The display traversal *)

Section Traversal.
Context (graph : summaryGraph).

Lemma walk_children_ok fuel depth path children :
  (∀ childID rows, ∃ rows',
      walk fuel graph childID depth (rows, path) = Some (rows', path)) →
  ∀ rows, ∃ rows',
    foldl (λ acc childID, acc ≫= walk fuel graph childID depth) (Some (rows, path)) children
    = Some (rows', path).
Proof.
  intros Hwalk. induction children as [|c children IH]; intros rows; simpl.
  - by exists rows.
  - destruct (Hwalk c rows) as [rows1 ->]. apply IH.
Qed.

(** A call returns, with the path it was given, whenever the fuel exceeds
    the number of graph nodes that are not on the path. *)
Lemma walk_returns fuel : ∀ summaryID depth rows (path : gset string),
  (size (dom (g_nodes graph) ∖ path) < fuel)%nat →
  ∃ rows', walk fuel graph summaryID depth (rows, path) = Some (rows', path).
Proof.
  induction fuel as [|fuel IH]; intros summaryID depth rows path Hfuel; [lia|].
  simpl. destruct (decide (summaryID ∈ path)) as [|Hnew]; [by eexists|].
  destruct (g_nodes graph !! summaryID) as [node|] eqn:Hnode; [|by eexists].
  destruct (n_expanded node); simpl; [|by eexists].
  destruct (walk_children_ok fuel (wrap64 (depth + 1)) ({[summaryID]} ∪ path)
              (n_children node)) with (rows := rows ++ [mkSummaryRow summaryID depth])
    as [rows' ->].
  - intros childID rows0. apply IH.
    assert (dom (g_nodes graph) ∖ ({[summaryID]} ∪ path) ⊂ dom (g_nodes graph) ∖ path) as Hsub.
    { assert (summaryID ∈ dom (g_nodes graph)) by (apply elem_of_dom; eauto).
      set_solver. }
    apply subset_size in Hsub. lia.
  - exists rows'. do 2 f_equal. set_solver.
Qed.

Lemma walk_children_none fuel depth children :
  foldl (λ acc childID, acc ≫= walk fuel graph childID depth) None children = None.
Proof. induction children as [|c children IH]; [done|]. apply IH. Qed.

Lemma walk_children_mono fuel fuel' depth children :
  (∀ childID st r, walk fuel graph childID depth st = Some r →
                   walk fuel' graph childID depth st = Some r) →
  ∀ acc r,
    foldl (λ acc childID, acc ≫= walk fuel graph childID depth) acc children = Some r →
    foldl (λ acc childID, acc ≫= walk fuel' graph childID depth) acc children = Some r.
Proof.
  intros Hwalk. induction children as [|c children IH]; intros acc r; simpl; [done|].
  destruct acc as [st|]; simpl; [|by rewrite walk_children_none].
  destruct (walk fuel graph c depth st) as [st1|] eqn:E; [|by rewrite walk_children_none].
  rewrite (Hwalk _ _ _ E). apply IH.
Qed.

(** More fuel does not change what a call returns. *)
Lemma walk_mono fuel : ∀ fuel' summaryID depth st r,
  (fuel ≤ fuel')%nat →
  walk fuel graph summaryID depth st = Some r →
  walk fuel' graph summaryID depth st = Some r.
Proof.
  induction fuel as [|fuel IH]; intros fuel' summaryID depth [rows path] r Hle; [done|].
  destruct fuel' as [|fuel']; [lia|]. simpl.
  destruct (decide (summaryID ∈ path)); [done|].
  destruct (g_nodes graph !! summaryID) as [node|]; [|done].
  destruct (n_expanded node); simpl; [|done].
  destruct (foldl _ _ _) as [[rows1 path1]|] eqn:E; [|done].
  intros [= <-].
  assert (Hw : ∀ childID st r0,
             walk fuel graph childID (wrap64 (depth + 1)) st = Some r0 →
             walk fuel' graph childID (wrap64 (depth + 1)) st = Some r0).
  { intros childID st r0. apply IH. lia. }
  by rewrite (walk_children_mono fuel fuel' _ _ Hw _ _ E).
Qed.

Lemma buildSummaryRowsFrom_mono fuel fuel' rows :
  (fuel ≤ fuel')%nat →
  buildSummaryRowsFrom fuel graph = Some rows →
  buildSummaryRowsFrom fuel' graph = Some rows.
Proof.
  intros Hle. unfold buildSummaryRowsFrom.
  generalize (Some [] : option (list summaryRow)).
  induction (g_roots graph) as [|r roots IH]; intros acc; simpl; [done|].
  destruct acc as [rows0|]; simpl.
  - destruct (walk fuel graph r 0 (rows0, ∅)) as [st|] eqn:E; simpl.
    + rewrite (walk_mono _ _ _ _ _ _ Hle E). apply IH.
    + intros Hnone. exfalso. revert Hnone. clear.
      induction roots as [|r' roots IH]; [done|]. apply IH.
  - intros Hnone. exfalso. revert Hnone. clear.
    induction roots as [|r' roots IH]; [done|]. apply IH.
Qed.

Lemma buildSummaryRowsFrom_returns fuel :
  (size (g_nodes graph) < fuel)%nat → is_Some (buildSummaryRowsFrom fuel graph).
Proof.
  intros Hfuel. unfold buildSummaryRowsFrom.
  assert (∀ roots rows, is_Some (foldl (λ acc rootID,
             rows ← acc; st ← walk fuel graph rootID 0 (rows, ∅); Some st.1)
             (Some rows) roots)) as Hall; [|apply Hall].
  induction roots as [|r roots IH]; intros rows; simpl; [done|].
  destruct (walk_returns fuel r 0 rows ∅) as [rows' ->]; [|apply IH].
  rewrite difference_empty_L, size_dom. done.
Qed.
End Traversal.

(** C8: the traversal that flattens a summary graph into rows returns a
    row list for every graph, cyclic or not: a node already on the current
    path is not descended into again, so the recursion is never deeper
    than the number of nodes plus one, and any greater bound on the depth
    gives the same rows. *)
Theorem buildSummaryRows_terminates (graph : summaryGraph) :
  ∃ rows, buildSummaryRows graph = Some rows
          ∧ ∀ fuel, (size (g_nodes graph) < fuel)%nat →
                    buildSummaryRowsFrom fuel graph = Some rows.
Proof.
  destruct (buildSummaryRowsFrom_returns graph (S (size (g_nodes graph)))) as [rows Hrows];
    [lia|].
  exists rows. split; [done|]. intros fuel Hfuel.
  apply (buildSummaryRowsFrom_mono graph (S (size (g_nodes graph)))); [lia|done].
Qed.

(** ** The graph reader *)

Section GraphFacts.
Context (sanitizeForTerminal : string → string) (st : store) (cid : Z).

Lemma loadSummaryNodes_fold (l : list summary) : ∀ (acc : gmap string summaryNode) id,
  let nodes := foldl (λ (nodes : gmap string summaryNode) (s : summary),
                        <[ s_summary_id s := scanNode sanitizeForTerminal s ]> nodes) acc l in
  (is_Some (nodes !! id) ↔ is_Some (acc !! id) ∨ ∃ s, s ∈ l ∧ s_summary_id s = id)
  ∧ (∀ n, nodes !! id = Some n → acc !! id = Some n ∨ n_children n = []).
Proof.
  induction l as [|s l IH]; intros acc id; simpl.
  - split; [|by left]. split; [by left|]. intros [?|(s & Hs & _)]; [done|].
    by apply elem_of_nil in Hs.
  - destruct (IH (<[s_summary_id s := scanNode sanitizeForTerminal s]> acc) id)
      as [Hdom Hch]. split.
    + rewrite Hdom. rewrite lookup_insert_is_Some. split.
      * intros [[Hi|[_ Ha]]|(s' & Hs' & Hid)].
        -- right. exists s. split; [left|done].
        -- by left.
        -- right. exists s'. split; [by right|done].
      * intros [Ha|(s' & [->|Hs']%elem_of_cons & Hid)].
        -- destruct (decide (s_summary_id s = id)); [left; by left|left; right; done].
        -- left. by left.
        -- right. by exists s'.
    + intros n Hn. destruct (Hch n Hn) as [Hacc|Hnil]; [|by right].
      apply lookup_insert_Some in Hacc as [[_ <-]|[_ Ha]]; [by right|by left].
Qed.

Lemma loadSummaryNodes_dom id :
  is_Some (loadSummaryNodes sanitizeForTerminal st cid !! id) ↔ summaryIn st cid id.
Proof.
  unfold loadSummaryNodes.
  destruct (loadSummaryNodes_fold
              (filter (λ s, s_conversation_id s = cid) (summaries st)) ∅ id) as [Hdom _].
  rewrite Hdom. rewrite lookup_empty. unfold summaryIn. split.
  - intros [[? [=]]|(s & [Hc Hs]%list_elem_of_filter & Hid)]. by exists s.
  - intros (s & Hs & Hid & Hc). right. exists s. split; [|done].
    by apply list_elem_of_filter.
Qed.

Lemma loadSummaryNodes_children id n :
  loadSummaryNodes sanitizeForTerminal st cid !! id = Some n → n_children n = [].
Proof.
  unfold loadSummaryNodes. intros Hn.
  destruct (loadSummaryNodes_fold
              (filter (λ s, s_conversation_id s = cid) (summaries st)) ∅ id) as [_ Hch].
  destruct (Hch n Hn) as [He|]; [|done]. by rewrite lookup_empty in He.
Qed.

Lemma edge_rows_elem p c :
  (p, c) ∈ edge_rows st cid ↔
  ∃ e, e ∈ summary_parents st ∧ sp_parent_summary_id e = p ∧ sp_summary_id e = c
       ∧ summaryIn st cid c.
Proof.
  unfold edge_rows. rewrite list_elem_of_bind. split.
  - intros (e & (s & Hin & Hs)%list_elem_of_bind & He).
    case_decide as Hd; [|by apply not_elem_of_nil in Hin].
    apply list_elem_of_singleton in Hin as [= -> ->]. destruct Hd as [Hid Hc].
    exists e. split_and!; try done. exists s. by rewrite Hid.
  - intros (e & He & <- & <- & s & Hs & Hid & Hc). exists e. split; [|done].
    apply list_elem_of_bind. exists s. split; [|done].
    rewrite decide_True by done. by apply list_elem_of_singleton.
Qed.

(** What one edge does to the node map and the child set. *)
Lemma addEdge_step nodes childSet p c nodes' childSet' :
  addEdge (nodes, childSet) (p, c) = (nodes', childSet') →
  (∀ id, is_Some (nodes' !! id) ↔ is_Some (nodes !! id))
  ∧ (∀ x, x ∈ childSet' ↔ x ∈ childSet
                            ∨ (x = c ∧ is_Some (nodes !! p) ∧ is_Some (nodes !! c)))
  ∧ (∀ id n x, nodes' !! id = Some n → x ∈ n_children n →
               (∃ n0, nodes !! id = Some n0 ∧ x ∈ n_children n0)
               ∨ (id = p ∧ x = c ∧ is_Some (nodes !! p) ∧ is_Some (nodes !! c))).
Proof.
  unfold addEdge.
  destruct (nodes !! p) as [pn|] eqn:Hp, (nodes !! c) as [cn|] eqn:Hc;
    intros [= <- <-].
  - split_and!.
    + intros id. rewrite lookup_insert_is_Some.
      destruct (decide (p = id)) as [<-|]; [rewrite Hp|]; naive_solver.
    + intros x. rewrite elem_of_union, elem_of_singleton. naive_solver.
    + intros id n x [(<- & <-)|[Hne Hn]]%lookup_insert_Some Hx.
      * simpl in Hx. apply elem_of_app in Hx as [Hx|Hx].
        -- left. eauto.
        -- apply list_elem_of_singleton in Hx as ->. right. split_and!; try done; by eexists.
      * left. eauto.
  - split_and!; [done| |by eauto]. intros x. split; [by left|].
    intros [?|(_ & _ & [? [=]])]; done.
  - split_and!; [done| |by eauto]. intros x. split; [by left|].
    intros [?|(_ & [? [=]] & _)]; done.
  - split_and!; [done| |by eauto]. intros x. split; [by left|].
    intros [?|(_ & [? [=]] & _)]; done.
Qed.

Lemma populate_fold rows : ∀ nodes childSet nodes' childSet',
  foldl addEdge (nodes, childSet) rows = (nodes', childSet') →
  (∀ id, is_Some (nodes' !! id) ↔ is_Some (nodes !! id))
  ∧ (∀ x, x ∈ childSet' ↔
          x ∈ childSet
          ∨ ∃ p, (p, x) ∈ rows ∧ is_Some (nodes !! p) ∧ is_Some (nodes !! x))
  ∧ (∀ id n x, nodes' !! id = Some n → x ∈ n_children n →
               (∃ n0, nodes !! id = Some n0 ∧ x ∈ n_children n0)
               ∨ ((id, x) ∈ rows ∧ is_Some (nodes !! id) ∧ is_Some (nodes !! x))).
Proof.
  induction rows as [|[p c] rows IH]; intros nodes childSet nodes' childSet'; cbn [foldl].
  - intros [= <- <-]. split_and!; [done| |by eauto].
    intros x. split; [by left|]. intros [?|(p & Hp%elem_of_nil & _)]; done.
  - destruct (addEdge (nodes, childSet) (p, c)) as [nodes1 childSet1] eqn:Hstep.
    apply addEdge_step in Hstep as (Hd1 & Hc1 & Hch1).
    intros (Hd2 & Hc2 & Hch2)%IH. split_and!.
    + intros id. by rewrite Hd2, Hd1.
    + intros x. rewrite Hc2, Hc1. setoid_rewrite Hd1. setoid_rewrite elem_of_cons.
      split.
      * intros [[?|(-> & ? & ?)]|(p' & ? & ? & ?)]; [by left|right..].
        -- exists p. split_and!; [by left|done..].
        -- exists p'. split_and!; [by right|done..].
      * intros [?|(p' & [[= -> ->]|?] & ? & ?)]; [left; by left|left; by right|right].
        by exists p'.
    + intros id n x Hn Hx.
      destruct (Hch2 id n x Hn Hx) as [(n1 & Hn1 & Hx1)|(Hr & Hi & Hs)].
      * destruct (Hch1 id n1 x Hn1 Hx1) as [?|(-> & -> & ? & ?)]; [by left|].
        right. split_and!; [by left|done..].
      * right. split_and!; [by right|by apply Hd1..].
Qed.

Lemma populate_facts nodes childSet :
  populateSummaryChildren st cid (loadSummaryNodes sanitizeForTerminal st cid)
  = (nodes, childSet) →
  (∀ id, is_Some (nodes !! id) ↔ summaryIn st cid id)
  ∧ (∀ x, x ∈ childSet ↔ childIn st cid x)
  ∧ (∀ id n x, nodes !! id = Some n → x ∈ n_children n →
               summaryIn st cid id ∧ summaryIn st cid x
               ∧ ∃ e, e ∈ summary_parents st ∧ sp_parent_summary_id e = id
                      ∧ sp_summary_id e = x).
Proof.
  unfold populateSummaryChildren. intros (Hd & Hc & Hch)%populate_fold. split_and!.
  - intros id. by rewrite Hd, loadSummaryNodes_dom.
  - intros x. unfold childIn. rewrite Hc. setoid_rewrite loadSummaryNodes_dom.
    setoid_rewrite edge_rows_elem. split.
    + intros [?%elem_of_empty|(p & (e & He & <- & <- & _) & Hp & Hx)]; [done|].
      by exists e.
    + intros (e & He & <- & Hx & Hp). right. exists (sp_parent_summary_id e).
      split_and!; [|done..]. by exists e.
  - intros id n x Hn Hx.
    destruct (Hch id n x Hn Hx) as [(n0 & Hn0 & Hx0)|(Hr & Hi & Hs)].
    + apply loadSummaryNodes_children in Hn0. rewrite Hn0 in Hx0.
      by apply elem_of_nil in Hx0.
    + apply loadSummaryNodes_dom in Hi, Hs.
      apply edge_rows_elem in Hr as (e & He & Hpe & Hce & _). split_and!; [done..|].
      by exists e.
Qed.
End GraphFacts.

Lemma sortSummaryIDs_elem ids nodes x : x ∈ sortSummaryIDs ids nodes ↔ x ∈ ids.
Proof. unfold sortSummaryIDs. by rewrite merge_sort_Permutation. Qed.

Lemma findSummaryRoots_elem (nodes : gmap string summaryNode) (childSet : gset string) x :
  x ∈ findSummaryRoots nodes childSet ↔
  is_Some (nodes !! x)
  ∧ (x ∉ childSet ∨ ¬ ∃ y, is_Some (nodes !! y) ∧ y ∉ childSet).
Proof.
  unfold findSummaryRoots.
  assert (Hkeys : ∀ y, y ∈ (map_to_list nodes).*1 ↔ is_Some (nodes !! y)).
  { intros y. rewrite list_elem_of_fmap. split.
    - intros ([k n] & -> & Hn%elem_of_map_to_list). by exists n.
    - intros [n Hn]. exists (y, n). split; [done|]. by apply elem_of_map_to_list. }
  destruct (decide _) as [Hnil|Hsome].
  - apply length_zero_iff_nil in Hnil. rewrite Hkeys. split; [|tauto].
    intros Hx. split; [done|]. right. intros (y & Hy & Hyc).
    apply (filter_nil_not_elem_of _ _ y Hnil Hyc). by apply Hkeys.
  - rewrite list_elem_of_filter, Hkeys. split; [tauto|].
    intros [Hx [Hc|Hno]]; [done|]. exfalso.
    destruct (filter _ _) as [|y l] eqn:E; [done|].
    assert (y ∈ filter (λ id, id ∉ childSet) (map_to_list nodes).*1) as Hy
      by (rewrite E; left).
    apply list_elem_of_filter in Hy as [Hyc Hy]. apply Hno. exists y. split; [|done].
    by apply Hkeys.
Qed.

Section Loaded.
Context (sanitizeForTerminal : string → string) (st : store) (sessionID : string)
        (g : summaryGraph).
Hypothesis Hload : loadSummaryGraph sanitizeForTerminal st sessionID = inr g.

Lemma loaded_graph :
  let cid := g_conversationID g in
  (∀ id, is_Some (g_nodes g !! id) ↔ summaryIn st cid id)
  ∧ (∀ id, id ∈ g_roots g ↔
           summaryIn st cid id
           ∧ (¬ childIn st cid id
              ∨ ¬ ∃ y, summaryIn st cid y ∧ ¬ childIn st cid y))
  ∧ (∀ id n x, g_nodes g !! id = Some n → x ∈ n_children n →
               summaryIn st cid id ∧ summaryIn st cid x
               ∧ ∃ e, e ∈ summary_parents st ∧ sp_parent_summary_id e = id
                      ∧ sp_summary_id e = x).
Proof.
  unfold loadSummaryGraph in Hload.
  destruct (lookupConversationID st sessionID) as [|cid] eqn:Hcid; [done|].
  pose proof (loadSummaryNodes_dom sanitizeForTerminal st cid) as Hdom0.
  destruct (decide (size _ = 0%nat)) as [Hempty|Hsome].
  - injection Hload as <-. simpl. apply map_size_empty_inv in Hempty.
    rewrite Hempty in Hdom0. setoid_rewrite lookup_empty in Hdom0.
    assert (∀ id, ¬ summaryIn st cid id) as Hnone.
    { intros id Hin%Hdom0. by destruct Hin. }
    split_and!.
    + intros id. rewrite lookup_empty. split; [by intros [? [=]]|by intros ?%Hnone].
    + intros id. split; [by intros ?%elem_of_nil|]. by intros [?%Hnone _].
    + intros id n x. by rewrite lookup_empty.
  - destruct (populateSummaryChildren _ _ _) as [nodes childSet] eqn:Hpop.
    apply populate_facts in Hpop as (Hd & Hc & Hch).
    injection Hload as <-. simpl. split_and!.
    + intros id. rewrite lookup_fmap, fmap_is_Some. apply Hd.
    + intros id. rewrite sortSummaryIDs_elem, findSummaryRoots_elem.
      assert ((∃ y, is_Some (nodes !! y) ∧ y ∉ childSet)
              ↔ (∃ y, summaryIn st cid y ∧ ¬ childIn st cid y)) as Hex.
      { split; intros (y & Hy & Hyc); exists y; split;
          [by apply Hd|by rewrite <- Hc|by apply Hd|by rewrite Hc]. }
      rewrite Hex, Hd, Hc. tauto.
    + intros id n x. rewrite lookup_fmap.
      destruct (nodes !! id) as [n0|] eqn:Hn0; [|done]. simpl. intros [= <-]. simpl.
      rewrite sortSummaryIDs_elem. by apply Hch.
Qed.
End Loaded.

(** C7: the roots the graph reader returns are the summaries of the
    conversation that are not the child end of a parent edge with both
    ends in the conversation; when there is no such summary, they are all
    the summaries of the conversation. *)
Theorem graph_roots sanitizeForTerminal st sessionID g :
  loadSummaryGraph sanitizeForTerminal st sessionID = inr g →
  let cid := g_conversationID g in
  let top id := summaryIn st cid id ∧ ¬ childIn st cid id in
  ((∃ id, top id) → ∀ id, id ∈ g_roots g ↔ top id)
  ∧ ((¬ ∃ id, top id) → ∀ id, id ∈ g_roots g ↔ summaryIn st cid id).
Proof.
  intros Hload cid top.
  destruct (loaded_graph _ _ _ _ Hload) as (_ & Hroots & _). fold cid in Hroots.
  split; intros Htop id; rewrite Hroots; unfold top in *; tauto.
Qed.

(** C10: the graph the reader returns is closed: every id in a node's
    children list is a key of the node map, the keys being the summaries
    of the conversation; a child is listed under a node only for a parent
    edge between two summaries of the conversation. *)
Theorem graph_children_closed sanitizeForTerminal st sessionID g :
  loadSummaryGraph sanitizeForTerminal st sessionID = inr g →
  ∀ id node child,
    g_nodes g !! id = Some node → child ∈ n_children node →
    is_Some (g_nodes g !! child)
    ∧ summaryIn st (g_conversationID g) id
    ∧ summaryIn st (g_conversationID g) child
    ∧ ∃ e, e ∈ summary_parents st ∧ sp_parent_summary_id e = id ∧ sp_summary_id e = child.
Proof.
  intros Hload id node child Hn Hx.
  destruct (loaded_graph _ _ _ _ Hload) as (Hdom & _ & Hch).
  destruct (Hch id node child Hn Hx) as (Hi & Hc & He).
  split_and!; try done. by apply Hdom.
Qed.

Lemma graph_roots_witness :
  (∃ g, loadSummaryGraph (λ s, s) exampleStore "s1" = inr g
        ∧ g_roots g = ["sum_a"; "sum_b"; "sum_c"; "sum_e"; "sum_l"]%string
        ∧ ∀ id, id ∈ g_roots g ↔
                summaryIn exampleStore 1 id ∧ ¬ childIn exampleStore 1 id)
  ∧ (∃ g, loadSummaryGraph (λ s, s) cyclicStore "s7" = inr g
          ∧ g_roots g = ["sum_p"; "sum_q"]%string
          ∧ ∀ id, id ∈ g_roots g ↔ summaryIn cyclicStore 7 id).
Proof.
  split.
  - destruct (loadSummaryGraph (λ s, s) exampleStore "s1") as [e|g] eqn:E;
      [by vm_compute in E|].
    exists g. split; [done|].
    destruct (graph_roots _ _ _ _ E) as [Htop _].
    vm_compute in E. injection E as <-. split; [done|].
    apply Htop. exists "sum_a"%string. split.
    + eexists. split; [by left|done].
    + intros (e & He & Hid & _). simpl in He.
      repeat (apply elem_of_cons in He as [->|He]; [done|]).
      by apply elem_of_nil in He.
  - destruct (loadSummaryGraph (λ s, s) cyclicStore "s7") as [e|g] eqn:E;
      [by vm_compute in E|].
    exists g. split; [done|].
    destruct (graph_roots _ _ _ _ E) as [_ Hall].
    vm_compute in E. injection E as <-. split; [done|].
    apply Hall. intros (id & (s & Hs & Hid & Hc) & Hno). apply Hno.
    assert (summaryIn cyclicStore 7 "sum_p") as Hp
      by (eexists; split; [by left|done]).
    assert (summaryIn cyclicStore 7 "sum_q") as Hq
      by (eexists; split; [by right; left|done]).
    simpl in Hs. apply elem_of_cons in Hs as [->|Hs].
    + simpl in Hid. subst id. eexists. split; [by left|done].
    + apply list_elem_of_singleton in Hs as ->. simpl in Hid. subst id.
      eexists. split; [by right; left|done].
Defined.

Lemma graph_children_closed_witness :
  ∃ g, loadSummaryGraph (λ s, s) exampleStore "s1" = inr g
       ∧ n_children <$> g_nodes g !! "sum_a"%string = Some ["sum_x"%string]
       ∧ ∀ id node child,
           g_nodes g !! id = Some node → child ∈ n_children node →
           is_Some (g_nodes g !! child).
Proof.
  destruct (loadSummaryGraph (λ s, s) exampleStore "s1") as [e|g] eqn:E;
    [by vm_compute in E|].
  exists g. split; [done|]. split.
  - vm_compute in E. by injection E as <-.
  - intros id node child Hn Hx.
    by destruct (graph_children_closed _ _ _ _ E id node child Hn Hx) as [? _].
Defined.

(** ** Transplant *)

Lemma extends_refl target st : extends target st st.
Proof.
  split_and!; [done..|]. exists [], [], []. by rewrite !app_nil_r.
Qed.

Section TransplantFacts.
Context (newID : nat → string) (now : string).

Lemma mintFrom_fresh fuel n existing new n' :
  mintFrom newID fuel n existing = Some (new, n') → new ∉ existing.
Proof.
  revert n. induction fuel as [|fuel IH]; intros n; simpl; [done|].
  destruct (decide (newID n ∈ existing)) as [|Hfresh]; [apply IH|].
  by intros [= <- <-].
Qed.

Lemma remapEdges_result st idmap old new edges :
  remapEdges st idmap old new = inr edges → Forall (λ e, sp_summary_id e = new) edges.
Proof.
  unfold remapEdges. generalize (filter (λ e, sp_summary_id e = old) (summary_parents st)).
  intros l. revert edges.
  induction l as [|e l IH] using rev_ind; intros edges; simpl.
  - by intros [= <-].
  - rewrite foldl_app. simpl.
    destruct (foldl _ _ l) as [err|acc]; [done|]. simpl.
    destruct (idmap !! sp_parent_summary_id e) as [parent|]; [|done]. simpl.
    intros [= <-]. apply Forall_app. split; [by apply IH|]. by apply Forall_singleton.
Qed.

Lemma copySummary_extends target st st1 idmap n s st2 idmap2 n2 :
  extends target st st1 →
  copySummary newID target (st1, idmap, n) s = inr (st2, idmap2, n2) →
  extends target st st2.
Proof.
  intros (Hconv & Hctx & rows & edges & messages & Hs & Hp & Hm & Hrows & Hedges & Hmsgs).
  unfold copySummary, mint.
  destruct (mintFrom _ _ _ _) as [[new n']|] eqn:Hmint; [|done]. simpl.
  apply mintFrom_fresh in Hmint.
  destruct (remapEdges _ _ _ _) as [|edges'] eqn:Hremap; [done|]. simpl.
  apply remapEdges_result in Hremap. intros [= <- _ _].
  split_and!; [done..|]. simpl.
  eexists (rows ++ [_]), (edges ++ edges'), (messages ++ _).
  rewrite Hs, Hp, Hm, <- !app_assoc. split_and!; [done..| | |].
  - apply Forall_app. split; [done|]. apply Forall_singleton. simpl. split; [done|].
    intros Hin. apply Hmint. rewrite Hs, fmap_app. apply elem_of_app. by left.
  - rewrite fmap_app. apply Forall_app. split.
    + eapply Forall_impl; [done|]. intros e He. apply elem_of_app. by left.
    + eapply Forall_impl; [done|]. intros e ->. apply elem_of_app. right. simpl. by left.
  - rewrite fmap_app. apply Forall_app. split.
    + eapply Forall_impl; [done|]. intros e He. apply elem_of_app. by left.
    + apply Forall_fmap, Forall_forall. intros e _. simpl. apply elem_of_app. right. by left.
Qed.

Lemma copy_loop_fail target e order :
  foldl (λ acc s, acc ← acc; copySummary newID target acc s) (inl e) order = inl e.
Proof. by induction order. Qed.

Lemma copy_loop_step target acc s order :
  foldl (λ acc s, acc ← acc; copySummary newID target acc s) (inr acc) (s :: order)
  = foldl (λ acc s, acc ← acc; copySummary newID target acc s)
          (copySummary newID target acc s) order.
Proof. done. Qed.

Lemma copy_loop_extends target st order : ∀ st1 idmap n st2 idmap2 n2,
  extends target st st1 →
  foldl (λ acc s, acc ← acc; copySummary newID target acc s) (inr (st1, idmap, n)) order
  = inr (st2, idmap2, n2) →
  extends target st st2.
Proof.
  induction order as [|s order IH]; intros st1 idmap n st2 idmap2 n2 Hext.
  - by intros [= <- _ _].
  - rewrite copy_loop_step.
    destruct (copySummary newID target (st1, idmap, n) s) as [e|[[st1' idmap'] n']] eqn:Hcopy.
    + by rewrite copy_loop_fail.
    + apply IH. by eapply copySummary_extends.
Qed.

Lemma shiftTarget_frame c target shift t t' :
  c ≠ target →
  shiftTarget target shift t = inr t' →
  filter (in_conversation c) t' = filter (in_conversation c) t.
Proof.
  intros Hne. unfold shiftTarget. destruct (decide (shift > 0)); [|by intros [= <-]].
  destruct (sql_update _ _ t) as [|t1] eqn:H1; [done|]. simpl.
  destruct (shiftToFinal target shift t1) as [|t2] eqn:H2; [done|]. simpl. intros [= <-].
  apply sql_update_result in H1, H2. subst t1 t2.
  rewrite !filter_updated; [done|..].
  - intros r Hr. unfold in_conversation in *. simpl. split; congruence.
  - intros r [Hr _]. unfold in_conversation in *. simpl. split; congruence.
Qed.

Lemma insertTop_frame c target idmap top : ∀ i t t',
  c ≠ target →
  insertTop now target idmap i top t = inr t' →
  filter (in_conversation c) t' = filter (in_conversation c) t.
Proof.
  induction top as [|sid top IH]; intros i t t' Hne; simpl.
  - by intros [= <-].
  - destruct (idmap !! sid) as [new|]; [|done]. simpl.
    destruct (sql_insert _ t) as [|t1] eqn:Hins; [done|]. simpl.
    apply sql_insert_result in Hins as [-> _]. intros Ht'%IH; [|done].
    rewrite Ht', filter_app, filter_cons_False, filter_nil, app_nil_r; [done|].
    unfold in_conversation. simpl. congruence.
Qed.

Lemma transplant_extends source target st st' report :
  transplant newID now source target st = inr (st', report) →
  ∃ st1 t, extends target st st1 ∧ st' = set_context_items st1 t
           ∧ ∀ c, c ≠ target →
                  filter (in_conversation c) t = filter (in_conversation c) (context_items st).
Proof.
  unfold transplant. destruct (priorTransplant _ _ _); [done|].
  destruct (foldl _ _ _) as [|[[st1 idmap] n]] eqn:Hloop; [done|]. simpl.
  apply (copy_loop_extends target st) in Hloop; [|apply extends_refl].
  destruct (shiftTarget _ _ _) as [|t1] eqn:Hshift; [done|]. simpl.
  destruct (insertTop _ _ _ _ _ _) as [|t2] eqn:Hins; [done|]. simpl.
  intros [= <- _]. exists st1, t2. split_and!; [done..|]. intros c Hc.
  rewrite (insertTop_frame c _ _ _ _ _ _ Hc Hins).
  rewrite (shiftTarget_frame c _ _ _ _ Hc Hshift).
  destruct Hloop as (_ & -> & _). done.
Qed.
End TransplantFacts.

Lemma extends_summaryIn target st st1 c sid :
  c ≠ target → extends target st st1 →
  summaryIn st1 c sid ↔ summaryIn st c sid.
Proof.
  intros Hne (_ & _ & rows & edges & messages & Hs & _ & _ & Hrows & _).
  unfold summaryIn. rewrite Hs. setoid_rewrite elem_of_app. split.
  - intros (s & [Hin|Hin] & Hid & Hc); [by exists s|].
    rewrite Forall_forall in Hrows. destruct (Hrows s Hin) as [Ht _]. congruence.
  - intros (s & Hin & Hid & Hc). exists s. split; [by left|done].
Qed.

Lemma extends_unchanged target st st1 t c :
  c ≠ target → extends target st st1 →
  filter (in_conversation c) t = filter (in_conversation c) (context_items st) →
  unchanged c st (set_context_items st1 t).
Proof.
  intros Hne Hext Ht.
  assert (∀ sid, summaryIn (set_context_items st1 t) c sid ↔ summaryIn st c sid) as Hin
    by (intros sid; apply (extends_summaryIn target st st1 c sid Hne Hext)).
  destruct Hext as (_ & _ & rows & edges & messages & Hs & Hp & Hm & Hrows & Hedges & Hmsgs).
  assert (∀ x, x ∈ s_summary_id <$> rows → ¬ summaryIn st c x) as Hfresh.
  { intros x (r & -> & Hr)%list_elem_of_fmap (s & Hsin & Hid & _).
    rewrite Forall_forall in Hrows. destruct (Hrows r Hr) as [_ Hnew]. apply Hnew.
    apply list_elem_of_fmap. by exists s. }
  unfold unchanged, summariesOf, parentEdgesOf, messageEdgesOf, contextOf.
  cbn [summaries summary_parents summary_messages context_items set_context_items].
  split_and!; [| | |done].
  - rewrite Hs, filter_app.
    rewrite (filter_none _ rows), app_nil_r; [done|].
    eapply Forall_impl; [done|]. intros s [Hc _]. congruence.
  - rewrite Hp, filter_app.
    rewrite (filter_none _ edges), app_nil_r.
    + apply list_filter_iff. intros e. apply Hin.
    + eapply Forall_impl; [done|]. intros e He. rewrite Hin. by apply Hfresh.
  - rewrite Hm, filter_app.
    rewrite (filter_none _ messages), app_nil_r.
    + apply list_filter_iff. intros e. apply Hin.
    + eapply Forall_impl; [done|]. intros e He. rewrite Hin. by apply Hfresh.
Qed.

(** C9: a successful transplant between two conversations leaves the
    summaries, parent edges, message edges and context items of the source
    unchanged, and likewise those of every conversation other than the
    target: the rows that are new belong to the target. *)
Theorem transplant_leaves_source newID now source target st st' report :
  source ≠ target →
  transplant newID now source target st = inr (st', report) →
  unchanged source st st'
  ∧ (∀ c, c ≠ target → unchanged c st st')
  ∧ ∃ st1 t, extends target st st1 ∧ st' = set_context_items st1 t.
Proof.
  intros Hne (st1 & t & Hext & -> & Ht)%transplant_extends.
  split_and!.
  - eapply extends_unchanged; [done..|]. by apply Ht.
  - intros c Hc. eapply extends_unchanged; [done..|]. by apply Ht.
  - by exists st1, t.
Qed.

Lemma transplant_leaves_source_witness :
  ∃ st' report,
    transplant exampleID "2025-03-01" 1 2 exampleStore = inr (st', report)
    ∧ tr_transplanted report = 3%nat
    ∧ length (summaries st') = 12%nat
    ∧ unchanged 1 exampleStore st'.
Proof.
  destruct (transplant exampleID "2025-03-01" 1 2 exampleStore) as [e|[st' report]] eqn:E;
    [by vm_compute in E|].
  exists st', report. split; [done|].
  assert (1 ≠ 2) as Hne by lia.
  destruct (transplant_leaves_source _ _ _ _ _ _ _ Hne E) as (Hsame & _).
  vm_compute in E. injection E as <- <-. done.
Defined.

(** * Proofs for the rest of the program *)

(** ** Cursors and list windows *)


Lemma clamp_inside value low high :
  low <= value <= high → clamp value low high = value.
Proof. unfold clamp. intros. repeat case_decide; lia. Qed.

Lemma clamp_empty value low high : high < low → clamp value low high = low.
Proof. unfold clamp. intros. by rewrite decide_True. Qed.

(** A cursor clamped to a list of [n] rows is a valid index as soon as
    the list has a row, and 0 otherwise. *)
Lemma clamp_cursor value n :
  0 <= n →
  0 <= clamp value 0 (n - 1) ∧ (0 < n → clamp value 0 (n - 1) < n)
  ∧ (n = 0 → clamp value 0 (n - 1) = 0).
Proof. unfold clamp. intros. repeat case_decide; lia. Qed.

Lemma listOffset_window cursor total visible :
  0 <= cursor < total → 1 <= visible < 2 ^ 63 → total < 2 ^ 63 →
  let offset := listOffset cursor total visible in
  0 <= offset <= cursor ∧ cursor < offset + visible
  ∧ (visible < total → offset + visible <= total)
  ∧ (total <= visible → offset = 0).
Proof.
  intros Hc Hv Ht offset. unfold offset, listOffset.
  destruct (decide (total <= visible)) as [Hfit|Hmore]; [lia|].
  pose proof (Z.quot_pos visible 2 ltac:(lia) ltac:(lia)) as Hq0.
  assert (visible ÷ 2 < visible) as Hq by (apply Z.quot_lt; lia).
  rewrite !wrap64_small by lia.
  unfold clamp. repeat case_decide; lia.
Qed.

(** X1: in a list of [total] rows drawn [visible] at a time, the rows
    drawn are consecutive valid indices, as many as fit, and the row under
    the cursor is one of them. *)
Theorem selected_row_is_drawn cursor total visible :
  0 <= cursor < total → 1 <= visible < 2 ^ 63 → total < 2 ^ 63 →
  cursor ∈ drawnRows cursor total visible
  ∧ Forall (λ idx, 0 <= idx < total) (drawnRows cursor total visible)
  ∧ Z.of_nat (length (drawnRows cursor total visible)) = Z.min total visible.
Proof.
  intros Hc Hv Ht.
  destruct (listOffset_window cursor total visible Hc Hv Ht) as (Ho & Hin & Hfull & Hzero).
  unfold drawnRows. set (offset := listOffset cursor total visible) in *.
  assert (intMin total (wrap64 (offset + visible)) - offset = Z.min total visible) as ->.
  { destruct (decide (visible < total)) as [Hlt|Hge].
    - rewrite wrap64_small by lia. unfold intMin. case_decide; lia.
    - rewrite Hzero by lia. rewrite wrap64_small by lia. unfold intMin. case_decide; lia. }
  split_and!.
  - apply elem_of_seqZ. lia.
  - apply Forall_forall. intros idx Hidx%elem_of_seqZ. lia.
  - rewrite length_seqZ. lia.
Qed.

Lemma selected_row_is_drawn_witness :
  7 ∈ drawnRows 7 20 5 ∧ drawnRows 7 20 5 = [5; 6; 7; 8; 9].
Proof.
  split; [|reflexivity].
  apply (selected_row_is_drawn 7 20 5); lia.
Defined.

(** ** Strings *)

Lemma append_cons c (a b : string) : (String c a +:+ b)%string = String c (a +:+ b).
Proof. done. Qed.

Lemma append_nil (b : string) : (""%string +:+ b)%string = b.
Proof. done. Qed.

Lemma length_append (a b : string) :
  String.length (a +:+ b) = (String.length a + String.length b)%nat.
Proof. induction a as [|c a IH]; [done|]. rewrite append_cons. simpl. by rewrite IH. Qed.

Lemma length_substring_to n (s : string) :
  (n <= String.length s)%nat → String.length (substring 0 n s) = n.
Proof.
  revert n. induction s as [|c s IH]; intros [|n]; simpl; try done; try lia.
  intros Hn. rewrite IH; lia.
Qed.

Lemma substring_to_split n (s : string) :
  (n <= String.length s)%nat → ∃ rest, s = (substring 0 n s +:+ rest)%string.
Proof.
  revert n. induction s as [|c s IH]; intros [|n]; simpl; try lia.
  - by exists ""%string.
  - by exists (String c s).
  - intros Hn. destruct (IH n ltac:(lia)) as [rest Hrest]. exists rest.
    rewrite append_cons. by f_equal.
Qed.

(** X2: [truncateString] never returns more than [width] bytes; a text
    that fits is returned as it is; a longer one is cut to exactly [width]
    bytes, the last three of them dots when [width] is more than 3. *)
Theorem truncateString_fits text width :
  let len := Z.of_nat (String.length text) in
  Z.of_nat (String.length (truncateString text width)) = Z.max 0 (Z.min width len)
  ∧ (len <= width → truncateString text width = text)
  ∧ (0 < width < len →
     ∃ kept rest, text = (kept +:+ rest)%string
       ∧ truncateString text width = (if decide (width <= 3) then kept
                                      else kept +:+ "...")%string).
Proof.
  intros len. unfold truncateString, sliceTo.
  destruct (decide (width <= 0)) as [Hw|Hw].
  { split_and!; [simpl; lia| |lia].
    intros Hlen. destruct text; [done|]. unfold len in Hlen. simpl in Hlen. lia. }
  destruct (decide (len <= width)) as [Hfit|Hlong].
  { rewrite decide_True by done. split_and!; [fold len; lia|done|lia]. }
  rewrite (decide_False (P := Z.of_nat _ <= width)) by done.
  assert (∀ n, 0 <= n <= width →
            Z.of_nat (String.length (substring 0 (Z.to_nat n) text)) = n) as Hlen.
  { intros n Hn. rewrite length_substring_to; unfold len in Hlong; lia. }
  assert (∀ n, 0 <= n <= width →
            ∃ rest, text = (substring 0 (Z.to_nat n) text +:+ rest)%string) as Hsplit.
  { intros n Hn. apply substring_to_split. unfold len in Hlong. lia. }
  destruct (decide (width <= 1)); [|destruct (decide (width <= 3))].
  - split_and!; [rewrite Hlen; lia|lia|]. intros _.
    destruct (Hsplit width ltac:(lia)) as [rest Hrest].
    exists (substring 0 (Z.to_nat width) text), rest. by rewrite decide_True by lia.
  - split_and!; [rewrite Hlen; lia|lia|]. intros _.
    destruct (Hsplit width ltac:(lia)) as [rest Hrest].
    by exists (substring 0 (Z.to_nat width) text), rest.
  - split_and!; [|lia|].
    + rewrite length_append, Nat2Z.inj_add, Hlen by lia. simpl. lia.
    + intros _. destruct (Hsplit (width - 3) ltac:(lia)) as [rest Hrest].
      by exists (substring 0 (Z.to_nat (width - 3)) text), rest.
Qed.

(** ** Lines *)

Lemma splitLines_cons text : ∃ line lines, splitLines text = line :: lines.
Proof.
  induction text as [|c text (line & lines & IH)]; simpl; [by eauto|].
  destruct (decide (c = newline)); [by eauto|]. rewrite IH. eauto.
Qed.

Lemma joinLines_cons line next rest :
  joinLines (line :: next :: rest)
  = (line +:+ String newline (joinLines (next :: rest)))%string.
Proof. done. Qed.

(** Joining what [strings.Split] returns gives the text back. *)
Lemma joinLines_splitLines text : joinLines (splitLines text) = text.
Proof.
  induction text as [|c text IH]; [done|]. simpl.
  destruct (splitLines_cons text) as (line & lines & Hs). rewrite Hs in *.
  destruct (decide (c = newline)) as [->|Hc].
  - rewrite joinLines_cons, IH. done.
  - destruct lines as [|next lines]; simpl in *; [by rewrite IH|].
    by rewrite <- IH.
Qed.

Lemma splitLines_oneLine line : oneLineOnly line → splitLines line = [line].
Proof.
  unfold oneLineOnly. induction line as [|c line IH]; simpl; [done|].
  intros Hnl. apply not_elem_of_cons in Hnl as [Hc Hnl].
  rewrite decide_False by done. by rewrite IH.
Qed.

Lemma splitLines_append line text :
  oneLineOnly line →
  splitLines (line +:+ String newline text) = line :: splitLines text.
Proof.
  unfold oneLineOnly. induction line as [|c line IH].
  - intros _. by rewrite append_nil.
  - simpl. intros Hnl. apply not_elem_of_cons in Hnl as [Hc Hnl].
    rewrite ?append_cons. simpl.
    destruct (decide (c = newline)) as [->|_]; [done|]. by rewrite IH.
Qed.

Lemma splitLines_joinLines lines :
  lines ≠ [] → Forall oneLineOnly lines → splitLines (joinLines lines) = lines.
Proof.
  induction lines as [|line lines IH]; [done|]. intros _ Hall.
  apply Forall_cons in Hall as [Hline Hall].
  destruct lines as [|next lines]; [by apply splitLines_oneLine|].
  rewrite joinLines_cons, splitLines_append by done. by rewrite IH.
Qed.

Lemma splitLines_lines text : Forall oneLineOnly (splitLines text).
Proof.
  induction text as [|c text IH]; simpl.
  - apply Forall_singleton. unfold oneLineOnly. simpl. apply not_elem_of_nil.
  - destruct (decide (c = newline)) as [->|Hc].
    + apply Forall_cons. split; [|done]. unfold oneLineOnly. simpl. apply not_elem_of_nil.
    + destruct (splitLines text) as [|line lines].
      * apply Forall_singleton. unfold oneLineOnly. simpl.
        apply not_elem_of_cons. split; [done|apply not_elem_of_nil].
      * apply Forall_cons in IH as [Hline Hlines]. apply Forall_cons. split; [|done].
        unfold oneLineOnly in *. simpl. apply not_elem_of_cons. by split.
Qed.

Lemma oneLineOnly_append a b : oneLineOnly a → oneLineOnly b → oneLineOnly (a +:+ b).
Proof.
  unfold oneLineOnly. induction a as [|c a IH]; [done|].
  rewrite ?append_cons. simpl.
  intros [Hc Ha]%not_elem_of_cons Hb. apply not_elem_of_cons. split; [done|by apply IH].
Qed.

(** X3: [indentLines] puts the prefix in front of every line of the text
    and changes nothing else: the lines of the result are the lines of the
    text, each with the prefix in front (for a prefix without a newline),
    and with the empty prefix the text comes back unchanged. *)
Theorem indentLines_lines text prefix :
  oneLineOnly prefix →
  splitLines (indentLines text prefix) = (λ line, prefix +:+ line)%string <$> splitLines text
  ∧ indentLines text "" = text.
Proof.
  intros Hp. split.
  - unfold indentLines. apply splitLines_joinLines.
    + destruct (splitLines_cons text) as (line & lines & ->). done.
    + apply Forall_fmap. eapply Forall_impl; [apply splitLines_lines|].
      intros line Hline. simpl. by apply oneLineOnly_append.
  - unfold indentLines. rewrite <- (joinLines_splitLines text) at 2. f_equal.
    rewrite <- (list_fmap_id (splitLines text)) at 2. done.
Qed.

Lemma indentLines_lines_witness :
  let text := String "a" (String newline (String newline "b")) in
  splitLines (indentLines text "  ") = ["  a"; "  "; "  b"]%string.
Proof.
  intros text.
  assert (oneLineOnly "  ") as Hp.
  { unfold oneLineOnly. simpl. intros Hin.
    repeat (apply elem_of_cons in Hin as [Hin|Hin]; [discriminate|]).
    by apply elem_of_nil in Hin. }
  destruct (indentLines_lines text "  " Hp) as [Hlines _].
  rewrite Hlines. reflexivity.
Defined.

(** ** The command line of dissolve *)

Lemma list_ind_pairs {A} (P : list A → Prop) :
  P [] → (∀ a, P [a]) → (∀ a b l, P l → P (b :: l) → P (a :: b :: l)) → ∀ l, P l.
Proof.
  intros Hnil Hone Hstep l.
  assert (P l ∧ ∀ a, P (a :: l)) as [Hl _]; [|done].
  induction l as [|b l [IH1 IH2]]; [by split|]. split; [apply IH2|].
  intros a. by apply Hstep.
Qed.

Lemma splitArgs_cons arg rest :
  splitArgs (arg :: rest)
  = match kindOf arg with
    | KindFlag => '(flags, positionals) ← splitArgs rest; Some (arg :: flags, positionals)
    | KindSummaryID =>
        match rest with
        | [] => None
        | value :: others =>
            '(flags, positionals) ← splitArgs others; Some (arg :: value :: flags, positionals)
        end
    | KindPositional =>
        '(flags, positionals) ← splitArgs rest; Some (flags, arg :: positionals)
    end.
Proof.
  unfold kindOf. cbn [splitArgs].
  repeat (case_decide || destruct (hasPrefix _ _)); done.
Qed.

Lemma normalizeFrom_cons arg rest flags positionals :
  normalizeFrom (arg :: rest) flags positionals
  = match kindOf arg with
    | KindFlag => normalizeFrom rest (flags ++ [arg]) positionals
    | KindSummaryID =>
        match rest with
        | [] => inl ErrMissingSummaryIDValue
        | value :: others => normalizeFrom others (flags ++ [arg; value]) positionals
        end
    | KindPositional => normalizeFrom rest flags (positionals ++ [arg])
    end.
Proof.
  unfold kindOf. cbn [normalizeFrom].
  repeat (case_decide || destruct (hasPrefix _ _)); done.
Qed.

(** The loop returns the flags followed by the positionals. *)
Lemma normalizeFrom_split args : ∀ flags positionals,
  normalizeFrom args flags positionals
  = match splitArgs args with
    | None => inl ErrMissingSummaryIDValue
    | Some (moreFlags, morePositionals) =>
        inr ((flags ++ moreFlags) ++ (positionals ++ morePositionals))
    end.
Proof.
  induction args as [|a|a b args IH1 IH2] using list_ind_pairs; intros flags positionals.
  - simpl. by rewrite !app_nil_r.
  - rewrite normalizeFrom_cons, splitArgs_cons.
    destruct (kindOf a); simpl; by rewrite ?app_nil_r.
  - rewrite normalizeFrom_cons, splitArgs_cons. destruct (kindOf a).
    + rewrite IH2. destruct (splitArgs (b :: args)) as [[f p]|]; simpl; [|done].
      by rewrite <- !app_assoc.
    + rewrite IH1. destruct (splitArgs args) as [[f p]|]; simpl; [|done].
      by rewrite <- !app_assoc.
    + rewrite IH2. destruct (splitArgs (b :: args)) as [[f p]|]; simpl; [|done].
      by rewrite <- !app_assoc.
Qed.

Lemma normalizeDissolveArgs_split args :
  normalizeDissolveArgs args
  = match splitArgs args with
    | None => inl ErrMissingSummaryIDValue
    | Some (flags, positionals) => inr (flags ++ positionals)
    end.
Proof. unfold normalizeDissolveArgs. by rewrite normalizeFrom_split. Qed.

Lemma prefix_append (p s : string) :
  String.prefix p s = true ↔ ∃ rest, s = (p +:+ rest)%string.
Proof.
  revert s. induction p as [|c p IH]; intros s.
  - split; [|by destruct s]. intros _. by exists s.
  - destruct s as [|d s]; simpl.
    + split; [done|]. by intros [rest [=]].
    + destruct (ascii_dec c d) as [->|Hcd].
      * rewrite IH. split; intros [rest Hrest]; exists rest.
        -- by rewrite Hrest.
        -- by injection Hrest.
      * split; [done|]. intros [rest [= ? _]]. done.
Qed.

(** A positional argument does not start with two dashes. *)
Lemma kindOf_positional arg : kindOf arg = KindPositional ↔ hasPrefix arg "--" = false.
Proof.
  unfold kindOf, hasPrefix. split.
  - destruct (decide (_ ∨ _)); [discriminate|].
    destruct (String.prefix "--summary-id=" arg); [discriminate|].
    destruct (decide (arg = _)); [discriminate|].
    by destruct (String.prefix "--" arg).
  - intros Hp.
    assert (∀ rest, arg ≠ ("--" +:+ rest)%string) as Hno.
    { intros rest Harg. apply not_true_iff_false in Hp. apply Hp.
      apply prefix_append. by exists rest. }
    rewrite Hp.
    destruct (decide (_ ∨ _)) as [[Ha|Ha]|_].
    { by destruct (Hno "apply"%string). }
    { by destruct (Hno "purge"%string). }
    destruct (String.prefix "--summary-id=" arg) eqn:Hs.
    { apply prefix_append in Hs as [rest Hrest].
      by destruct (Hno ("summary-id=" +:+ rest)%string). }
    destruct (decide (arg = _)) as [Ha|_]; [|done].
    by destruct (Hno "summary-id"%string).
Qed.

(** What [splitArgs] returns, read as a relation between the arguments
    and the two slices. *)
Lemma splitArgs_facts args : ∀ flags positionals,
  splitArgs args = Some (flags, positionals) →
  flags ++ positionals ≡ₚ args
  ∧ flags `sublist_of` args ∧ positionals `sublist_of` args
  ∧ Forall (λ a, hasPrefix a "--" = false) positionals
  ∧ splitArgs flags = Some (flags, []).
Proof.
  induction args as [|a|a b args IH1 IH2] using list_ind_pairs; intros flags positionals.
  - intros [= <- <-]. by split_and!.
  - rewrite splitArgs_cons. destruct (kindOf a) eqn:Hk; simpl; [|done|]; intros [= <- <-].
    + split_and!; [done|done|apply sublist_nil_l|done|].
      by rewrite splitArgs_cons, Hk.
    + split_and!; [done|apply sublist_nil_l|done| |done].
      apply Forall_singleton. by apply kindOf_positional.
  - rewrite splitArgs_cons. destruct (kindOf a) eqn:Hk.
    + destruct (splitArgs (b :: args)) as [[f p]|]; [|done]. simpl. intros [= <- <-].
      destruct (IH2 f p eq_refl) as (Hperm & Hf & Hp & Hall & Hflags). split_and!.
      * simpl. by rewrite Hperm.
      * by apply sublist_skip.
      * by apply sublist_cons.
      * done.
      * rewrite splitArgs_cons, Hk, Hflags. done.
    + destruct (splitArgs args) as [[f p]|]; [|done]. simpl. intros [= <- <-].
      destruct (IH1 f p eq_refl) as (Hperm & Hf & Hp & Hall & Hflags). split_and!.
      * simpl. by rewrite Hperm.
      * by do 2 apply sublist_skip.
      * by do 2 apply sublist_cons.
      * done.
      * rewrite splitArgs_cons, Hk, Hflags. done.
    + destruct (splitArgs (b :: args)) as [[f p]|]; [|done]. simpl. intros [= <- <-].
      destruct (IH2 f p eq_refl) as (Hperm & Hf & Hp & Hall & Hflags). split_and!.
      * rewrite <- Hperm. by rewrite Permutation_middle.
      * by apply sublist_cons.
      * by apply sublist_skip.
      * apply Forall_cons. split; [by apply kindOf_positional|done].
      * done.
Qed.

(** Scanning a list that splits goes on to scan what follows it. *)
Lemma splitArgs_app args : ∀ flags positionals suffix,
  splitArgs args = Some (flags, positionals) →
  splitArgs (args ++ suffix)
  = '(moreFlags, morePositionals) ← splitArgs suffix;
    Some (flags ++ moreFlags, positionals ++ morePositionals).
Proof.
  induction args as [|a|a b args IH1 IH2] using list_ind_pairs;
    intros flags positionals suffix.
  - intros [= <- <-]. simpl. by destruct (splitArgs suffix) as [[? ?]|].
  - rewrite splitArgs_cons. cbn [app]. rewrite splitArgs_cons.
    destruct (kindOf a) eqn:Hk; simpl; [|done|]; intros [= <- <-];
      by destruct (splitArgs suffix) as [[? ?]|].
  - rewrite splitArgs_cons. cbn [app]. rewrite (splitArgs_cons a).
    destruct (kindOf a) eqn:Hk.
    + destruct (splitArgs (b :: args)) as [[f p]|] eqn:Hs; [|done]. cbn [mbind option_bind]. intros [= <- <-].
      change (b :: args ++ suffix) with ((b :: args) ++ suffix).
      rewrite (IH2 f p suffix eq_refl). by destruct (splitArgs suffix) as [[? ?]|].
    + destruct (splitArgs args) as [[f p]|] eqn:Hs; [|done]. cbn [mbind option_bind]. intros [= <- <-].
      rewrite (IH1 f p suffix eq_refl). by destruct (splitArgs suffix) as [[? ?]|].
    + destruct (splitArgs (b :: args)) as [[f p]|] eqn:Hs; [|done]. cbn [mbind option_bind]. intros [= <- <-].
      change (b :: args ++ suffix) with ((b :: args) ++ suffix).
      rewrite (IH2 f p suffix eq_refl). by destruct (splitArgs suffix) as [[? ?]|].
Qed.

Lemma splitArgs_positionals positionals :
  Forall (λ a, hasPrefix a "--" = false) positionals →
  splitArgs positionals = Some ([], positionals).
Proof.
  induction 1 as [|a l Ha _ IH]; [done|].
  apply kindOf_positional in Ha. by rewrite splitArgs_cons, Ha, IH.
Qed.

(** The scan stops short only at a last [--summary-id]. *)
Lemma splitArgs_None args :
  splitArgs args = None →
  ∃ before, args = before ++ ["--summary-id"%string] ∧ is_Some (splitArgs before).
Proof.
  induction args as [|a|a b args IH1 IH2] using list_ind_pairs.
  - done.
  - rewrite splitArgs_cons. unfold kindOf.
    destruct (decide (_ ∨ _)); [done|]. destruct (hasPrefix a "--summary-id="); [done|].
    destruct (decide (a = _)) as [->|]; [|by destruct (hasPrefix a "--")].
    intros _. exists []. by split.
  - rewrite splitArgs_cons. destruct (kindOf a) eqn:Hk.
    + destruct (splitArgs (b :: args)) as [[f p]|] eqn:Hs; [done|]. intros _.
      destruct (IH2 eq_refl) as (before & Hb & [[f p] Hsome]).
      exists (a :: before). split; [by rewrite Hb|].
      rewrite splitArgs_cons, Hk, Hsome. by eexists.
    + destruct (splitArgs args) as [[f p]|] eqn:Hs; [done|]. intros _.
      destruct (IH1 eq_refl) as (before & Hb & [[f p] Hsome]).
      exists (a :: b :: before). split; [by rewrite Hb|].
      rewrite splitArgs_cons, Hk, Hsome. by eexists.
    + destruct (splitArgs (b :: args)) as [[f p]|] eqn:Hs; [done|]. intros _.
      destruct (IH2 eq_refl) as (before & Hb & [[f p] Hsome]).
      exists (a :: before). split; [by rewrite Hb|].
      rewrite splitArgs_cons, Hk, Hsome. by eexists.
Qed.

Lemma summaryIDRun_snoc before arg :
  summaryIDRun (before ++ [arg])
  = if decide (arg = "--summary-id"%string) then S (summaryIDRun before) else 0%nat.
Proof. unfold summaryIDRun. by rewrite foldl_app. Qed.

Lemma kindOf_summaryID arg : kindOf arg = KindSummaryID ↔ arg = "--summary-id"%string.
Proof.
  unfold kindOf. split.
  - destruct (decide (_ ∨ _)); [done|]. destruct (hasPrefix arg "--summary-id="); [done|].
    destruct (decide (arg = _)); [done|]. by destruct (hasPrefix arg "--").
  - intros ->. reflexivity.
Qed.

Lemma kindOf_flag arg :
  kindOf arg = KindFlag → arg ≠ "--summary-id"%string ∧ hasPrefix arg "--" = true.
Proof.
  intros Hk. split.
  - intros Heq%kindOf_summaryID. congruence.
  - destruct (hasPrefix arg "--") eqn:Hp; [done|].
    apply kindOf_positional in Hp. congruence.
Qed.

Lemma pick_cons keep before arg rest :
  pick keep before (arg :: rest)
  = (if keep before arg then [arg] else []) ++ pick keep (before ++ [arg]) rest.
Proof. reflexivity. Qed.

(** The loop files an argument under the positionals exactly when it is
    positional in the sense above. *)
Lemma splitArgs_pick args : ∀ before flags positionals,
  Nat.even (summaryIDRun before) = true →
  splitArgs args = Some (flags, positionals) →
  flags = pick (λ before arg, negb (positionalAfter before arg)) before args
  ∧ positionals = pick positionalAfter before args.
Proof.
  induction args as [| |a b args IH1 IH2] using list_ind_pairs;
    intros before flags positionals Heven.
  - by intros [= <- <-].
  - rewrite splitArgs_cons. simpl.
    destruct (kindOf a) eqn:Hk; [|done|]; intros [= <- <-];
      unfold positionalAfter; rewrite Heven.
    + apply kindOf_flag in Hk as [_ ->]. done.
    + apply kindOf_positional in Hk as ->. done.
  - rewrite splitArgs_cons. destruct (kindOf a) eqn:Hk.
    + destruct (splitArgs (b :: args)) as [[f p]|] eqn:Hrest; [|done]. intros [= <- <-].
      apply kindOf_flag in Hk as [Hne Hp].
      destruct (IH2 (before ++ [a]) f p) as [-> ->]; [|done|].
      { by rewrite summaryIDRun_snoc, decide_False by done. }
      assert (positionalAfter before a = false) as Hpa
        by (unfold positionalAfter; by rewrite Hp).
      rewrite !(pick_cons _ before a). cbv beta. by rewrite Hpa.
    + apply kindOf_summaryID in Hk as ->.
      destruct (splitArgs args) as [[f p]|] eqn:Hrest; [|done]. intros [= <- <-].
      destruct (IH1 ((before ++ ["--summary-id"%string]) ++ [b]) f p) as [-> ->]; [|done|].
      { rewrite (summaryIDRun_snoc _ b). destruct (decide (b = _)); [|done].
        by rewrite summaryIDRun_snoc, decide_True by done. }
      rewrite !(pick_cons _ before "--summary-id").
      rewrite !(pick_cons _ (before ++ ["--summary-id"%string]) b).
      assert (∀ arg, positionalAfter (before ++ ["--summary-id"%string]) arg = false) as Hodd.
      { intros arg. unfold positionalAfter.
        rewrite summaryIDRun_snoc, decide_True by done.
        by rewrite Nat.even_succ, <- Nat.negb_even, Heven, andb_false_r. }
      assert (positionalAfter before "--summary-id" = false) as Hpa by done.
      cbv beta. by rewrite !Hodd, Hpa.
    + destruct (splitArgs (b :: args)) as [[f p]|] eqn:Hrest; [|done]. intros [= <- <-].
      pose proof Hk as Hp. apply kindOf_positional in Hp.
      assert (a ≠ "--summary-id"%string) as Hne by (intros ->; done).
      destruct (IH2 (before ++ [a]) f p) as [-> ->]; [|done|].
      { by rewrite summaryIDRun_snoc, decide_False by done. }
      assert (positionalAfter before a = true) as Hpa
        by (unfold positionalAfter; by rewrite Hp, Heven).
      rewrite !(pick_cons _ before a). cbv beta. by rewrite Hpa.
Qed.

(** X4: what [normalizeDissolveArgs] returns is the arguments it was
    given, reordered: first the flags, then the positional arguments, each
    group in the order given.  The positional arguments are those that do
    not start with two dashes and are not the value of a [--summary-id];
    the flags are all the others, and among the flags there is no
    positional argument. *)
Theorem normalizeDissolveArgs_reorders args out :
  normalizeDissolveArgs args = inr out →
  out = flagArgs args ++ positionalArgs args
  ∧ out ≡ₚ args
  ∧ flagArgs args `sublist_of` args ∧ positionalArgs args `sublist_of` args
  ∧ Forall (λ a, hasPrefix a "--" = false) (positionalArgs args)
  ∧ positionalArgs (flagArgs args) = []
  ∧ normalizeDissolveArgs (flagArgs args) = inr (flagArgs args).
Proof.
  rewrite normalizeDissolveArgs_split.
  destruct (splitArgs args) as [[flags positionals]|] eqn:Hs; [|done]. intros [= <-].
  destruct (splitArgs_facts args flags positionals Hs) as (Hperm & Hf & Hp & Hall & Hflags).
  destruct (splitArgs_pick args [] flags positionals eq_refl Hs) as [Hfl Hpo].
  fold (flagArgs args) in Hfl. fold (positionalArgs args) in Hpo. subst flags positionals.
  split_and!; try done.
  - symmetry. by destruct (splitArgs_pick _ [] _ _ eq_refl Hflags) as [_ Hnone].
  - rewrite normalizeDissolveArgs_split, Hflags. by rewrite app_nil_r.
Qed.

Lemma normalizeDissolveArgs_reorders_witness :
  normalizeDissolveArgs ["42"; "--summary-id"; "--summary-id"; "sum_x"; "--apply"]%string
  = inr ["--summary-id"; "--summary-id"; "--apply"; "42"; "sum_x"]%string
  ∧ flagArgs ["42"; "--summary-id"; "--summary-id"; "sum_x"; "--apply"]%string
    = ["--summary-id"; "--summary-id"; "--apply"]%string
  ∧ positionalArgs ["42"; "--summary-id"; "--summary-id"; "sum_x"; "--apply"]%string
    = ["42"; "sum_x"]%string.
Proof.
  assert (normalizeDissolveArgs
            ["42"; "--summary-id"; "--summary-id"; "sum_x"; "--apply"]%string
          = inr ["--summary-id"; "--summary-id"; "--apply"; "42"; "sum_x"]%string) as Hrun
    by reflexivity.
  destruct (normalizeDissolveArgs_reorders _ _ Hrun) as (Hout & _).
  split; [exact Hrun|]. split; reflexivity.
Defined.

(** X5: normalising twice changes nothing more: arguments already
    normalised are returned as they are. *)
Theorem normalizeDissolveArgs_idempotent args out :
  normalizeDissolveArgs args = inr out → normalizeDissolveArgs out = inr out.
Proof.
  rewrite normalizeDissolveArgs_split.
  destruct (splitArgs args) as [[flags positionals]|] eqn:Hs; [|done]. intros [= <-].
  destruct (splitArgs_facts args flags positionals Hs) as (_ & _ & _ & Hall & Hflags).
  rewrite normalizeDissolveArgs_split.
  rewrite (splitArgs_app flags flags [] positionals Hflags).
  rewrite (splitArgs_positionals positionals Hall). simpl. by rewrite app_nil_r.
Qed.

Lemma normalizeDissolveArgs_idempotent_witness :
  normalizeDissolveArgs ["--summary-id"; "sum_x"; "--apply"; "42"]%string
  = inr ["--summary-id"; "sum_x"; "--apply"; "42"]%string.
Proof.
  apply (normalizeDissolveArgs_idempotent ["42"; "--summary-id"; "sum_x"; "--apply"]%string).
  reflexivity.
Defined.

(** X6: [normalizeDissolveArgs] fails exactly when the last argument is
    a [--summary-id] not taken as the value of a [--summary-id] before it;
    whatever else it is given, unknown flags included, it accepts. *)
Theorem normalizeDissolveArgs_fails args :
  normalizeDissolveArgs args = inl ErrMissingSummaryIDValue
  ↔ ∃ before out, args = before ++ ["--summary-id"%string]
                  ∧ normalizeDissolveArgs before = inr out.
Proof.
  rewrite normalizeDissolveArgs_split. split.
  - destruct (splitArgs args) as [[flags positionals]|] eqn:Hs; [done|]. intros _.
    destruct (splitArgs_None args Hs) as (before & Hb & [[f p] Hsome]).
    exists before, (f ++ p). split; [done|].
    by rewrite normalizeDissolveArgs_split, Hsome.
  - intros (before & out & -> & Hout). rewrite normalizeDissolveArgs_split in Hout.
    destruct (splitArgs before) as [[f p]|] eqn:Hs; [|done].
    by rewrite (splitArgs_app before f p _ Hs).
Qed.

(** ** The order of strings *)

Lemma str_lt_compare a b : str_lt a b ↔ String.compare a b = Lt.
Proof. unfold str_lt, String.ltb. by destruct (String.compare a b). Qed.

Lemma str_lt_trans a b c : str_lt a b → str_lt b c → str_lt a c.
Proof.
  rewrite !str_lt_compare.
  change String.compare with OrderedTypeEx.String_as_OT.cmp.
  rewrite !OrderedTypeEx.String_as_OT.cmp_lt.
  apply OrderedTypeEx.String_as_OT.lt_trans.
Qed.

Lemma str_lt_irrefl a : ¬ str_lt a a.
Proof.
  rewrite str_lt_compare. intros Hlt.
  pose proof (String.compare_antisym a a) as Has. rewrite Hlt in Has. done.
Qed.

Lemma str_lt_asym a b : str_lt a b → ¬ str_lt b a.
Proof. intros Hab Hba. by apply (str_lt_irrefl a), (str_lt_trans a b a). Qed.

Lemma str_lt_total a b : str_lt a b ∨ a = b ∨ str_lt b a.
Proof.
  rewrite !str_lt_compare. destruct (String.compare a b) eqn:E.
  - right. left. by apply String.compare_eq_iff.
  - by left.
  - right. right. rewrite String.compare_antisym, E. done.
Qed.

(** ** The conversation of a session *)

Section Lookup.
Context (sessionID : string).

Lemma lookup_fold (l : list conversation) : ∀ seen acc,
  match acc with
  | None => ∀ c, c ∈ seen → c_session_id c ≠ sessionID
  | Some b => b ∈ seen ∧ c_session_id b = sessionID
              ∧ ∀ c, c ∈ seen → c_session_id c = sessionID →
                     ¬ str_lt (c_updated_at b) (c_updated_at c)
  end →
  match foldl (later sessionID) acc l with
  | None => ∀ c, c ∈ seen ++ l → c_session_id c ≠ sessionID
  | Some b => b ∈ seen ++ l ∧ c_session_id b = sessionID
              ∧ ∀ c, c ∈ seen ++ l → c_session_id c = sessionID →
                     ¬ str_lt (c_updated_at b) (c_updated_at c)
  end.
Proof.
  induction l as [|c l IH]; intros seen acc Hacc.
  - simpl. by rewrite app_nil_r.
  - cbn [foldl]. rewrite (cons_middle c seen l), app_assoc. apply IH.
    unfold later. destruct (decide (c_session_id c = sessionID)) as [Hc|Hc].
    + destruct acc as [b|].
      * destruct Hacc as (Hb & Hbs & Hbest).
        destruct (decide (str_lt (c_updated_at b) (c_updated_at c))) as [Hlt|Hge].
        -- split_and!; [set_solver|done|].
           intros c' [Hc'|Hc']%elem_of_app Hs.
           ++ intros Hlt'. apply (Hbest c' Hc' Hs). by eapply str_lt_trans.
           ++ apply list_elem_of_singleton in Hc' as ->. apply str_lt_irrefl.
        -- split_and!; [set_solver|done|].
           intros c' [Hc'|Hc']%elem_of_app Hs; [by apply Hbest|].
           by apply list_elem_of_singleton in Hc' as ->.
      * split_and!; [set_solver|done|].
        intros c' [Hc'|Hc']%elem_of_app Hs; [by destruct (Hacc c' Hc')|].
        apply list_elem_of_singleton in Hc' as ->. apply str_lt_irrefl.
    + destruct acc as [b|].
      * destruct Hacc as (Hb & Hbs & Hbest). split_and!; [set_solver|done|].
        intros c' [Hc'|Hc']%elem_of_app Hs; [by apply Hbest|].
        by apply list_elem_of_singleton in Hc' as ->.
      * intros c' [Hc'|Hc']%elem_of_app; [by apply Hacc|].
        by apply list_elem_of_singleton in Hc' as ->.
Qed.
End Lookup.

(** X7: [lookupConversationID] fails exactly when no conversation
    belongs to the session, and otherwise returns a conversation of the
    session that none of its conversations was updated after. *)
Theorem lookupConversationID_latest (st : store) (sessionID : string) :
  match lookupConversationID st sessionID with
  | inl e =>
      e = ErrNoConversation sessionID
      ∧ ∀ c, c ∈ conversations st → c_session_id c ≠ sessionID
  | inr conversationID =>
      ∃ b, b ∈ conversations st ∧ c_conversation_id b = conversationID
           ∧ c_session_id b = sessionID
           ∧ ∀ c, c ∈ conversations st → c_session_id c = sessionID →
                  ¬ str_lt (c_updated_at b) (c_updated_at c)
  end.
Proof.
  unfold lookupConversationID.
  pose proof (lookup_fold sessionID (conversations st) [] None) as Hfold.
  simpl in Hfold. destruct (foldl _ _ _) as [b|].
  - destruct Hfold as (Hb & Hs & Hbest); [by intros c ?%elem_of_nil|].
    by exists b.
  - split; [done|]. apply Hfold. by intros c ?%elem_of_nil.
Qed.

(** ** The order of roots and children *)

Section NodeOrder.
Context (nodes : gmap string summaryNode).
Hypothesis Hids : ∀ id n, nodes !! id = Some n → n_id n = id.

Lemma summaryLess_asym a b : summaryLess nodes a b → ¬ summaryLess nodes b a.
Proof.
  unfold summaryLess.
  destruct (nodes !! a) as [na|], (nodes !! b) as [nb|]; try apply str_lt_asym.
  destruct (decide (n_createdAt na = n_createdAt nb)) as [Heq|Hne].
  - rewrite decide_True by done. apply str_lt_asym.
  - rewrite decide_False by done. apply str_lt_asym.
Qed.

#[local] Instance notAfter_total : Total (λ a b, ¬ summaryLess nodes b a).
Proof.
  intros a b. destruct (decide (summaryLess nodes b a)) as [Hba|Hba]; [|by left].
  right. by apply summaryLess_asym.
Qed.

(** Between two nodes, not sorting after is sorting before or being the
    same node. *)
Lemma notAfter_nodes a b :
  is_Some (nodes !! a) → is_Some (nodes !! b) →
  ¬ summaryLess nodes b a ↔ nodeBefore nodes a b ∨ a = b.
Proof.
  intros [na Ha] [nb Hb]. unfold summaryLess, nodeBefore. rewrite Ha, Hb.
  rewrite (Hids _ _ Ha), (Hids _ _ Hb).
  destruct (decide (n_createdAt nb = n_createdAt na)) as [Heq|Hne].
  - split.
    + intros Hnlt. destruct (str_lt_total a b) as [Hlt|[->|Hgt]]; [|by right|done].
      left. exists na, nb. split_and!; [done..|]. right. by split.
    + intros [(na' & nb' & [= <-] & [= <-] & [Hlt|[_ Hlt]])| ->].
      * rewrite Heq in Hlt. by destruct (str_lt_irrefl _ Hlt).
      * by apply str_lt_asym.
      * apply str_lt_irrefl.
  - split.
    + intros Hnlt. left. exists na, nb. split_and!; [done..|]. left.
      destruct (str_lt_total (n_createdAt na) (n_createdAt nb)) as [?|[?|?]]; done.
    + intros [(na' & nb' & [= <-] & [= <-] & [Hlt|[Heq _]])| ->].
      * by apply str_lt_asym.
      * done.
      * rewrite Ha in Hb. by injection Hb as ->.
Qed.

Lemma nodeBefore_trans a b c : nodeBefore nodes a b → nodeBefore nodes b c → nodeBefore nodes a c.
Proof.
  intros (na & nb & Ha & Hb & Hab) (nb' & nc & Hb' & Hc & Hbc).
  rewrite Hb in Hb'. injection Hb' as <-. exists na, nc. split_and!; [done..|].
  destruct Hab as [Hab|[Hab Hab']], Hbc as [Hbc|[Hbc Hbc']].
  - left. by eapply str_lt_trans.
  - left. by rewrite <- Hbc.
  - left. by rewrite Hab.
  - right. split; [congruence|by eapply str_lt_trans].
Qed.

Lemma nodeBefore_irrefl a : ¬ nodeBefore nodes a a.
Proof.
  intros (na & nb & Ha & Hb & Hab). rewrite Ha in Hb. injection Hb as <-.
  destruct Hab as [Hlt|[_ Hlt]]; by apply str_lt_irrefl in Hlt.
Qed.

Lemma Sorted_nodes (R : relation string) ids :
  (∀ a b c, a ∈ ids → b ∈ ids → c ∈ ids → R a b → R b c → R a c) →
  Sorted R ids → StronglySorted R ids.
Proof.
  intros Htrans Hsorted. induction Hsorted as [|a l Hl IH Hhd]; [constructor|].
  constructor.
  - apply IH. intros x y z Hx Hy Hz. apply Htrans; by right.
  - assert (StronglySorted R l) as Hss.
    { apply IH. intros x y z Hx Hy Hz. apply Htrans; by right. }
    destruct Hhd as [|b l' Hab]; [constructor|].
    apply StronglySorted_inv in Hss as [_ Hall]. constructor; [done|].
    apply Forall_forall. intros c Hc. rewrite Forall_forall in Hall.
    apply (Htrans a b c); [by left|by right; left|by do 2 right|done|by apply Hall].
Qed.

(** [sortSummaryIDs] on ids of nodes: the ids it was given, each before
    or equal to all that follow. *)
Lemma sortSummaryIDs_nodes ids :
  Forall (λ id, is_Some (nodes !! id)) ids →
  sortSummaryIDs ids nodes ≡ₚ ids
  ∧ StronglySorted (λ a b, nodeBefore nodes a b ∨ a = b) (sortSummaryIDs ids nodes).
Proof.
  intros Hkeys. unfold sortSummaryIDs.
  assert (merge_sort (λ a b, ¬ summaryLess nodes b a) ids ≡ₚ ids) as Hperm
    by apply merge_sort_Permutation.
  split; [done|].
  assert (∀ x, x ∈ merge_sort (λ a b, ¬ summaryLess nodes b a) ids → is_Some (nodes !! x))
    as Hin.
  { intros x Hx. rewrite Hperm in Hx. rewrite Forall_forall in Hkeys. by apply Hkeys. }
  pose proof (Sorted_merge_sort (λ a b, ¬ summaryLess nodes b a) ids) as Hsorted.
  revert Hin Hsorted. generalize (merge_sort (λ a b, ¬ summaryLess nodes b a) ids).
  intros l Hin Hsorted. apply Sorted_nodes.
  - intros a b c _ _ _ [Hab| ->] [Hbc| ->]; [|by left|by left|by right].
    left. by eapply nodeBefore_trans.
  - clear Hperm. induction Hsorted as [|a l Hl IH Hhd]; [constructor|].
    constructor.
    + apply IH. intros x Hx. apply Hin. by right.
    + destruct Hhd as [|b l' Hab]; constructor.
      apply notAfter_nodes; [apply Hin; by left|apply Hin; by right; left|done].
Qed.

(** Without repeated ids the order is strict. *)
Lemma sortSummaryIDs_strict ids :
  Forall (λ id, is_Some (nodes !! id)) ids → NoDup ids →
  StronglySorted (nodeBefore nodes) (sortSummaryIDs ids nodes).
Proof.
  intros Hkeys Hnd. destruct (sortSummaryIDs_nodes ids Hkeys) as [Hperm Hsorted].
  rewrite <- Hperm in Hnd. revert Hnd Hsorted. generalize (sortSummaryIDs ids nodes).
  intros l Hnd Hsorted. induction Hsorted as [|a l Hl IH Hall]; [constructor|].
  apply NoDup_cons in Hnd as [Ha Hnd]. constructor; [by apply IH|].
  apply Forall_forall. intros b Hb. rewrite Forall_forall in Hall.
  destruct (Hall b Hb) as [?| ->]; done.
Qed.
End NodeOrder.

(** ** What the reader puts in a node *)

Lemma with_children_same n : with_children n (n_children n) = n.
Proof. by destruct n. Qed.

Lemma with_children_twice n a b : with_children (with_children n a) b = with_children n b.
Proof. done. Qed.

Section NodeRows.
Context (sanitizeForTerminal : string → string) (st : store) (cid : Z).

Lemma loadSummaryNodes_scan (l : list summary) : ∀ (acc : gmap string summaryNode) id n,
  foldl (λ (nodes : gmap string summaryNode) (s : summary),
           <[ s_summary_id s := scanNode sanitizeForTerminal s ]> nodes) acc l !! id = Some n →
  acc !! id = Some n
  ∨ ∃ s, s ∈ l ∧ s_summary_id s = id ∧ n = scanNode sanitizeForTerminal s.
Proof.
  induction l as [|s l IH]; intros acc id n; cbn [foldl]; [by left|].
  intros [Hacc|(s' & Hs' & Hid & Hn)]%IH.
  - apply lookup_insert_Some in Hacc as [[<- <-]|[_ Hacc]]; [|by left].
    right. exists s. split_and!; [by left|done..].
  - right. exists s'. split_and!; [by right|done..].
Qed.

Lemma loadSummaryNodes_row id n :
  loadSummaryNodes sanitizeForTerminal st cid !! id = Some n →
  ∃ s, s ∈ summaries st ∧ s_conversation_id s = cid ∧ s_summary_id s = id
       ∧ n = scanNode sanitizeForTerminal s.
Proof.
  unfold loadSummaryNodes. intros [Hempty|(s & Hs & Hid & Hn)]%loadSummaryNodes_scan.
  - by rewrite lookup_empty in Hempty.
  - apply list_elem_of_filter in Hs as [Hc Hs]. by exists s.
Qed.

(** What one edge row does to the node under [id]. *)
Lemma addEdge_lookup nodes childSet p c nodes' childSet' id :
  addEdge (nodes, childSet) (p, c) = (nodes', childSet') →
  nodes' !! id
  = (λ n, with_children n
            (n_children n ++ if decide (p = id ∧ is_Some (nodes !! c)) then [c] else []))
      <$> nodes !! id.
Proof.
  unfold addEdge.
  destruct (nodes !! p) as [pn|] eqn:Hp, (nodes !! c) as [cn|] eqn:Hc; intros [= <- <-].
  - destruct (decide (p = id)) as [<-|Hne].
    + rewrite lookup_insert_eq, Hp. simpl. rewrite decide_True; [done|]. by split.
    + rewrite lookup_insert_ne by done. destruct (nodes !! id) as [n|]; [|done]. simpl.
      rewrite decide_False by tauto. by rewrite app_nil_r, with_children_same.
  - destruct (nodes !! id) as [n|]; [|done]. simpl.
    rewrite decide_False by (intros [_ [? [=]]]). by rewrite app_nil_r, with_children_same.
  - destruct (nodes !! id) as [n|] eqn:Hid; [|done]. simpl.
    rewrite decide_False; [by rewrite app_nil_r, with_children_same|].
    intros [-> _]. by rewrite Hp in Hid.
  - destruct (nodes !! id) as [n|]; [|done]. simpl.
    rewrite decide_False by (intros [_ [? [=]]]). by rewrite app_nil_r, with_children_same.
Qed.

Lemma populate_lookup rows : ∀ nodes childSet nodes' childSet' id,
  foldl addEdge (nodes, childSet) rows = (nodes', childSet') →
  nodes' !! id
  = (λ n, with_children n
            (n_children n
             ++ (filter (λ row, row.1 = id ∧ is_Some (nodes !! row.2)) rows).*2))
      <$> nodes !! id.
Proof.
  induction rows as [|[p c] rows IH]; intros nodes childSet nodes' childSet' id; cbn [foldl].
  - intros [= <- <-]. destruct (nodes !! id) as [n|]; [|done]. simpl.
    by rewrite app_nil_r, with_children_same.
  - destruct (addEdge (nodes, childSet) (p, c)) as [nodes1 childSet1] eqn:Hstep.
    intros Hfold. rewrite (IH _ _ _ _ id Hfold).
    rewrite (addEdge_lookup _ _ _ _ _ _ id Hstep).
    destruct (nodes !! id) as [n|]; [|done]. simpl. f_equal.
    rewrite with_children_twice. f_equal. rewrite <- app_assoc. f_equal.
    assert (∀ x, is_Some (nodes1 !! x) ↔ is_Some (nodes !! x)) as Hdom.
    { intros x. rewrite (addEdge_lookup _ _ _ _ _ _ x Hstep). by rewrite fmap_is_Some. }
    rewrite (list_filter_iff (λ row, row.1 = id ∧ is_Some (nodes1 !! row.2))
                             (λ row, row.1 = id ∧ is_Some (nodes !! row.2)))
      by (intros row; by rewrite Hdom).
    rewrite filter_cons. simpl. destruct (decide (p = id ∧ is_Some (nodes !! c))); done.
Qed.

(** The nodes and the roots of a conversation that has summaries. *)
Lemma loaded_nodes sessionID g :
  loadSummaryGraph sanitizeForTerminal st sessionID = inr g →
  g_conversationID g = cid →
  ∃ nodes childSet,
    (size (loadSummaryNodes sanitizeForTerminal st cid) ≠ 0%nat →
     populateSummaryChildren st cid (loadSummaryNodes sanitizeForTerminal st cid)
     = (nodes, childSet)
     ∧ g_roots g = sortSummaryIDs (findSummaryRoots nodes childSet) nodes)
    ∧ (size (loadSummaryNodes sanitizeForTerminal st cid) = 0%nat → nodes = ∅ ∧ g_roots g = [])
    ∧ g_nodes g
      = (λ node, with_children node (sortSummaryIDs (n_children node) nodes)) <$> nodes.
Proof.
  unfold loadSummaryGraph.
  destruct (lookupConversationID st sessionID) as [|cid'] eqn:Hcid; [done|].
  destruct (decide (size _ = 0%nat)) as [Hempty|Hsome].
  - intros [= <-]. simpl. intros <-. exists ∅, ∅. split_and!; [done|done|].
    by rewrite fmap_empty.
  - destruct (populateSummaryChildren _ _ _) as [nodes childSet] eqn:Hpop.
    intros [= <-]. simpl. intros <-. exists nodes, childSet. split_and!; [done|done|done].
Qed.

Lemma populated_node nodes childSet id n :
  populateSummaryChildren st cid (loadSummaryNodes sanitizeForTerminal st cid)
  = (nodes, childSet) →
  nodes !! id = Some n →
  ∃ s, s ∈ summaries st ∧ s_conversation_id s = cid ∧ s_summary_id s = id
       ∧ n = with_children (scanNode sanitizeForTerminal s) (childEdges st cid id).
Proof.
  unfold populateSummaryChildren. intros Hpop Hn.
  rewrite (populate_lookup _ _ _ _ _ id Hpop) in Hn.
  destruct (loadSummaryNodes sanitizeForTerminal st cid !! id) as [n0|] eqn:Hn0; [|done].
  simpl in Hn. injection Hn as <-.
  destruct (loadSummaryNodes_row id n0 Hn0) as (s & Hs & Hc & Hid & ->).
  exists s. split_and!; [done..|]. simpl. unfold with_children. simpl. f_equal.
  unfold childEdges. f_equal. apply filter_ext_in.
  intros [p c] Hrow. simpl. split; [tauto|]. intros ->. split; [done|].
  apply (loadSummaryNodes_dom sanitizeForTerminal st cid).
  apply (edge_rows_elem st cid) in Hrow as (e & _ & _ & _ & Hin). done.
Qed.
End NodeRows.

Lemma nodeBefore_fmap (f : summaryNode → summaryNode) (nodes : gmap string summaryNode) a b :
  (∀ n, n_createdAt (f n) = n_createdAt n) →
  nodeBefore (f <$> nodes) a b ↔ nodeBefore nodes a b.
Proof.
  intros Hf. unfold nodeBefore. setoid_rewrite lookup_fmap. split.
  - intros (na & nb & Ha & Hb & Hab).
    destruct (nodes !! a) as [na0|]; [|done]. destruct (nodes !! b) as [nb0|]; [|done].
    simpl in Ha, Hb. injection Ha as <-. injection Hb as <-. rewrite !Hf in Hab.
    by exists na0, nb0.
  - intros (na & nb & Ha & Hb & Hab). exists (f na), (f nb). rewrite Ha, Hb, !Hf. done.
Qed.

Lemma StronglySorted_impl {A} (R1 R2 : relation A) l :
  (∀ x y, R1 x y → R2 x y) → StronglySorted R1 l → StronglySorted R2 l.
Proof.
  intros Himpl. induction 1 as [|a l _ IH Hall]; constructor; [done|].
  eapply Forall_impl; [done|]. intros b. apply Himpl.
Qed.

Lemma findSummaryRoots_NoDup (nodes : gmap string summaryNode) (childSet : gset string) :
  NoDup (findSummaryRoots nodes childSet)
  ∧ Forall (λ id, is_Some (nodes !! id)) (findSummaryRoots nodes childSet).
Proof.
  split.
  - unfold findSummaryRoots. destruct (decide _).
    + apply NoDup_fst_map_to_list.
    + apply NoDup_filter, NoDup_fst_map_to_list.
  - apply Forall_forall. intros id Hid. by apply findSummaryRoots_elem in Hid as [? _].
Qed.

Section LoadedGraph.
Context (sanitizeForTerminal : string → string) (st : store) (sessionID : string)
        (g : summaryGraph).
Hypothesis Hload : loadSummaryGraph sanitizeForTerminal st sessionID = inr g.

(** The map [populateSummaryChildren] leaves, of which the nodes of the
    graph are the copies with sorted children. *)
Lemma loaded_from :
  ∃ nodes childSet,
    g_nodes g = (λ node, with_children node (sortSummaryIDs (n_children node) nodes)) <$> nodes
    ∧ g_roots g = sortSummaryIDs (findSummaryRoots nodes childSet) nodes
    ∧ (∀ id n, nodes !! id = Some n →
         ∃ s, s ∈ summaries st ∧ s_conversation_id s = g_conversationID g
              ∧ s_summary_id s = id
              ∧ n = with_children (scanNode sanitizeForTerminal s)
                                  (childEdges st (g_conversationID g) id))
    ∧ (∀ id n x, nodes !! id = Some n → x ∈ n_children n → is_Some (nodes !! x)).
Proof.
  destruct (loaded_nodes sanitizeForTerminal st (g_conversationID g) sessionID g Hload eq_refl)
    as (nodes & childSet & Hsome & Hnone & Hnodes).
  destruct (decide (size (loadSummaryNodes sanitizeForTerminal st (g_conversationID g))
                    = 0%nat)) as [Hempty|Hfull].
  - destruct (Hnone Hempty) as [-> Hroots]. exists ∅, ∅. split_and!; [done| |done|done].
    rewrite Hroots. unfold findSummaryRoots. rewrite map_to_list_empty. done.
  - destruct (Hsome Hfull) as [Hpop Hroots]. exists nodes, childSet.
    split_and!; [done|done| |].
    + intros id n Hn.
      by apply (populated_node sanitizeForTerminal st _ nodes childSet id n Hpop).
    + intros id n x Hn Hx.
      destruct (populate_facts sanitizeForTerminal st (g_conversationID g) nodes childSet
                  Hpop) as (Hdom & _ & Hch).
      apply Hdom. by destruct (Hch id n x Hn Hx) as (_ & ? & _).
Qed.

Lemma loaded_node id n :
  g_nodes g !! id = Some n →
  ∃ s, s ∈ summaries st ∧ s_conversation_id s = g_conversationID g
       ∧ s_summary_id s = id
       ∧ n = with_children (scanNode sanitizeForTerminal s) (n_children n)
       ∧ n_children n ≡ₚ childEdges st (g_conversationID g) id.
Proof.
  destruct loaded_from as (nodes & childSet & Hnodes & _ & Hrow & _).
  rewrite Hnodes, lookup_fmap. destruct (nodes !! id) as [n0|] eqn:Hn0; [|done].
  simpl. intros [= <-]. destruct (Hrow id n0 Hn0) as (s & Hs & Hc & Hid & ->).
  exists s. split_and!; [done..|]. simpl.
  unfold sortSummaryIDs. apply merge_sort_Permutation.
Qed.
End LoadedGraph.

(** X8: every node of the graph the reader returns is a summary row of
    the conversation: it carries the row's id, kind, creation time and
    token count, the row's content as [sanitizeForTerminal] rewrites it,
    is not expanded, and has for children the child ends of the parent
    edges the conversation holds under it, once per edge row. *)
Theorem graph_nodes_are_rows sanitizeForTerminal st sessionID g id n :
  loadSummaryGraph sanitizeForTerminal st sessionID = inr g →
  g_nodes g !! id = Some n →
  ∃ s, s ∈ summaries st
       ∧ s_conversation_id s = g_conversationID g ∧ s_summary_id s = id
       ∧ n_id n = id ∧ n_kind n = s_kind s
       ∧ n_content n = sanitizeForTerminal (s_content s)
       ∧ n_createdAt n = s_created_at s ∧ n_tokenCount n = s_token_count s
       ∧ n_expanded n = false
       ∧ n_children n ≡ₚ childEdges st (g_conversationID g) id.
Proof.
  intros Hload Hn.
  destruct (loaded_node sanitizeForTerminal st sessionID g Hload id n Hn)
    as (s & Hs & Hc & Hid & Heq & Hperm).
  exists s. split_and!; try done; by rewrite Heq.
Qed.

Lemma graph_nodes_are_rows_witness :
  ∃ g n, loadSummaryGraph (λ s, s) exampleStore "s1" = inr g
         ∧ g_nodes g !! "sum_a"%string = Some n
         ∧ n_kind n = "leaf"%string ∧ n_children n = ["sum_x"%string]
         ∧ n_expanded n = false.
Proof.
  destruct (loadSummaryGraph (λ s, s) exampleStore "s1") as [e|g] eqn:E;
    [by vm_compute in E|].
  destruct (g_nodes g !! "sum_a"%string) as [n|] eqn:En.
  - exists g, n. split; [done|]. split; [done|].
    destruct (graph_nodes_are_rows _ _ _ _ _ _ E En)
      as (s & _ & _ & _ & _ & _ & _ & _ & _ & Hexp & _).
    vm_compute in E. injection E as <-. vm_compute in En. injection En as <-. done.
  - vm_compute in E. injection E as <-. by vm_compute in En.
Defined.

(** X9: the root list holds no id twice and is in ascending order of
    creation time, ids breaking ties; so is every children list, where an
    id may repeat. *)
Theorem graph_lists_sorted sanitizeForTerminal st sessionID g :
  loadSummaryGraph sanitizeForTerminal st sessionID = inr g →
  NoDup (g_roots g)
  ∧ StronglySorted (nodeBefore (g_nodes g)) (g_roots g)
  ∧ ∀ id n, g_nodes g !! id = Some n →
            StronglySorted (λ a b, nodeBefore (g_nodes g) a b ∨ a = b) (n_children n).
Proof.
  intros Hload.
  destruct (loaded_from sanitizeForTerminal st sessionID g Hload)
    as (nodes & childSet & Hnodes & Hroots & Hrow & Hclosed).
  assert (∀ id n, nodes !! id = Some n → n_id n = id) as Hids.
  { intros id n Hn. by destruct (Hrow id n Hn) as (s & _ & _ & <- & ->). }
  assert (∀ a b, nodeBefore (g_nodes g) a b ↔ nodeBefore nodes a b) as Hbefore.
  { intros a b. rewrite Hnodes. by apply nodeBefore_fmap. }
  destruct (findSummaryRoots_NoDup nodes childSet) as [Hnd Hkeys].
  split_and!.
  - rewrite Hroots. unfold sortSummaryIDs. by rewrite merge_sort_Permutation.
  - rewrite Hroots.
    apply (StronglySorted_impl (nodeBefore nodes));
      [|by apply (sortSummaryIDs_strict nodes Hids)].
    intros a b. by rewrite Hbefore.
  - intros id n. rewrite Hnodes, lookup_fmap.
    destruct (nodes !! id) as [n0|] eqn:Hn0; [|done]. simpl. intros [= <-]. simpl.
    assert (Forall (λ x, is_Some (nodes !! x)) (n_children n0)) as Hch.
    { apply Forall_forall. intros x Hx. by apply (Hclosed id n0). }
    destruct (sortSummaryIDs_nodes nodes Hids (n_children n0) Hch) as [_ Hsorted].
    apply (StronglySorted_impl (λ a b, nodeBefore nodes a b ∨ a = b)); [|done].
    intros a b. by rewrite nodeBefore_fmap.
Qed.

Lemma graph_lists_sorted_witness :
  ∃ g, loadSummaryGraph (λ s, s) exampleStore "s1" = inr g
       ∧ g_roots g = ["sum_a"; "sum_b"; "sum_c"; "sum_e"; "sum_l"]%string
       ∧ StronglySorted (nodeBefore (g_nodes g)) (g_roots g).
Proof.
  destruct (loadSummaryGraph (λ s, s) exampleStore "s1") as [e|g] eqn:E;
    [by vm_compute in E|].
  exists g. destruct (graph_lists_sorted _ _ _ _ E) as (_ & Hsorted & _).
  split; [done|]. split; [|done]. vm_compute in E. by injection E as <-.
Defined.

(** ** A graph just loaded, flattened *)

Lemma collapsed_rows (g : summaryGraph) fuel roots : ∀ rows,
  Forall (λ id, ∃ n, g_nodes g !! id = Some n ∧ n_expanded n = false) roots →
  foldl (λ acc rootID, rows ← acc; st ← walk (S fuel) g rootID 0 (rows, ∅); Some st.1)
        (Some rows) roots
  = Some (rows ++ (topRow <$> roots)).
Proof.
  induction roots as [|id roots IH]; intros rows Hall.
  - simpl. by rewrite app_nil_r.
  - apply Forall_cons in Hall as [(n & Hn & Hexp) Hall]. cbn [foldl].
    assert (walk (S fuel) g id 0 (rows, ∅) = Some (rows ++ [topRow id], ∅)) as Hwalk.
    { simpl. rewrite decide_False by set_solver. rewrite Hn, Hexp. done. }
    cbn [mbind option_bind]. rewrite Hwalk. cbn [mbind option_bind fst].
    rewrite IH by done. by rewrite <- app_assoc.
Qed.

(** X10: flattening a graph just loaded lists its roots, in the order of
    the root list, each at depth 0, and nothing else: no node starts
    expanded. *)
Theorem loaded_graph_rows sanitizeForTerminal st sessionID g :
  loadSummaryGraph sanitizeForTerminal st sessionID = inr g →
  buildSummaryRows g = Some (topRow <$> g_roots g).
Proof.
  intros Hload. unfold buildSummaryRows, buildSummaryRowsFrom.
  rewrite collapsed_rows; [done|].
  apply Forall_forall. intros id Hid.
  destruct (loaded_graph sanitizeForTerminal st sessionID g Hload) as (Hdom & Hroots & _).
  apply Hroots in Hid as [Hin _]. apply Hdom in Hin as [n Hn]. exists n. split; [done|].
  by destruct (loaded_node sanitizeForTerminal st sessionID g Hload id n Hn)
    as (s & _ & _ & _ & -> & _).
Qed.

Lemma loaded_graph_rows_witness :
  ∃ g, loadSummaryGraph (λ s, s) exampleStore "s1" = inr g
       ∧ buildSummaryRows g
         = Some (topRow <$> ["sum_a"; "sum_b"; "sum_c"; "sum_e"; "sum_l"]%string).
Proof.
  destruct (loadSummaryGraph (λ s, s) exampleStore "s1") as [e|g] eqn:E;
    [by vm_compute in E|].
  exists g. split; [done|]. rewrite (loaded_graph_rows _ _ _ _ E).
  vm_compute in E. by injection E as <-.
Defined.

(** ** The flattened tree *)

Lemma app_eq_middle {A} (l1 l2 before after : list A) r :
  l1 ++ l2 = before ++ r :: after →
  (∃ mid, l1 = before ++ r :: mid ∧ after = mid ++ l2)
  ∨ (∃ mid, before = l1 ++ mid ∧ l2 = mid ++ r :: after).
Proof.
  revert before. induction l1 as [|a l1 IH]; intros before Heq.
  - right. by exists before.
  - destruct before as [|b before]; simpl in Heq.
    + injection Heq as -> <-. left. by exists l1.
    + injection Heq as -> Heq. destruct (IH before Heq) as [(mid & -> & ->)|(mid & -> & ->)].
      * left. by exists mid.
      * right. by exists mid.
Qed.

Section Rows.
Context (g : summaryGraph).

Lemma linked_nil floor : linked g floor [].
Proof. intros before row after Heq. by destruct before. Qed.

Lemma linked_app floor rows1 rows2 :
  linked g floor rows1 → linked g floor rows2 → linked g floor (rows1 ++ rows2).
Proof.
  intros H1 H2 before row after Heq Hdeep.
  apply app_eq_middle in Heq as [(mid & Hl1 & _)|(mid & -> & Hl2)].
  - by apply (H1 before row mid).
  - destruct (H2 mid row after Hl2 Hdeep) as (above & parent & between & -> & Hu & Hb).
    exists (rows1 ++ above), parent, between. by rewrite <- app_assoc.
Qed.

(** The rows a node contributes: its own row, then rows that lie deeper,
    those one level down being its children. *)
Lemma linked_node floor id node below :
  g_nodes g !! id = Some node → n_expanded node = true →
  Forall (λ r, floor + 1 <= r_depth r) below →
  Forall (λ r, r_depth r = floor + 1 → r_summaryID r ∈ n_children node) below →
  linked g (floor + 1) below →
  linked g floor ({| r_summaryID := id; r_depth := floor |} :: below).
Proof.
  intros Hnode Hexp Hdeep Hchild Hlinked before row after Heq Hrow.
  destruct before as [|first before]; simpl in Heq.
  { injection Heq as <- _. simpl in Hrow. lia. }
  injection Heq as <- Heq.
  rewrite Heq in Hdeep, Hchild.
  apply Forall_app in Hdeep as [Hbefore Hdeep]. apply Forall_cons in Hdeep as [Hd _].
  apply Forall_app in Hchild as [_ Hchild]. apply Forall_cons in Hchild as [Hc _].
  destruct (decide (r_depth row = floor + 1)) as [Heq1|Hne].
  - exists [], {| r_summaryID := id; r_depth := floor |}, before. split_and!; [done| |].
    + split; [done|]. exists node. simpl. split_and!; [done..|]. by apply Hc.
    + apply (Forall_impl _ _ _ Hbefore). intros r. simpl. lia.
  - destruct (Hlinked before row after Heq ltac:(lia))
      as (above & parent & between & -> & Hu & Hb).
    by exists ({| r_summaryID := id; r_depth := floor |} :: above), parent, between.
Qed.

Hypothesis Hsize : Z.of_nat (size (g_nodes g)) < 2 ^ 63.

Lemma walk_children_rows fuel depth (path : gset string) node :
  (∀ childID rows rows' path',
     walk fuel g childID depth (rows, path) = Some (rows', path') →
     path' = path
     ∧ ∃ new, rows' = rows ++ new ∧ walked g path childID depth new
              ∧ Forall (rowOfNode g) new ∧ linked g depth new) →
  ∀ children rows rows' path',
    (∀ c, c ∈ children → c ∈ n_children node) →
    foldl (λ acc childID, acc ≫= walk fuel g childID depth) (Some (rows, path)) children
    = Some (rows', path') →
    path' = path
    ∧ ∃ new, rows' = rows ++ new
             ∧ Forall (λ r, depth <= r_depth r) new
             ∧ Forall (λ r, r_depth r = depth → r_summaryID r ∈ n_children node) new
             ∧ Forall (rowOfNode g) new ∧ linked g depth new.
Proof.
  intros Hwalk. induction children as [|c children IH]; intros rows rows' path' Hsub; cbn [foldl].
  - intros [= <- <-]. split; [done|]. exists []. rewrite app_nil_r.
    split_and!; [done|constructor..|apply linked_nil].
  - cbn [mbind option_bind].
    destruct (walk fuel g c depth (rows, path)) as [[rows1 path1]|] eqn:Hc;
      [|by rewrite walk_children_none].
    destruct (Hwalk c rows rows1 path1 Hc) as (-> & new1 & -> & Hnew1 & Hkeys1 & Hlinked1).
    intros Hrest.
    destruct (IH (rows ++ new1) rows' path' ltac:(intros x Hx; apply Hsub; by right) Hrest)
      as (-> & new2 & -> & Hd2 & Hc2 & Hkeys2 & Hlinked2).
    split; [done|]. exists (new1 ++ new2). rewrite app_assoc. split_and!; [done|..].
    + apply Forall_app. split; [|done].
      destruct Hnew1 as [[-> _]|(below & -> & Hbelow)]; [constructor|].
      constructor; [simpl; lia|]. apply (Forall_impl _ _ _ Hbelow). intros r. simpl. lia.
    + apply Forall_app. split; [|done].
      destruct Hnew1 as [[-> _]|(below & -> & Hbelow)]; [constructor|].
      constructor; [intros _; apply Hsub; by left|].
      apply (Forall_impl _ _ _ Hbelow). intros r. simpl. lia.
    + by apply Forall_app.
    + by apply linked_app.
Qed.

Lemma walk_rows fuel : ∀ id depth rows (path : gset string) rows' path',
  path ⊆ dom (g_nodes g) → depth = Z.of_nat (size path) →
  walk fuel g id depth (rows, path) = Some (rows', path') →
  path' = path
  ∧ ∃ new, rows' = rows ++ new ∧ walked g path id depth new
           ∧ Forall (rowOfNode g) new ∧ linked g depth new.
Proof.
  induction fuel as [|fuel IH]; intros id depth rows path rows' path' Hpath Hdepth; [done|].
  simpl. destruct (decide (id ∈ path)) as [|Hnew].
  { intros [= <- <-]. split; [done|]. exists []. rewrite app_nil_r.
    split_and!; [done|left; split; [done|by left]|constructor|apply linked_nil]. }
  destruct (g_nodes g !! id) as [node|] eqn:Hnode.
  2:{ intros [= <- <-]. split; [done|]. exists []. rewrite app_nil_r.
      split_and!; [done|left; split; [done|by right]|constructor|apply linked_nil]. }
  destruct (n_expanded node) eqn:Hexp; simpl.
  2:{ intros [= <- <-]. split; [done|]. eexists. split; [done|]. split_and!.
      - right. exists []. split; [done|constructor].
      - apply Forall_singleton. unfold rowOfNode. simpl. by rewrite Hnode.
      - intros before row after Heq Hrow. destruct before as [|? [|? ?]]; [|done..].
        injection Heq as <- _. simpl in Hrow. lia. }
  assert ({[id]} ∪ path ⊆ dom (g_nodes g)) as Hpath1.
  { apply union_subseteq. split; [|done]. apply singleton_subseteq_l, elem_of_dom. eauto. }
  assert (size ({[id]} ∪ path) = S (size path)) as Hsize1.
  { rewrite size_union by set_solver. by rewrite size_singleton. }
  assert (wrap64 (depth + 1) = depth + 1) as Hwrap.
  { apply wrap64_small. apply subseteq_size in Hpath1. rewrite size_dom in Hpath1. lia. }
  rewrite Hwrap.
  destruct (foldl _ _ _) as [[rows1 path1]|] eqn:Hfold; [|done]. intros [= <- <-].
  assert (∀ c r r' p',
            walk fuel g c (depth + 1) (r, {[id]} ∪ path) = Some (r', p') →
            p' = {[id]} ∪ path
            ∧ ∃ new, r' = r ++ new ∧ walked g ({[id]} ∪ path) c (depth + 1) new
                     ∧ Forall (rowOfNode g) new ∧ linked g (depth + 1) new) as Hchildren.
  { intros c r r' p' Hc. apply (IH c (depth + 1) r _ r' p' Hpath1); [|done].
    rewrite Hsize1, Hdepth. lia. }
  destruct (walk_children_rows fuel (depth + 1) ({[id]} ∪ path) node Hchildren
              (n_children node) _ rows1 path1 ltac:(done) Hfold)
    as (-> & new & -> & Hdeep & Hchild & Hkeys & Hlinked).
  split; [set_solver|].
  exists ({| r_summaryID := id; r_depth := depth |} :: new).
  rewrite <- app_assoc. split_and!; [done| | |].
  - right. exists new. split; [done|]. apply (Forall_impl _ _ _ Hdeep). intros r. simpl. lia.
  - constructor; [|done]. unfold rowOfNode. simpl. by rewrite Hnode.
  - by apply (linked_node depth id node new).
Qed.

Lemma roots_rows fuel roots : ∀ rows rows',
  foldl (λ acc rootID, rows ← acc; st ← walk fuel g rootID 0 (rows, ∅); Some st.1)
        (Some rows) roots = Some rows' →
  ∃ new, rows' = rows ++ new
         ∧ Forall (λ r, rowOfNode g r ∧ 0 <= r_depth r) new
         ∧ filter (λ r, r_depth r = 0) new
           = topRow <$> filter (λ id, is_Some (g_nodes g !! id)) roots
         ∧ linked g 0 new.
Proof.
  induction roots as [|root roots IH]; intros rows rows'; cbn [foldl].
  - intros [= <-]. exists []. rewrite app_nil_r.
    split_and!; [done|constructor|done|apply linked_nil].
  - cbn [mbind option_bind].
    destruct (walk fuel g root 0 (rows, ∅)) as [[rows1 path1]|] eqn:Hwalk.
    2:{ intros Hnone. exfalso. revert Hnone. clear. induction roots; [done|]. done. }
    cbn [mbind option_bind fst].
    destruct (walk_rows fuel root 0 rows ∅ rows1 path1 ltac:(set_solver)
                ltac:(by rewrite size_empty) Hwalk)
      as (-> & new1 & -> & Hnew1 & Hkeys1 & Hlinked1).
    intros (new2 & -> & Hkeys2 & Htop2 & Hlinked2)%IH.
    exists (new1 ++ new2). rewrite app_assoc. split_and!; [done| | |by apply linked_app].
    + apply Forall_app. split; [|done].
      destruct Hnew1 as [[-> _]|(below & -> & Hbelow)]; [constructor|].
      apply Forall_cons in Hkeys1 as [Hk Hkeys1]. constructor; [by split|].
      apply Forall_forall. intros r Hr. rewrite Forall_forall in Hkeys1, Hbelow.
      split; [by apply Hkeys1|]. specialize (Hbelow r Hr). simpl in *. lia.
    + rewrite filter_app, Htop2, filter_cons.
      destruct Hnew1 as [[-> [Hin|Hno]]|(below & -> & Hbelow)].
      * by apply elem_of_empty in Hin.
      * rewrite decide_False by (rewrite Hno; by intros [? [=]]). done.
      * apply Forall_cons in Hkeys1 as [Hk _]. unfold rowOfNode in Hk. simpl in Hk.
        rewrite decide_True by done. rewrite filter_cons, decide_True by done.
        rewrite (filter_none _ below); [done|].
        apply (Forall_impl _ _ _ Hbelow). intros r. simpl. lia.
Qed.
End Rows.

(** X11: the rows [buildSummaryRows] returns draw a forest.  Every row
    belongs to a node of the graph; the rows at depth 0 are the roots that
    are nodes, in the order of the root list; and every deeper row has its
    parent above it, the nearest row before it that is less deep: a row
    one level up, of an expanded node that lists it as a child. *)
Theorem summary_rows_forest (g : summaryGraph) (rows : list summaryRow) :
  Z.of_nat (size (g_nodes g)) < 2 ^ 63 →
  buildSummaryRows g = Some rows →
  Forall (λ r, rowOfNode g r ∧ 0 <= r_depth r) rows
  ∧ filter (λ r, r_depth r = 0) rows
    = topRow <$> filter (λ id, is_Some (g_nodes g !! id)) (g_roots g)
  ∧ linked g 0 rows.
Proof.
  intros Hsize Hrows. unfold buildSummaryRows, buildSummaryRowsFrom in Hrows.
  by destruct (roots_rows g Hsize _ _ _ _ Hrows) as (new & -> & Hkeys & Htop & Hlinked).
Qed.

Lemma summary_rows_forest_witness :
  let row id depth := {| r_summaryID := id; r_depth := depth |} in
  buildSummaryRows expandedCycle
  = Some [row "sum_p" 0; row "sum_q" 1; row "sum_q" 0; row "sum_p" 1]%string
  ∧ linked expandedCycle 0
           [row "sum_p" 0; row "sum_q" 1; row "sum_q" 0; row "sum_p" 1]%string.
Proof.
  intros row.
  assert (buildSummaryRows expandedCycle
          = Some [row "sum_p" 0; row "sum_q" 1; row "sum_q" 0; row "sum_p" 1]%string) as Hrun
    by (vm_compute; reflexivity).
  split; [done|].
  assert (Z.of_nat (size (g_nodes expandedCycle)) < 2 ^ 63) as Hsize
    by (vm_compute; reflexivity).
  by destruct (summary_rows_forest expandedCycle _ Hsize Hrun) as (_ & _ & Hlinked).
Defined.

(** ** The trace of a dissolve *)






Lemma query_traced {A} (q : store → A) w r w1 :
  query q w = (r, w1) → traced [] [CallQuery] w w1.
Proof. intros [= <- <-]. split; simpl; by rewrite ?app_nil_r. Qed.



#[global] Instance statements_only_refl : Reflexive statements_only.
Proof. intros w Htx. split; [done|]. exists 0%nat. simpl. by rewrite app_nil_r. Qed.

#[global] Instance statements_only_trans : Transitive statements_only.
Proof.
  intros w1 w2 w3 H12 H23 Htx. destruct (H12 Htx) as [Htx2 [n Hn]].
  destruct (H23 Htx2) as [Htx3 [m Hm]]. split; [done|]. exists (n + m)%nat.
  by rewrite Hm, Hn, replicate_add, app_assoc.
Qed.

#[local] Transparent always on_error.




#[local] Opaque always on_error.







(** ** The calls of a dissolve, whatever fails *)

Lemma io_bind_inv {A B} (m : io A) (k : A → io B) w r w' :
  (m ≫= k) w = (r, w') →
  (∃ e, m w = (inl e, w') ∧ r = inl e) ∨ ∃ a w1, m w = (inr a, w1) ∧ k a w1 = (r, w').
Proof.
  unfold mbind, io_bind. destruct (m w) as [[e|a] w1].
  - intros [= <- <-]. left. eauto.
  - intros Hk. right. eauto.
Qed.

Lemma lift_inv {A} (c : cmd A) w r w' :
  lift c w = (r, w') →
  ∃ r0, c w = (r0, w') ∧ r = match r0 with inl e => inl (Failed e) | inr a => inr a end.
Proof. unfold lift. destruct (c w) as [[e|a] w1]; intros [= <- <-]; eauto. Qed.

Lemma lift_printLine l w r w' :
  lift (printLine l) w = (r, w') →
  r = inr () ∧ w_db w' = w_db w ∧ w_tx w' = w_tx w ∧ w_calls w' = w_calls w.
Proof. by intros [= <- <-]. Qed.

Lemma lift_printPlan target parents w r w' :
  lift (printPlan target parents) w = (r, w') →
  r = inr () ∧ w_db w' = w_db w ∧ w_tx w' = w_tx w ∧ w_calls w' = w_calls w.
Proof. unfold lift. rewrite printPlan_run. by intros [= <- <-]. Qed.

Section FaultFacts.
Context (faulty : nat → bool).

Lemma queryIO_inv {A} site (q : store → A) w r w' :
  queryIO faulty site q w = (r, w') →
  w_db w' = w_db w ∧ w_tx w' = w_tx w ∧ w_calls w' = w_calls w ++ [CallQuery]
  ∧ (r = inl (Faulted site) ∨ r = inr (q (w_db w))).
Proof.
  unfold queryIO, orFault. destruct (faulty _); intros [= <- <-]; simpl; auto.
Qed.

Lemma runs_bind {A B} n m (c : io A) (k : A → io B) :
  runs n c → (∀ a, runs m (k a)) → runs (n + m) (c ≫= k).
Proof.
  intros Hc Hk w r w' Htx [(e & Hm & ->)|(a & w1 & Hm & Hrun)]%io_bind_inv.
  - destruct (Hc _ _ _ Htx Hm) as (Htx' & Hstage & j & Hj & Hcalls).
    split; [done|]. split; [done|]. exists j. split; [lia|done].
  - destruct (Hc _ _ _ Htx Hm) as (Htx1 & Hcalls1).
    destruct (Hk a _ _ _ Htx1 Hrun) as (Htx' & Hres). split; [done|].
    destruct r as [e|b].
    + destruct Hres as (Hstage & j & Hj & Hcalls). split; [done|].
      exists (n + j)%nat. split; [lia|].
      by rewrite Hcalls, Hcalls1, replicate_add, app_assoc.
    + by rewrite Hres, Hcalls1, replicate_add, app_assoc.
Qed.

Lemma runs_ret {A} (a : A) : runs 0 (mret a : io A).
Proof. intros w r w' Htx [= <- <-]. split; [done|]. simpl. by rewrite app_nil_r. Qed.

Lemma runs_printLine l : runs 0 (lift (printLine l)).
Proof.
  intros w r w' Htx (-> & _ & Htx' & Hcalls)%lift_printLine.
  split; [by rewrite Htx'|]. simpl. by rewrite app_nil_r.
Qed.

Lemma runs_fail {A} n e : stageOf e = StageStatements → runs n (failWith e : io A).
Proof.
  intros Hstage w r w' Htx [= <- <-]. split; [done|]. split; [done|].
  exists 0%nat. split; [lia|]. simpl. by rewrite app_nil_r.
Qed.

Lemma runs_execIO site stmt wrap :
  stageOf (Faulted site) = StageStatements →
  (∀ e, stageOf (Failed (wrap e)) = StageStatements) →
  runs 1 (execIO faulty site stmt wrap).
Proof.
  intros Hsite Hwrap w r w' [t Htx]. unfold execIO, orFault, lift, exec. rewrite Htx.
  destruct (faulty _).
  - intros [= <- <-]. simpl. split; [by rewrite Htx|]. split; [done|].
    exists 1%nat. split; [lia|done].
  - destruct (stmt t) as [e|[t' n]]; intros [= <- <-]; simpl.
    + split; [by rewrite Htx|]. split; [apply (Hwrap e)|]. exists 1%nat. split; [lia|done].
    + split; [done|done].
Qed.

Lemma runs_forRangeIO {A} (body : nat → A → io unit) l : ∀ i,
  (∀ i x, runs 1 (body i x)) → runs (length l) (forRangeIO i l body).
Proof.
  induction l as [|x l IH]; intros i Hbody; simpl.
  - apply (runs_ret ()).
  - apply (runs_bind 1 (length l)); [apply Hbody|intros _]. by apply IH.
Qed.

Lemma commits_bind {A B} n m (c : io A) (k : A → io B) :
  runs n c → (∀ a, commits m (k a)) → commits (n + m) (c ≫= k).
Proof.
  intros Hc Hk w r w' Htx [(e & Hm & ->)|(a & w1 & Hm & Hrun)]%io_bind_inv.
  - destruct (Hc _ _ _ Htx Hm) as (Htx' & Hstage & j & Hj & Hcalls).
    rewrite Hstage. exists j. split; [lia|done].
  - destruct (Hc _ _ _ Htx Hm) as (Htx1 & Hcalls1).
    pose proof (Hk a _ _ _ Htx1 Hrun) as Hres.
    destruct r as [e|b].
    + destruct (stageOf e); try done.
      * destruct Hres as (j & Hj & Hcalls). exists (n + j)%nat. split; [lia|].
        by rewrite Hcalls, Hcalls1, replicate_add, app_assoc.
      * by rewrite Hres, Hcalls1, replicate_add, <- !app_assoc.
    + by rewrite Hres, Hcalls1, replicate_add, <- !app_assoc.
Qed.

Lemma commits_fail {A} n e : stageOf e = StageStatements → commits n (failWith e : io A).
Proof.
  intros Hstage w r w' Htx [= <- <-]. rewrite Hstage.
  exists 0%nat. split; [lia|]. simpl. by rewrite app_nil_r.
Qed.

Lemma commits_commitIO : commits 0 (commitIO faulty).
Proof.
  intros w r w' [t Htx]. unfold commitIO, orFault, lift, commit. rewrite Htx.
  destruct (faulty _); by intros [= <- <-].
Qed.

Lemma commits_count {A} n m (c : io A) : n = m → commits n c → commits m c.
Proof. by intros ->. Qed.

(** The transaction between BEGIN and the end. *)
Lemma applyDissolveIO_commits opts cid target parents ti shift now :
  commits (1 + (if decide (shift > 0) then 2 else 0) + length parents
           + (if purge opts then 2 else 0))
          (applyDissolveIO faulty opts cid target parents ti shift now).
Proof.
  unfold applyDissolveIO.
  eapply commits_count; last first.
  - apply (commits_bind 1); [by apply runs_execIO|intros deleted].
    destruct (decide (deleted ≠ 1)); [by apply commits_fail|].
    apply (commits_bind 0); [apply runs_printLine|intros _].
    apply (commits_bind (if decide (shift > 0) then 2 else 0)); [|intros _].
    { destruct (decide (shift > 0)); [|apply (runs_ret ())].
      apply (runs_bind 1 1); [by apply runs_execIO|intros _].
      apply (runs_bind 1 0); [by apply runs_execIO|intros _]. apply runs_printLine. }
    apply (commits_bind (length parents)); [|intros _].
    { apply runs_forRangeIO. intros i p.
      apply (runs_bind 1 0); [by apply runs_execIO|intros _]. apply (runs_ret ()). }
    apply (commits_bind 0); [apply runs_printLine|intros _].
    apply (commits_bind (if purge opts then 2 else 0)); [|intros _].
    { destruct (purge opts); [|apply (runs_ret ())].
      apply (runs_bind 1 1); [by apply runs_execIO|intros _].
      apply (runs_bind 1 0); [by apply runs_execIO|intros _]. apply runs_printLine. }
    apply commits_commitIO.
  - destruct (decide (shift > 0)), (purge opts); simpl; lia.
Qed.

(** The transaction from BEGIN on. *)
Lemma dissolveTxIO_calls opts cid target parents ti shift now w r w' :
  w_tx w = None →
  dissolveTxIO faulty opts cid target parents ti shift now w = (r, w') →
  let n := (1 + (if decide (shift > 0)%Z then 2 else 0) + length parents
            + (if purge opts then 2 else 0))%nat in
  match r with
  | inr _ => w_calls w' = w_calls w ++ [CallBeginTx] ++ replicate n CallExec ++ [CallCommit]
  | inl e =>
      match stageOf e with
      | StagePlan => False
      | StageBegin => w_calls w' = w_calls w ++ [CallBeginTx]
      | StageStatements =>
          ∃ m, (m ≤ n)%nat
               ∧ w_calls w' = w_calls w ++ [CallBeginTx] ++ replicate m CallExec
                              ++ [CallRollback]
      | StageCommit =>
          w_calls w' = w_calls w ++ [CallBeginTx] ++ replicate n CallExec
                       ++ [CallCommit; CallRollback]
      end
  end.
Proof.
  intros Hnone Hrun n. unfold dissolveTxIO in Hrun.
  apply io_bind_inv in Hrun as [(e & Hb & ->)|([] & w1 & Hb & Hrun)].
  - unfold beginTxIO, orFault, lift, beginTx in Hb.
    destruct (faulty _); [|done]. by injection Hb as <- <-.
  - assert (is_Some (w_tx w1) ∧ w_calls w1 = w_calls w ++ [CallBeginTx]) as [Htx Hcalls].
    { unfold beginTxIO, orFault, lift, beginTx in Hb.
      destruct (faulty _); [done|]. injection Hb as <-. by split. }
    unfold deferRollbackIO in Hrun.
    destruct (applyDissolveIO _ _ _ _ _ _ _ _ w1) as [[e|[]] w2] eqn:Happly;
      injection Hrun as <- <-;
      pose proof (applyDissolveIO_commits _ _ _ _ _ _ _ _ _ _ Htx Happly) as Hres;
      cbv beta iota in Hres; fold n in Hres.
    + destruct (stageOf e); try done.
      * destruct Hres as (m & Hm & Hcalls2). exists m. split; [done|].
        unfold rollbackTx. cbn [w_calls]. by rewrite Hcalls2, Hcalls, <- !app_assoc.
      * unfold rollbackTx. cbn [w_calls]. by rewrite Hres, Hcalls, <- !app_assoc.
    + by rewrite Hres, Hcalls, <- !app_assoc.
Qed.

Lemma loadDissolveTargetIO_inv cid sid w r w' :
  loadDissolveTargetIO faulty cid sid w = (r, w') →
  w_db w' = w_db w ∧ w_tx w' = w_tx w ∧ w_calls w' = w_calls w ++ [CallQuery]
  ∧ match r with inl e => stageOf e = StagePlan | inr _ => True end.
Proof.
  unfold loadDissolveTargetIO.
  intros [(e & Hq & ->)|(rows & w1 & Hq & Hrun)]%io_bind_inv;
    apply queryIO_inv in Hq as (Hdb & Htx & Hcalls & [Hr|Hr]); try done.
  - by injection Hr as ->.
  - destruct rows as [|[s ci] rows]; [by injection Hrun as <- <-|].
    cbv zeta in Hrun. destruct (decide _); by injection Hrun as <- <-.
Qed.

Lemma verifyCount_inv cid w r w' :
  verifyCount faulty cid w = (r, w') →
  (∃ n, r = inr n) ∧ w_calls w' = w_calls w ++ [CallQuery].
Proof.
  unfold verifyCount, lift, query. destruct (faulty _); intros [= <- <-]; eauto.
Qed.

(** X13: the calls a dissolve with [--apply] makes on the database,
    whatever fails, a call that fails on its own included.  A run that
    goes through has made three queries, BEGIN, the statements of
    [statementCount], COMMIT and a last query.  A run that fails has
    stopped at its stage: in the preconditions and the plan after one to
    three queries and nothing else; at a failing BEGIN with nothing after
    it; in a statement after no more statements than a whole run makes,
    followed by ROLLBACK and no COMMIT; at a failing COMMIT after all the
    statements, followed by the deferred ROLLBACK. *)
Theorem dissolve_transaction_calls opts cid now st r w :
  apply opts = true →
  dissolveIO faulty opts cid now st = (r, w) →
  let n := statementCount opts (length (parentsOfTarget st (summaryID opts))) in
  match r with
  | inr _ => w_calls w = begun ++ replicate n CallExec ++ [CallCommit; CallQuery]
  | inl e =>
      match stageOf e with
      | StagePlan => ∃ q, (1 ≤ q ≤ 3)%nat ∧ w_calls w = replicate q CallQuery
      | StageBegin => w_calls w = begun
      | StageStatements =>
          ∃ m, (m ≤ n)%nat
               ∧ w_calls w = begun ++ replicate m CallExec ++ [CallRollback]
      | StageCommit =>
          w_calls w = begun ++ replicate n CallExec ++ [CallCommit; CallRollback]
      end
  end.
Proof.
  intros Happ Hrun n. unfold dissolveIO, runDissolveCommandIO in Hrun.
  apply io_bind_inv in Hrun as [(e & Ht & ->)|(target & w1 & Ht & Hrun)];
    apply loadDissolveTargetIO_inv in Ht as (Hdb1 & Htx1 & Hcalls1 & Hstage).
  { rewrite Hstage. exists 1%nat. split; [lia|]. by rewrite Hcalls1. }
  simpl in Hdb1, Htx1, Hcalls1. clear Hstage.
  apply io_bind_inv in Hrun as [(e & Hp & ->)|(parents & w2 & Hp & Hrun)];
    apply queryIO_inv in Hp as (Hdb2 & Htx2 & Hcalls2 & [Hr|Hr]); try done.
  { injection Hr as ->. exists 2%nat. split; [lia|]. by rewrite Hcalls2, Hcalls1. }
  injection Hr as ->. rewrite Hdb1 in Hrun. fold (parentsOfTarget st (summaryID opts)) in Hrun.
  unfold n. clear n. set (parents := parentsOfTarget st (summaryID opts)) in *.
  destruct (decide (length parents = 0%nat)).
  { injection Hrun as <- <-. exists 2%nat. split; [lia|]. by rewrite Hcalls2, Hcalls1. }
  apply io_bind_inv in Hrun as [(e & Hpl & ->)|([] & w3 & Hpl & Hrun)];
    apply lift_printPlan in Hpl as (Hr3 & Hdb3 & Htx3 & Hcalls3); [done|].
  apply io_bind_inv in Hrun as [(e & Hq & ->)|(totalItems & w4 & Hq & Hrun)];
    apply queryIO_inv in Hq as (Hdb4 & Htx4 & Hcalls4 & [Hr|Hr]); try done.
  { injection Hr as ->. exists 3%nat. split; [lia|].
    by rewrite Hcalls4, Hcalls3, Hcalls2, Hcalls1. }
  clear Hr. cbv zeta in Hrun.
  apply io_bind_inv in Hrun as [(e & Hpr & ->)|([] & w5 & Hpr & Hrun)];
    apply lift_printLine in Hpr as (Hr5 & Hdb5 & Htx5 & Hcalls5); [done|].
  rewrite Happ in Hrun. cbn [negb] in Hrun.
  apply io_bind_inv in Hrun as [(e & Hpr & ->)|([] & w6 & Hpr & Hrun)];
    apply lift_printLine in Hpr as (Hr6 & Hdb6 & Htx6 & Hcalls6); [done|].
  assert (w_tx w6 = None) as Hnone by by rewrite Htx6, Htx5, Htx4, Htx3, Htx2, Htx1.
  assert (w_calls w6 = [CallQuery; CallQuery; CallQuery]) as Hthree
    by by rewrite Hcalls6, Hcalls5, Hcalls4, Hcalls3, Hcalls2, Hcalls1.
  apply io_bind_inv in Hrun as [(e & Htxn & ->)|([] & w7 & Htxn & Hrun)];
    apply (dissolveTxIO_calls _ _ _ _ _ _ _ _ _ _ Hnone) in Htxn;
    cbv zeta in Htxn; fold (statementCount opts (length parents)) in Htxn;
    rewrite Hthree in Htxn.
  { destruct (stageOf e); try done. }
  apply io_bind_inv in Hrun as [(e & Hv & ->)|(newCount & w8 & Hv & Hrun)];
    apply verifyCount_inv in Hv as [[k Hk] Hcalls8]; [done|].
  apply lift_printLine in Hrun as (-> & _ & _ & Hcalls9).
  rewrite Hcalls9, Hcalls8, Htxn. unfold begun. simpl. by rewrite <- !app_assoc.
Qed.
End FaultFacts.

Lemma dissolve_transaction_calls_witness :
  (dissolveIO (faultAt 12) (dissolveX true true) 1 exampleNow exampleStore).1
  = inl (Failed ErrCommit)
  ∧ w_calls (dissolveIO (faultAt 12) (dissolveX true true) 1 exampleNow exampleStore).2
    = begun ++ replicate 8 CallExec ++ [CallCommit; CallRollback].
Proof.
  destruct (dissolveIO (faultAt 12) (dissolveX true true) 1 exampleNow exampleStore)
    as [r w] eqn:E.
  assert (r = inl (Failed ErrCommit)) as -> by (vm_compute in E; by injection E as <- _).
  split; [reflexivity|].
  exact (dissolve_transaction_calls (faultAt 12) (dissolveX true true) _ _ _ _ _ eq_refl E).
Defined.

(** ** Without faults the run is the run of [dissolve] *)

Lemma io_bind_ext {A B} (m m' : io A) (k k' : A → io B) w :
  (∀ w, m w = m' w) → (∀ a w, k a w = k' a w) → (m ≫= k) w = (m' ≫= k') w.
Proof.
  intros Hm Hk. unfold mbind, io_bind. rewrite Hm. destruct (m' w) as [[e|a] w1]; [done|].
  apply Hk.
Qed.

Lemma lift_bind {A B} (m : cmd A) (k : A → cmd B) w :
  lift (m ≫= k) w = (lift m ≫= λ a, lift (k a)) w.
Proof.
  unfold lift, mbind, cmd_bind, io_bind. by destruct (m w) as [[e|a] w1].
Qed.

Lemma forRangeIO_lift {A} (body : nat → A → cmd unit) (body' : nat → A → io unit) l :
  (∀ i x w, body' i x w = lift (body i x) w) →
  ∀ i w, forRangeIO i l body' w = lift (forRange i l body) w.
Proof.
  intros Hbody. induction l as [|x l IH]; intros i w; simpl; [done|].
  rewrite lift_bind. apply io_bind_ext; [apply Hbody|intros _; apply IH].
Qed.

Ltac lifted :=
  repeat first
    [ reflexivity
    | rewrite lift_bind; apply io_bind_ext; [intros ?|intros ? ?]
    | apply forRangeIO_lift; intros ? ? ?
    | match goal with
      | |- (if ?c then _ else _) _ = lift (if ?c then _ else _) _ => destruct c
      end ].

Lemma applyDissolveIO_noFault opts cid target parents ti shift now w :
  applyDissolveIO noFault opts cid target parents ti shift now w
  = lift (applyDissolve opts cid target parents ti shift now) w.
Proof.
  unfold applyDissolveIO, applyDissolve. by lifted.
Qed.

Lemma dissolveTxIO_noFault opts cid target parents ti shift now w :
  dissolveTxIO noFault opts cid target parents ti shift now w
  = lift (dissolveTx opts cid target parents ti shift now) w.
Proof.
  unfold dissolveTxIO, dissolveTx. rewrite lift_bind.
  apply io_bind_ext; [done|]. intros _ w1. unfold deferRollbackIO, deferRollback, lift.
  rewrite applyDissolveIO_noFault. unfold lift.
  by destruct (applyDissolve _ _ _ _ _ _ _ _) as [[e|a] w2].
Qed.

(** A run in which no call fails on its own is the run of [dissolve]. *)
Lemma dissolveIO_noFault opts cid now st :
  dissolveIO noFault opts cid now st
  = match dissolve opts cid now st with
    | (inl e, w) => (inl (Failed e), w)
    | (inr u, w) => (inr u, w)
    end.
Proof.
  unfold dissolveIO, dissolve. generalize (initial_world st). intros w.
  change (runDissolveCommandIO noFault opts cid now w
          = lift (runDissolveCommand opts cid now) w).
  unfold runDissolveCommandIO, runDissolveCommand. lifted.
  - unfold loadDissolveTargetIO, loadDissolveTarget. lifted.
    destruct a as [|[s ci] rows]; [done|]. unfold targetOf. cbv zeta. by lifted.
  - apply dissolveTxIO_noFault.
Qed.

(** X14: what an applied dissolve that goes through does to the tables
    other than [context_items].  Conversations and message edges are never
    touched.  Without [--purge] summaries and parent edges are left as
    they are; with it, the summary rows under the target's id and the
    parent edges whose child end is the target are deleted and nothing
    else: an edge that names the target as its parent stays. *)
Theorem dissolve_purges_target_only opts cid now st w :
  apply opts = true →
  dissolve opts cid now st = (inr (), w) →
  let sid := summaryID opts in
  conversations (w_db w) = conversations st
  ∧ summary_messages (w_db w) = summary_messages st
  ∧ summaries (w_db w)
    = (if purge opts then filter (λ s, s_summary_id s ≠ sid) (summaries st)
       else summaries st)
  ∧ summary_parents (w_db w)
    = (if purge opts then filter (λ e, sp_summary_id e ≠ sid) (summary_parents st)
       else summary_parents st).
Proof.
  intros Happ Hrun sid. rewrite runDissolveCommand_run in Hrun. fold sid in Hrun.
  destruct (target_rows st cid sid) as [|[s ci] rest] eqn:E; [done|].
  destruct (decide (s_kind s ≠ _)); [done|]. simpl in Hrun.
  destruct (decide (length _ = 0%nat)); [done|]. rewrite Happ in Hrun.
  apply bind_inr in Hrun as ([] & w1 & Htx & Hrest).
  apply bind_inr in Hrest as (cnt & w2 & [= <- <-] & [_ (Hdb & _)]%printLine_inv).
  simpl in Hdb.
  unfold dissolveTx in Htx. apply bind_inr in Htx as ([] & wb & [= <-] & Hdefer).
  unfold deferRollback in Hdefer.
  destruct (applyDissolve _ _ _ _ _ _ _ _) as [[e|[]] w1'] eqn:Happly; [done|].
  injection Hdefer as ->.
  eapply applyDissolve_inr in Happly; [|reflexivity].
  destruct Happly as (t3 & _ & _ & _ & _ & _ & _ & Hconv & Hmsg & Hsum & Hpar).
  simpl in Hconv, Hmsg, Hsum, Hpar.
  assert ((s, ci) ∈ target_rows st cid sid) as Hin by (rewrite E; left).
  apply target_rows_elem in Hin as (_ & _ & _ & _ & Hid & _).
  rewrite Hid in Hsum, Hpar. by rewrite Hdb.
Qed.

Lemma dissolve_purges_target_only_witness :
  let w := (dissolve (dissolveX true true) 1 exampleNow exampleStore).2 in
  s_summary_id <$> summaries (w_db w) = ["sum_a"; "sum_b"; "sum_c"; "sum_e"; "sum_l"]%string
  ∧ summary_parents (w_db w) = []
  ∧ summary_messages (w_db w) = summary_messages exampleStore.
Proof.
  intros w. unfold w.
  destruct (dissolve (dissolveX true true) 1 exampleNow exampleStore) as [r w'] eqn:E.
  assert (r = inr ()) as -> by (vm_compute in E; by injection E as <- _).
  destruct (dissolve_purges_target_only (dissolveX true true) _ _ _ _ eq_refl E) as (_ & Hmsg & Hsum & Hpar).
  simpl. rewrite Hsum, Hpar, Hmsg. vm_compute. repeat split.
Defined.

(** ** Counts for the session list *)

Lemma countByKey_fold rows : ∀ (counts : gmap string Z) id,
  foldl (λ (counts : gmap string Z) sessionID,
           <[ sessionID := default 0 (counts !! sessionID) + 1 ]> counts) counts rows !! id
  = if decide (id ∈ rows)
    then Some (default 0 (counts !! id) + Z.of_nat (length (filter (λ x, x = id) rows)))
    else counts !! id.
Proof.
  induction rows as [|x rows IH]; intros counts id; cbn [foldl].
  - rewrite decide_False by apply not_elem_of_nil. done.
  - rewrite IH. rewrite filter_cons.
    destruct (decide (x = id)) as [->|Hne].
    + rewrite lookup_insert_eq. simpl.
      rewrite (decide_True (P := id ∈ id :: rows)) by left.
      destruct (decide (id ∈ rows)) as [Hin|Hout].
      * f_equal. lia.
      * rewrite (filter_none _ rows); [simpl; f_equal; lia|].
        apply Forall_forall. by intros y Hy ->.
    + rewrite lookup_insert_ne by done.
      destruct (decide (id ∈ rows)) as [Hin|Hout].
      * by rewrite decide_True by (by right).
      * rewrite decide_False; [done|]. by intros [->|?]%elem_of_cons.
Qed.

Lemma filter_bind {A B} (P : B → Prop) `{!∀ y, Decision (P y)} (f : A → list B) (l : list A) :
  filter P (l ≫= f) = l ≫= (λ x, filter P (f x)).
Proof.
  induction l as [|x l IH]; [done|]. by rewrite !bind_cons, filter_app, IH.
Qed.

Lemma fmap_bind {A B C} (g : B → C) (f : A → list B) (l : list A) :
  g <$> (l ≫= f) = l ≫= (λ x, g <$> f x).
Proof.
  induction l as [|x l IH]; [done|]. by rewrite !bind_cons, fmap_app, IH.
Qed.

Lemma bind_all_nil {A B} (f : A → list B) (l : list A) : (∀ x, f x = []) → l ≫= f = [].
Proof. intros Hf. induction l as [|x l IH]; [done|]. by rewrite bind_cons, IH, Hf. Qed.

(** X15: the count [loadSummaryCounts] reports for a session it was
    asked about is the number of summaries in the conversations of that
    session, all of them together; a session without summaries, or one it
    was not asked about, has no entry, which reads as 0. *)
Theorem loadSummaryCounts_counts (st : store) (sessionIDs : list string) (id : string) :
  let joined := filter (λ cs, s_conversation_id cs.2 = c_conversation_id cs.1
                              ∧ c_session_id cs.1 = id)
                       (c ← conversations st; s ← summaries st; [(c, s)]) in
  countOf (loadSummaryCounts st sessionIDs) id
  = (if decide (id ∈ sessionIDs) then Z.of_nat (length joined) else 0)
  ∧ (is_Some (loadSummaryCounts st sessionIDs !! id) ↔ id ∈ sessionIDs ∧ joined ≠ []).
Proof.
  intros joined.
  assert (filter (λ x, x = id) (summary_session_rows st sessionIDs)
          = if decide (id ∈ sessionIDs) then (λ _, id) <$> joined else []) as Hrows.
  { unfold summary_session_rows, joined. rewrite filter_bind.
    destruct (decide (id ∈ sessionIDs)) as [Hin|Hout].
    - rewrite filter_bind, fmap_bind. apply list_bind_ext; [|done]. intros c.
      rewrite !filter_bind, fmap_bind. apply list_bind_ext; [|done]. intros s.
      rewrite (filter_cons _ (c, s)), filter_nil. simpl.
      destruct (decide (s_conversation_id s = c_conversation_id c
                        ∧ c_session_id c ∈ sessionIDs)) as [[Hc Hs]|Hno].
      + rewrite filter_cons, filter_nil.
        destruct (decide (c_session_id c = id)) as [Hid|Hid].
        * rewrite decide_True by done. by rewrite Hid.
        * by rewrite decide_False by tauto.
      + rewrite filter_nil. rewrite decide_False; [done|].
        intros [Hc Hid]. apply Hno. split; [done|]. by rewrite Hid.
    - apply bind_all_nil. intros c. rewrite filter_bind. apply bind_all_nil. intros s.
      destruct (decide (s_conversation_id s = c_conversation_id c
                        ∧ c_session_id c ∈ sessionIDs)) as [[Hc Hs]|Hno]; [|done].
      rewrite filter_cons, filter_nil. rewrite decide_False; [done|]. by intros <-. }
  assert (id ∈ summary_session_rows st sessionIDs ↔ id ∈ sessionIDs ∧ joined ≠ []) as Hin.
  { assert (id ∈ summary_session_rows st sessionIDs
            ↔ id ∈ filter (λ x, x = id) (summary_session_rows st sessionIDs)) as ->.
    { rewrite list_elem_of_filter. tauto. }
    rewrite Hrows. destruct (decide (id ∈ sessionIDs)).
    - destruct joined; simpl; [|split; [done|intros _; left]].
      split; [by intros ?%elem_of_nil|by intros [_ ?]].
    - split; [by intros ?%elem_of_nil|by intros [? _]]. }
  unfold loadSummaryCounts, countOf.
  destruct (decide (length sessionIDs = 0%nat)) as [Hnone|Hsome].
  { destruct sessionIDs; [|done]. rewrite lookup_empty.
    rewrite (decide_False (P := id ∈ [])) by apply not_elem_of_nil. split; [done|].
    split; [by intros [? [=]]|]. by intros [?%elem_of_nil _]. }
  unfold countByKey. rewrite countByKey_fold, lookup_empty, Hrows. simpl.
  destruct (decide (id ∈ summary_session_rows st sessionIDs)) as [Hyes|Hno].
  - apply Hin in Hyes as [Hid Hj]. destruct (decide (id ∈ sessionIDs)); [|done]. simpl.
    rewrite length_fmap. split; [lia|]. split; [done|by eexists].
  - split.
    + simpl. destruct (decide (id ∈ sessionIDs)); [|done].
      destruct joined; [done|]. destruct Hno. apply Hin. by split.
    + split; [by intros [? [=]]|]. intros Hj. destruct Hno. by apply Hin.
Qed.

(** ** The session list, loaded in batches *)

Lemma take_length_take {A} (n : nat) (l : list A) : take (length (take n l)) l = take n l.
Proof.
  rewrite length_take. destruct (decide (n ≤ length l)%nat).
  - by rewrite Nat.min_l.
  - rewrite Nat.min_r by lia. by rewrite !take_ge by lia.
Qed.

Section SessionFacts.
Context (cm : string → option Z) (idOf : string → string)
        (fc : list string → gmap string Z) (st : store).

Lemma batch_filenames summaryCounts fileCounts (window : list sessionFileEntry) :
  se_filename <$> (withCounts summaryCounts fileCounts <$> (scanSession cm idOf <$> window))
  = sf_filename <$> window.
Proof. rewrite <- !list_fmap_compose. by apply list_fmap_ext. Qed.

(** The batch, for arguments that are lengths and small steps. *)
Lemma loadSessionBatch_run files offset limit :
  offset < 2 ^ 62 → limit < 2 ^ 62 → Z.of_nat (length files) < 2 ^ 62 →
  let start := Z.max 0 offset in
  let window := take (Z.to_nat limit) (drop (Z.to_nat start) files) in
  ∃ batch,
    loadSessionBatch cm idOf fc st files offset limit
    = Some (batch, if decide (limit <= 0) then start
                   else Z.min (start + limit) (Z.of_nat (length files)))
    ∧ se_filename <$> batch = sf_filename <$> window
    ∧ length batch = length window.
Proof.
  intros Ho Hl Hf start window. unfold loadSessionBatch.
  assert ((if decide (offset < 0) then 0 else offset) = start) as ->
    by (unfold start; case_decide; lia).
  destruct (decide (limit <= 0)) as [Hlim|Hlim].
  { exists []. split; [done|]. unfold window.
    replace (Z.to_nat limit) with 0%nat by lia. done. }
  destruct (decide (start >= Z.of_nat (length files))) as [Hend|Hin].
  { exists []. split; [f_equal; f_equal; lia|]. unfold window.
    rewrite drop_ge by lia. by rewrite take_nil. }
  rewrite wrap64_small by (unfold start; lia).
  assert ((if decide (start + limit > Z.of_nat (length files))
           then Z.of_nat (length files) else start + limit)
          = Z.min (start + limit) (Z.of_nat (length files))) as -> by (case_decide; lia).
  unfold sliceFiles. rewrite decide_True by (unfold start in *; lia).
  cbn [mbind option_bind].
  assert (take (Z.to_nat (Z.min (start + limit) (Z.of_nat (length files)) - start))
               (drop (Z.to_nat start) files) = window) as ->.
  { unfold window. destruct (decide (start + limit > Z.of_nat (length files))).
    - rewrite !take_ge; [done|rewrite length_drop; lia..].
    - f_equal. lia. }
  eexists. split; [done|]. by rewrite batch_filenames, !length_fmap.
Qed.

(** X16: [loadSessionBatch] returns the sessions of the files from
    [offset] on, [limit] of them or as many as are left, in the order of
    the files, and the position after the last one; a negative offset
    counts as 0, and for a limit of 0 or less nothing is loaded and the
    position stays.  It does not panic. *)
Theorem loadSessionBatch_window files offset limit :
  offset < 2 ^ 62 → limit < 2 ^ 62 → Z.of_nat (length files) < 2 ^ 62 →
  let start := Z.max 0 offset in
  ∃ batch next,
    loadSessionBatch cm idOf fc st files offset limit = Some (batch, next)
    ∧ se_filename <$> batch
      = sf_filename <$> take (Z.to_nat limit) (drop (Z.to_nat start) files)
    ∧ next = (if decide (limit <= 0) then start
              else Z.min (start + limit) (Z.of_nat (length files))).
Proof.
  intros Ho Hl Hf start.
  destruct (loadSessionBatch_run files offset limit Ho Hl Hf) as (batch & Hrun & Hnames & _).
  eexists batch, _. by split_and!.
Qed.

Lemma appendSessionBatch_files limit m :
  limit < 2 ^ 62 → filesLoaded m →
  ∃ m', appendSessionBatch cm idOf fc st limit m
        = Some (m', Z.of_nat (length (p_sessions m')) - Z.of_nat (length (p_sessions m)))
        ∧ p_sessionFiles m' = p_sessionFiles m
        ∧ p_sessionCursor m' = p_sessionCursor m
        ∧ p_status m' = p_status m
        ∧ p_sessionFileCursor m'
          = (if decide (limit <= 0) then p_sessionFileCursor m
             else Z.min (p_sessionFileCursor m + limit)
                        (Z.of_nat (length (p_sessionFiles m))))
        ∧ Z.of_nat (length (p_sessions m')) - Z.of_nat (length (p_sessions m))
          = p_sessionFileCursor m' - p_sessionFileCursor m
        ∧ (∃ batch, p_sessions m' = p_sessions m ++ batch)
        ∧ filesLoaded m'.
Proof.
  intros Hl (Hcur & Hlen & Hnames). unfold appendSessionBatch.
  destruct (loadSessionBatch_run (p_sessionFiles m) (p_sessionFileCursor m) limit
              ltac:(lia) Hl Hlen) as (batch & -> & Hbatch & Hblen).
  rewrite Z.max_r in Hbatch, Hblen |- * by lia. cbn [mbind option_bind].
  set (next := if decide (limit <= 0) then p_sessionFileCursor m
               else Z.min (p_sessionFileCursor m + limit)
                          (Z.of_nat (length (p_sessionFiles m)))).
  assert (Z.of_nat (length batch) = next - p_sessionFileCursor m) as Hgrow.
  { rewrite Hblen, length_take, length_drop. unfold next. case_decide; lia. }
  exists {| p_sessionFiles := p_sessionFiles m; p_sessionFileCursor := next;
            p_sessions := p_sessions m ++ batch; p_sessionCursor := p_sessionCursor m;
            p_status := p_status m |}.
  cbn [p_sessionFiles p_sessionCursor p_status p_sessionFileCursor p_sessions].
  assert (Z.of_nat (length (p_sessions m ++ batch)) - Z.of_nat (length (p_sessions m))
          = Z.of_nat (length batch)) as Hdiff by (rewrite length_app; lia).
  split; [by rewrite Hdiff|]. do 4 (split; [done|]). split; [by rewrite Hdiff|].
  split; [by exists batch|].
  unfold filesLoaded.
  cbn [p_sessionFiles p_sessionCursor p_status p_sessionFileCursor p_sessions].
  split; [unfold next; case_decide; lia|]. split; [done|].
  rewrite fmap_app, Hnames, Hbatch, <- fmap_app. f_equal.
  replace (Z.to_nat next)
    with (Z.to_nat (p_sessionFileCursor m) + Z.to_nat (next - p_sessionFileCursor m))%nat
    by (unfold next; case_decide; lia).
  rewrite <- take_take_drop. f_equal.
  by rewrite <- Hgrow, Nat2Z.id, Hblen, take_length_take.
Qed.

Lemma filesLoaded_length m :
  filesLoaded m → Z.of_nat (length (p_sessions m)) = p_sessionFileCursor m.
Proof.
  intros (Hcur & Hlen & Hnames). apply (f_equal length) in Hnames.
  rewrite !length_fmap, length_take in Hnames. lia.
Qed.

Lemma maybeLoadMoreSessions_files m :
  filesLoaded m → - 2 ^ 62 < p_sessionCursor m < 2 ^ 62 →
  ∃ m' loaded,
    maybeLoadMoreSessions cm idOf fc st m = Some (m', loaded)
    ∧ p_sessionFiles m' = p_sessionFiles m
    ∧ p_sessionCursor m' = p_sessionCursor m
    ∧ loaded = Z.of_nat (length (p_sessions m')) - Z.of_nat (length (p_sessions m))
    ∧ (0 < loaded ↔ Z.of_nat (length (p_sessions m)) - p_sessionCursor m <= 3
                    ∧ p_sessionFileCursor m < Z.of_nat (length (p_sessionFiles m)))
    ∧ 0 <= loaded
    ∧ p_sessionFileCursor m'
      = (if decide (Z.of_nat (length (p_sessions m)) - p_sessionCursor m <= 3)
         then Z.min (p_sessionFileCursor m + 50) (Z.of_nat (length (p_sessionFiles m)))
         else p_sessionFileCursor m)
    ∧ (∃ batch, p_sessions m' = p_sessions m ++ batch)
    ∧ filesLoaded m'.
Proof.
  intros Hm Hc. pose proof Hm as (Hcur & Hlen & Hnames).
  pose proof (filesLoaded_length m Hm) as Hs.
  unfold maybeLoadMoreSessions. rewrite wrap64_small by lia.
  destruct (decide (_ > 3)) as [Hfar|Hnear].
  { exists m, 0. split_and!; try done; try lia.
    - case_decide; lia.
    - exists []. by rewrite app_nil_r. }
  destruct (decide (_ >= _)) as [Hdone|Hmore].
  { exists m, 0. split_and!; try done; try lia.
    - case_decide; lia.
    - exists []. by rewrite app_nil_r. }
  destruct (appendSessionBatch_files sessionBatchLoadSize m
              ltac:(unfold sessionBatchLoadSize; lia) Hm)
    as (m1 & -> & Hf & Hcu & Hst & Hnext & Hgrow & Happ & Hm1).
  cbn [mbind option_bind]. unfold sessionBatchLoadSize in Hnext. simpl in Hnext.
  assert (Z.of_nat (length (p_sessions m1)) - Z.of_nat (length (p_sessions m)) > 0) as Hpos
    by lia.
  rewrite decide_True by done.
  eexists _, _. split; [done|].
  cbn [p_sessionFiles p_sessionCursor p_status p_sessionFileCursor p_sessions].
  split; [done|]. split; [done|]. split; [done|]. split; [lia|]. split; [lia|].
  split; [rewrite decide_True by lia; exact Hnext|].
  split; [done|]. exact Hm1.
Qed.


(** X18: on a loaded list, "down" keeps the sessions the first files in
    their order, adding those of the next 50 files (or of the files left)
    when the cursor was within four rows of the end, and leaves the cursor
    on a session.  It moves the cursor one row down; not at all on the
    last row when no file is left to load; and two rows down from the last
    row but one when it loads a batch. *)
Theorem sessionsDown_moves m :
  loadedPrefix m → p_sessions m ≠ [] →
  ∃ m', sessionsDown cm idOf fc st m = Some m'
        ∧ p_sessionFiles m' = p_sessionFiles m
        ∧ (∃ batch, p_sessions m' = p_sessions m ++ batch)
        ∧ p_sessionFileCursor m'
          = (if decide (Z.of_nat (length (p_sessions m)) - p_sessionCursor m <= 4)
             then Z.min (p_sessionFileCursor m + 50) (Z.of_nat (length (p_sessionFiles m)))
             else p_sessionFileCursor m)
        ∧ p_sessionCursor m' = p_sessionCursor m + downStep m
        ∧ loadedPrefix m'.
Proof.
  intros [Hm Hc] Hsome. pose proof Hm as (Hcur & Hlen & Hnames).
  pose proof (filesLoaded_length m Hm) as Hs.
  assert (0 < Z.of_nat (length (p_sessions m))) as Hpos
    by (destruct (p_sessions m); [done|simpl; lia]).
  unfold sessionsDown.
  rewrite !(wrap64_small (Z.of_nat (length (p_sessions m)) - 1)) by lia.
  rewrite (wrap64_small (p_sessionCursor m + 1)) by lia.
  set (c1 := clamp (p_sessionCursor m + 1) 0 (Z.of_nat (length (p_sessions m)) - 1)).
  assert (c1 = Z.min (p_sessionCursor m + 1) (Z.of_nat (length (p_sessions m)) - 1)) as Hc1
    by (unfold c1, clamp; repeat case_decide; lia).
  set (m0 := {| p_sessionFiles := p_sessionFiles m;
                p_sessionFileCursor := p_sessionFileCursor m;
                p_sessions := p_sessions m; p_sessionCursor := c1;
                p_status := p_status m |}).
  destruct (maybeLoadMoreSessions_files m0 Hm ltac:(simpl; lia))
    as (m1 & loaded & -> & Hf & Hcu & Hloaded & Hiff & Hge & Hfc & Happ & Hm1).
  cbn [mbind option_bind]. simpl in Hf, Hcu, Hloaded, Hiff, Hfc, Happ.
  assert (p_sessionFileCursor m1
          = (if decide (Z.of_nat (length (p_sessions m)) - p_sessionCursor m <= 4)
             then Z.min (p_sessionFileCursor m + 50) (Z.of_nat (length (p_sessionFiles m)))
             else p_sessionFileCursor m)) as Hfc'
    by (rewrite Hfc; repeat case_decide; lia).
  pose proof (filesLoaded_length m1 Hm1) as Hs1.
  assert (loaded > 0 ∧ p_sessionCursor m1 = Z.of_nat (length (p_sessions m)) - 1
          ↔ p_sessionCursor m + 1 >= Z.of_nat (length (p_sessions m)) - 1
            ∧ p_sessionFileCursor m < Z.of_nat (length (p_sessionFiles m))) as Hjump.
  { rewrite Hcu. split; [intros [Hl Hlast]|intros [Hend Hmore]].
    - assert (0 < loaded) as Hl' by lia. apply Hiff in Hl'. lia.
    - split; [|lia]. assert (0 < loaded) as Hl; [|lia]. apply Hiff. lia. }
  unfold downStep. destruct (decide (loaded > 0 ∧ _)) as [Hj|Hj].
  - pose proof Hj as [Hl Hlast]. apply Hjump in Hj as [Hend Hmore].
    eexists. split; [done|].
    cbn [p_sessionFiles p_sessionCursor p_status p_sessionFileCursor p_sessions].
    pose proof Hm1 as (Hcur1 & Hlen1 & _).
    rewrite (wrap64_small (p_sessionCursor m1 + 1)) by lia.
    rewrite (wrap64_small (Z.of_nat (length (p_sessions m1)) - 1)) by lia.
    rewrite bool_decide_true by done.
    assert (clamp (p_sessionCursor m1 + 1) 0 (Z.of_nat (length (p_sessions m1)) - 1)
            = Z.of_nat (length (p_sessions m))) as Hnew
      by (unfold clamp; repeat case_decide; lia).
    rewrite Hnew. split; [done|]. split; [done|]. split; [exact Hfc'|]. split.
    + repeat case_decide; lia.
    + split; [exact Hm1|]. simpl. lia.
  - exists m1. split; [done|]. split; [done|]. split; [done|]. split; [exact Hfc'|]. split.
    + rewrite Hcu.
      destruct (bool_decide_reflect
                  (p_sessionFileCursor m < Z.of_nat (length (p_sessionFiles m)))) as [Hmore|Hno].
      * repeat case_decide; try lia; destruct Hj; apply Hjump; lia.
      * repeat case_decide; lia.
    + split; [exact Hm1|]. rewrite Hcu. lia.
Qed.
End SessionFacts.

Lemma loadSessionBatch_window_witness :
  ∃ batch,
    loadSessionBatch (λ _, None) (λ name, name) (λ _, ∅) exampleStore exampleFiles 1 50
    = Some (batch, 3)
    ∧ se_filename <$> batch = ["b.jsonl"; "c.jsonl"]%string.
Proof.
  destruct (loadSessionBatch_window (λ _, None) (λ name, name) (λ _, ∅) exampleStore
              exampleFiles 1 50 ltac:(lia) ltac:(lia) ltac:(simpl; lia))
    as (batch & next & Hrun & Hnames & Hnext).
  exists batch. split; [|exact Hnames]. rewrite Hrun, Hnext. reflexivity.
Defined.


Lemma examplePager_loaded : loadedPrefix examplePager.
Proof. unfold loadedPrefix, filesLoaded. simpl. split_and!; try done; lia. Qed.

Lemma sessionsDown_moves_witness :
  ∃ m', sessionsDown (λ _, None) (λ name, name) (λ _, ∅) exampleStore examplePager = Some m'
        ∧ (∃ batch, p_sessions m' = p_sessions examplePager ++ batch)
        ∧ p_sessionCursor m' = 2.
Proof.
  destruct (sessionsDown_moves (λ _, None) (λ name, name) (λ _, ∅) exampleStore
              examplePager examplePager_loaded ltac:(done))
    as (m' & Hrun & _ & Hbatch & _ & Hcursor & _).
  exists m'. split; [exact Hrun|]. split; [exact Hbatch|exact Hcursor].
Defined.
